(** * video-downloader: the download, resume and batch subsystem

    A shallow embedding of
    - [internal/resume/downloader.go]  (package [resume], the resumable
      transfer engine),
    - [internal/auth/middleware.go]    (the [BatchManager] part),
    - the download manager ([Manager.Download], [Manager.DownloadBatch]),
    - [internal/utils/downloader.go]   (the [M3U8Downloader] part, and
      [downloadFile] with its [ProgressReader]),
    - [internal/utils/http_client.go]  ([GetWithRetry], [FormatBytes]),
    and the properties of these that the specification states, with further
    properties that the code has.

    Conventions.  Go's [int], [int64] and [time.Duration] are [Z]; sums that
    the code computes on them are wrapped to 64 bits with [wrap64].  Files
    are a finite map from paths to byte lists.  A goroutine is a function on
    an explicit world (files, job record, event log, scripted network); where
    several goroutines interleave, the interleaving is a step relation.
    Clock readings ([CreatedAt], [UpdatedAt], [CompletedAt]) and the
    floating-point fields ([Progress], [Speed], [ETA]) of the records are
    left out: they are written and reported, and decide nothing. *)

From Stdlib Require Import ZArith List Bool Lia Decimal DecimalString DecimalNat.
From Stdlib Require Import Strings.Byte Strings.Ascii Permutation.
From stdpp Require Import base tactics option list relations gmap strings.

#[local] Open Scope Z_scope.
#[local] Open Scope string_scope.
#[local] Open Scope list_scope.

(** ** Machine integers and small helpers *)

Definition wrap64 (z : Z) : Z := (z + 2 ^ 63) mod 2 ^ 64 - 2 ^ 63.

(** [fmt.Sprintf("%d", z)] *)
Definition fmt_d (z : Z) : string := NilZero.string_of_int (Z.to_int z).

(** [filepath.Join(a, b)] for an already clean [a] and a plain file name
    [b]; the cleaning pass of [filepath.Join] is not modelled. *)
Definition filepath_Join (a b : string) : string := a +:+ "/" +:+ b.

(** [int64(len(p))] *)
Definition len64 {A} (p : list A) : Z := Z.of_nat (length p).

(** How many elements of a list satisfy a test *)
Fixpoint count_if {A} (f : A -> bool) (l : list A) : nat :=
  match l with
  | [] => 0
  | x :: rest => ((if f x then 1 else 0) + count_if f rest)%nat
  end.

(** ** The resumable transfer engine ([internal/resume/downloader.go]) *)

Module Resume.

(** [http.StatusOK] and [http.StatusPartialContent] *)
Definition StatusOK : Z := 200.
Definition StatusPartialContent : Z := 206.

(** [time.Second], in nanoseconds *)
Definition Second : Z := 1000000000.

Record ProgressUpdate := {
  pu_JobID : string;
  pu_Downloaded : Z;
  pu_FileSize : Z;
  pu_Status : string
}.

(** A [chan<- ProgressUpdate] as its producer sees it: the buffer capacity
    chosen by the caller and the updates queued in it.  The consumer is the
    caller of [StartDownload]; a sink that is busy receives nothing while the
    producer runs, which is the situation modelled here. *)
Record Chan := {
  chan_cap : nat;
  chan_buf : list ProgressUpdate
}.

Definition chan_full (c : Chan) : bool := (chan_cap c <=? length (chan_buf c))%nat.

Definition chan_push (c : Chan) (u : ProgressUpdate) : Chan :=
  {| chan_cap := chan_cap c; chan_buf := chan_buf c ++ [u] |}.

(** The [error] values the engine produces, one constructor per
    [fmt.Errorf] site. *)
Inductive JobError :=
| ErrCreateRequest
| ErrHeadFailed
| ErrHeadStatus (code : Z)
| ErrGetFailed
| ErrUnexpectedStatus (code : Z)
| ErrOpenTemp
| ErrCopy
| ErrStatTemp
| ErrSizeMismatch (expected got : Z)
| ErrChecksumRead
| ErrChecksumMismatch (expected got : string)
| ErrFileInfo (e : JobError)
| ErrVerification (e : JobError)
| ErrCreateDirectory
| ErrMoveFile
| ErrAfterAttempts (n : Z)
| ErrCancelled.

Record ResumableJob := {
  ID : string;
  URL : string;
  FilePath : string;
  TempPath : string;
  MetaPath : string;
  FileSize : Z;
  Downloaded : Z;
  Status : string;
  Headers : gmap string string;
  Checksum : string;
  RetryCount : Z;
  LastError : option JobError;
  (** [ctx]: [None] while no context was created (a job loaded from its
      metadata file), [Some b] with [b] telling whether [ctx.Err() != nil] *)
  ctx : option bool;
  (** [progressChan], [None] for a nil channel *)
  progressChan : option Chan
}.

Definition set_Status (s : string) (j : ResumableJob) : ResumableJob :=
  {| ID := ID j; URL := URL j; FilePath := FilePath j; TempPath := TempPath j;
     MetaPath := MetaPath j; FileSize := FileSize j; Downloaded := Downloaded j;
     Status := s; Headers := Headers j; Checksum := Checksum j;
     RetryCount := RetryCount j; LastError := LastError j; ctx := ctx j;
     progressChan := progressChan j |}.

Definition set_FileSize (n : Z) (j : ResumableJob) : ResumableJob :=
  {| ID := ID j; URL := URL j; FilePath := FilePath j; TempPath := TempPath j;
     MetaPath := MetaPath j; FileSize := n; Downloaded := Downloaded j;
     Status := Status j; Headers := Headers j; Checksum := Checksum j;
     RetryCount := RetryCount j; LastError := LastError j; ctx := ctx j;
     progressChan := progressChan j |}.

Definition set_Downloaded (n : Z) (j : ResumableJob) : ResumableJob :=
  {| ID := ID j; URL := URL j; FilePath := FilePath j; TempPath := TempPath j;
     MetaPath := MetaPath j; FileSize := FileSize j; Downloaded := n;
     Status := Status j; Headers := Headers j; Checksum := Checksum j;
     RetryCount := RetryCount j; LastError := LastError j; ctx := ctx j;
     progressChan := progressChan j |}.

Definition set_RetryCount (n : Z) (j : ResumableJob) : ResumableJob :=
  {| ID := ID j; URL := URL j; FilePath := FilePath j; TempPath := TempPath j;
     MetaPath := MetaPath j; FileSize := FileSize j; Downloaded := Downloaded j;
     Status := Status j; Headers := Headers j; Checksum := Checksum j;
     RetryCount := n; LastError := LastError j; ctx := ctx j;
     progressChan := progressChan j |}.

Definition set_LastError (e : JobError) (j : ResumableJob) : ResumableJob :=
  {| ID := ID j; URL := URL j; FilePath := FilePath j; TempPath := TempPath j;
     MetaPath := MetaPath j; FileSize := FileSize j; Downloaded := Downloaded j;
     Status := Status j; Headers := Headers j; Checksum := Checksum j;
     RetryCount := RetryCount j; LastError := Some e; ctx := ctx j;
     progressChan := progressChan j |}.

Definition set_ctx (c : option bool) (j : ResumableJob) : ResumableJob :=
  {| ID := ID j; URL := URL j; FilePath := FilePath j; TempPath := TempPath j;
     MetaPath := MetaPath j; FileSize := FileSize j; Downloaded := Downloaded j;
     Status := Status j; Headers := Headers j; Checksum := Checksum j;
     RetryCount := RetryCount j; LastError := LastError j; ctx := c;
     progressChan := progressChan j |}.

Definition set_progressChan (c : option Chan) (j : ResumableJob) : ResumableJob :=
  {| ID := ID j; URL := URL j; FilePath := FilePath j; TempPath := TempPath j;
     MetaPath := MetaPath j; FileSize := FileSize j; Downloaded := Downloaded j;
     Status := Status j; Headers := Headers j; Checksum := Checksum j;
     RetryCount := RetryCount j; LastError := LastError j; ctx := ctx j;
     progressChan := c |}.

Record ResumableConfig := {
  cfg_MetaDir : string;
  cfg_TempDir : string;
  cfg_ChunkSize : Z;
  cfg_MaxRetries : Z;
  cfg_Timeout : Z;
  cfg_UserAgent : string
}.

Record ResumableDownloader := {
  client_Timeout : Z;
  metaDir : string;
  tempDir : string;
  chunkSize : Z;
  maxRetries : Z;
  timeout : Z;
  activeJobs : gmap string ResumableJob
}.

Definition with_activeJobs (m : gmap string ResumableJob) (rd : ResumableDownloader)
  : ResumableDownloader :=
  {| client_Timeout := client_Timeout rd; metaDir := metaDir rd; tempDir := tempDir rd;
     chunkSize := chunkSize rd; maxRetries := maxRetries rd; timeout := timeout rd;
     activeJobs := m |}.

(** [loadExistingJobs]: [files] lists the [*.json] files of the metadata
    directory in glob order, each with the job its contents decode to
    ([None] when reading or decoding fails: the file is skipped).
    A decoded job has no context and no channel. *)
Definition loadExistingJobs (files : list (string * option ResumableJob))
    (jobs : gmap string ResumableJob) : gmap string ResumableJob :=
  foldl (fun acc fj =>
           match fj.2 with
           | None => acc
           | Some job =>
               let job := {| ID := ID job; URL := URL job; FilePath := FilePath job;
                             TempPath := TempPath job; MetaPath := fj.1;
                             FileSize := FileSize job; Downloaded := Downloaded job;
                             Status := Status job; Headers := Headers job;
                             Checksum := Checksum job; RetryCount := RetryCount job;
                             LastError := LastError job; ctx := None;
                             progressChan := None |} in
               <[ID job := job]> acc
           end) jobs files.

(** [NewResumableDownloader]; the two [os.MkdirAll] calls have no effect on
    the returned value. *)
Definition NewResumableDownloader (config : ResumableConfig)
    (files : list (string * option ResumableJob)) : ResumableDownloader :=
  let MetaDir := if decide (cfg_MetaDir config = "") then "./temp/metadata"
                 else cfg_MetaDir config in
  let TempDir := if decide (cfg_TempDir config = "") then "./temp/downloads"
                 else cfg_TempDir config in
  let ChunkSize := if decide (cfg_ChunkSize config = 0) then 1024 * 1024
                   else cfg_ChunkSize config in
  let MaxRetries := if decide (cfg_MaxRetries config = 0) then 3
                    else cfg_MaxRetries config in
  let Timeout := if decide (cfg_Timeout config = 0) then 30 * Second
                 else cfg_Timeout config in
  {| client_Timeout := Timeout;
     metaDir := MetaDir;
     tempDir := TempDir;
     chunkSize := ChunkSize;
     maxRetries := MaxRetries;
     timeout := Timeout;
     activeJobs := loadExistingJobs files ∅ |}.

(** What a call leaves behind besides its return value: the goroutines it
    started.  All network traffic of the engine ([getFileInfo],
    [performDownload]) happens inside [downloadJob]. *)
Inductive Spawn :=
| GoDownloadJob (jobID : string).

Section Registry.

(** [hex.EncodeToString] of the MD5 digest, from Go's standard library *)
Variable md5hex : list byte -> string.

Definition generateJobID (url filePath : string) : string :=
  md5hex (String.list_byte_of_string (url +:+ ":" +:+ filePath)).

(** [resumeDownload]; the job is the one stored under its [ID]. *)
Definition resumeDownload (rd : ResumableDownloader) (job : ResumableJob)
    (pc : option Chan) : ResumableDownloader * ResumableJob * list Spawn :=
  if decide (Status job = "downloading") then (rd, job, [])
  else if decide (Status job = "completed") then (rd, job, [])
  else
    let job' := set_ctx (Some false) (set_progressChan pc job) in
    (with_activeJobs (<[ID job := job']> (activeJobs rd)) rd, job',
     [GoDownloadJob (ID job)]).

Definition StartDownload (rd : ResumableDownloader) (url filePath : string)
    (headers : gmap string string) (pc : option Chan)
  : ResumableDownloader * ResumableJob * list Spawn :=
  let jobID := generateJobID url filePath in
  match activeJobs rd !! jobID with
  | Some existingJob =>
      if decide (Status existingJob = "completed") then (rd, existingJob, [])
      else resumeDownload rd existingJob pc
  | None =>
      let job := {| ID := jobID; URL := url; FilePath := filePath;
                    TempPath := filepath_Join (tempDir rd) (jobID +:+ ".tmp");
                    MetaPath := filepath_Join (metaDir rd) (jobID +:+ ".json");
                    FileSize := 0; Downloaded := 0; Status := "pending";
                    Headers := headers; Checksum := ""; RetryCount := 0;
                    LastError := None; ctx := Some false;
                    progressChan := pc |} in
      (with_activeJobs (<[jobID := job]> (activeJobs rd)) rd, job,
       [GoDownloadJob jobID])
  end.

(** [ResumeDownload] *)
Definition ResumeDownload (rd : ResumableDownloader) (jobID : string) (pc : option Chan)
  : option (ResumableDownloader * ResumableJob * list Spawn) :=
  match activeJobs rd !! jobID with
  | None => None
  | Some job => Some (resumeDownload rd job pc)
  end.

End Registry.

(** *** One job's goroutine: the world it acts on *)

Record Request := {
  req_Method : string;
  req_URL : string;
  (** [req.Header], keyed by canonical header names as [Header.Set] stores
      them; the caller's header names are taken in canonical form *)
  req_Header : gmap string string
}.

Inductive Event :=
| EvDo (r : Request)
| EvWriteMeta (path : string)
| EvMkdirAll (forFile : string)
| EvRename (src dst : string)
| EvRemove (path : string)
| EvSent (u : ProgressUpdate)
| EvDropped (u : ProgressUpdate)
| EvSleep (seconds : Z)
| EvPauseJob.

(** The answer to the [HEAD] probe: transport failure, or a status with the
    [Content-Length] value as [parseFileSize] reads it ([None] when the
    header is absent or no number) and whether [Accept-Ranges] is [bytes]. *)
Inductive HeadOutcome :=
| HeadFails
| HeadResponds (status : Z) (contentLength : option Z) (acceptRanges : bool).

(** How the body stream of a [GET] ends after the chunks it delivered: end
    of file, a read error, or [PauseJob] called by another goroutine
    (the pending read then fails with the context's error). *)
Inductive CopyEnd := CopyEOF | CopyError | CopyPaused.

(** The answer to one [GET]: [client.Do] fails (after [PauseJob] was called
    meanwhile, when [paused]), or a response arrives whose body reaches
    [progressWriter.Write] in the given chunks. *)
Inductive GetOutcome :=
| DoFails (paused : bool)
| Responds (status : Z) (chunks : list (list byte)) (ending : CopyEnd).

Record World := {
  w_fs : gmap string (list byte);
  w_job : ResumableJob;
  w_log : list Event;
  (** the scripted environment *)
  w_head : HeadOutcome;
  w_gets : list GetOutcome;
  (** for each backoff wait, whether [PauseJob] is called during it *)
  w_waits : list bool;
  w_urlOk : bool;
  w_openOk : bool;
  w_mkdirOk : bool;
  w_renameOk : bool
}.

Definition with_fs (fs : gmap string (list byte)) (w : World) : World :=
  {| w_fs := fs; w_job := w_job w; w_log := w_log w; w_head := w_head w;
     w_gets := w_gets w; w_waits := w_waits w; w_urlOk := w_urlOk w;
     w_openOk := w_openOk w; w_mkdirOk := w_mkdirOk w; w_renameOk := w_renameOk w |}.

Definition with_job (j : ResumableJob) (w : World) : World :=
  {| w_fs := w_fs w; w_job := j; w_log := w_log w; w_head := w_head w;
     w_gets := w_gets w; w_waits := w_waits w; w_urlOk := w_urlOk w;
     w_openOk := w_openOk w; w_mkdirOk := w_mkdirOk w; w_renameOk := w_renameOk w |}.

Definition with_log (l : list Event) (w : World) : World :=
  {| w_fs := w_fs w; w_job := w_job w; w_log := l; w_head := w_head w;
     w_gets := w_gets w; w_waits := w_waits w; w_urlOk := w_urlOk w;
     w_openOk := w_openOk w; w_mkdirOk := w_mkdirOk w; w_renameOk := w_renameOk w |}.

Definition with_gets (g : list GetOutcome) (w : World) : World :=
  {| w_fs := w_fs w; w_job := w_job w; w_log := w_log w; w_head := w_head w;
     w_gets := g; w_waits := w_waits w; w_urlOk := w_urlOk w;
     w_openOk := w_openOk w; w_mkdirOk := w_mkdirOk w; w_renameOk := w_renameOk w |}.

Definition with_waits (l : list bool) (w : World) : World :=
  {| w_fs := w_fs w; w_job := w_job w; w_log := w_log w; w_head := w_head w;
     w_gets := w_gets w; w_waits := l; w_urlOk := w_urlOk w;
     w_openOk := w_openOk w; w_mkdirOk := w_mkdirOk w; w_renameOk := w_renameOk w |}.

(** A goroutine either runs to the end of the function or parks for ever on
    a channel send nobody receives. *)
Inductive Outcome (A : Type) :=
| Ret (a : A) (w : World)
| Blocked (w : World).
Arguments Ret {A} a w.
Arguments Blocked {A} w.

Definition M (A : Type) : Type := World -> Outcome A.

Definition ret {A} (a : A) : M A := fun w => Ret a w.

Definition bind {A B} (m : M A) (k : A -> M B) : M B :=
  fun w => match m w with
           | Ret a w' => k a w'
           | Blocked w' => Blocked w'
           end.

Notation "x <- m ;; k" := (bind m (fun x => k))
  (at level 100, m at next level, right associativity).
Notation "m ;;; k" := (bind m (fun _ => k))
  (at level 100, right associativity).

(** The world a goroutine leaves behind, returned or parked. *)
Definition final {A} (o : Outcome A) : World :=
  match o with Ret _ w => w | Blocked w => w end.

Definition returned {A} (o : Outcome A) : bool :=
  match o with Ret _ _ => true | Blocked _ => false end.

Definition get_job : M ResumableJob := fun w => Ret (w_job w) w.
Definition modify_job (f : ResumableJob -> ResumableJob) : M unit :=
  fun w => Ret tt (with_job (f (w_job w)) w).
Definition get_fs : M (gmap string (list byte)) := fun w => Ret (w_fs w) w.
Definition put_fs (fs : gmap string (list byte)) : M unit :=
  fun w => Ret tt (with_fs fs w).
Definition emit (e : Event) : M unit :=
  fun w => Ret tt (with_log (w_log w ++ [e]) w).

(** [os.Stat(path)]: the size, or an error when nothing is there *)
Definition os_Stat (path : string) : M (option Z) :=
  fs <- get_fs ;; ret (len64 <$> fs !! path).

Definition ctx_cancelled (j : ResumableJob) : bool :=
  match ctx j with Some b => b | None => false end.

Definition mkUpdate (j : ResumableJob) : ProgressUpdate :=
  {| pu_JobID := ID j; pu_Downloaded := Downloaded j; pu_FileSize := FileSize j;
     pu_Status := Status j |}.

(** [select { case ch <- u: default: }] *)
Definition send_nonblocking (u : ProgressUpdate) : M unit :=
  j <- get_job ;;
  match progressChan j with
  | None => ret tt
  | Some c =>
      if chan_full c then emit (EvDropped u)
      else modify_job (set_progressChan (Some (chan_push c u))) ;;; emit (EvSent u)
  end.

(** [ch <- u] *)
Definition send_blocking (u : ProgressUpdate) : M unit :=
  j <- get_job ;;
  match progressChan j with
  | None => ret tt
  | Some c =>
      if chan_full c then (fun w => Blocked w)
      else modify_job (set_progressChan (Some (chan_push c u))) ;;; emit (EvSent u)
  end.

Section Engine.

Variable md5hex : list byte -> string.
(** [json.MarshalIndent(job, "", "  ")] *)
Variable marshal : ResumableJob -> list byte.
Variable rd : ResumableDownloader.

(** [saveJobMetadata]; a failing [os.WriteFile] is only logged by the code
    and is not modelled. *)
Definition saveJobMetadata : M unit :=
  j <- get_job ;;
  fs <- get_fs ;;
  put_fs (<[MetaPath j := marshal j]> fs) ;;;
  emit (EvWriteMeta (MetaPath j)).

(** [PauseJob] for the job of this world, run by another goroutine *)
Definition PauseJob : M unit :=
  emit EvPauseJob ;;;
  modify_job (fun j => match ctx j with
                       | Some _ => set_ctx (Some true) j
                       | None => j
                       end) ;;;
  modify_job (set_Status "paused") ;;;
  saveJobMetadata.

(** [handleJobError] *)
Definition handleJobError (e : JobError) : M unit :=
  modify_job (fun j => set_LastError e (set_Status "failed" j)) ;;;
  saveJobMetadata ;;;
  j <- get_job ;;
  send_blocking {| pu_JobID := ID j; pu_Downloaded := 0; pu_FileSize := 0;
                   pu_Status := "failed" |}.

(** [calculateChecksum] *)
Definition calculateChecksum (fs : gmap string (list byte)) (path : string)
  : option string := md5hex <$> fs !! path.

(** [verifyFile]: [None] is Go's [nil] error. *)
Definition verifyFile (fs : gmap string (list byte)) (job : ResumableJob)
  : option JobError :=
  match fs !! TempPath job with
  | None => Some ErrStatTemp
  | Some content =>
      if bool_decide (FileSize job > 0) && negb (bool_decide (len64 content = FileSize job))
      then Some (ErrSizeMismatch (FileSize job) (len64 content))
      else if negb (bool_decide (Checksum job = "")) then
        match calculateChecksum fs (TempPath job) with
        | None => Some ErrChecksumRead
        | Some actualChecksum =>
            if negb (bool_decide (actualChecksum = Checksum job))
            then Some (ErrChecksumMismatch (Checksum job) actualChecksum)
            else None
        end
      else None
  end.

(** [fileExistsAndValid] *)
Definition fileExistsAndValid (fs : gmap string (list byte)) (job : ResumableJob) : bool :=
  match fs !! FilePath job with
  | None => false
  | Some content =>
      if bool_decide (FileSize job > 0) && negb (bool_decide (len64 content = FileSize job))
      then false else true
  end.

(** [os.Rename(src, dst)], [true] when it succeeded *)
Definition os_Rename (src dst : string) : M bool :=
  fun w =>
    match w_fs w !! src with
    | Some content =>
        if w_renameOk w
        then Ret true (with_log (w_log w ++ [EvRename src dst])
                         (with_fs (<[dst := content]> (delete src (w_fs w))) w))
        else Ret false w
    | None => Ret false w
    end.

(** [os.MkdirAll(filepath.Dir(path), 0755)], [true] when it succeeded *)
Definition os_MkdirAll_Dir (path : string) : M bool :=
  fun w => if w_mkdirOk w then Ret true (with_log (w_log w ++ [EvMkdirAll path]) w)
           else Ret false w.

(** [os.Remove(path)] *)
Definition os_Remove (path : string) : M unit :=
  fs <- get_fs ;; put_fs (delete path fs) ;;; emit (EvRemove path).

(** [completeJob] *)
Definition completeJob : M unit :=
  j <- get_job ;;
  fs <- get_fs ;;
  match verifyFile fs j with
  | Some e => handleJobError (ErrVerification e)
  | None =>
      ok <- os_MkdirAll_Dir (FilePath j) ;;
      if negb ok then handleJobError ErrCreateDirectory
      else
        ok <- os_Rename (TempPath j) (FilePath j) ;;
        if negb ok then handleJobError ErrMoveFile
        else
          modify_job (set_Status "completed") ;;;
          saveJobMetadata ;;;
          send_blocking {| pu_JobID := ID j; pu_Downloaded := 0; pu_FileSize := 0;
                           pu_Status := "completed" |} ;;;
          os_Remove (MetaPath j)
  end.

(** [getFileInfo]: [None] is Go's [nil] error.  [http.NewRequestWithContext]
    fails on a nil context and on a URL that does not parse. *)
Definition getFileInfo : M (option JobError) :=
  j <- get_job ;;
  urlOk <- (fun w => Ret (w_urlOk w) w) ;;
  if negb (bool_decide (is_Some (ctx j)) && urlOk) then ret (Some ErrCreateRequest)
  else
    emit (EvDo {| req_Method := "HEAD"; req_URL := URL j; req_Header := Headers j |}) ;;;
    head <- (fun w => Ret (w_head w) w) ;;
    match head with
    | HeadFails => ret (Some ErrHeadFailed)
    | HeadResponds status contentLength acceptRanges =>
        if negb (bool_decide (status = StatusOK)) then ret (Some (ErrHeadStatus status))
        else
          match contentLength with
          | Some size => modify_job (set_FileSize size)
          | None => ret tt
          end ;;;
          ret None
    end.

(** [progressWriter.Write] on a chunk the file accepts whole; [written] is
    [pw.written] before the call, the result is [pw.written] after it.
    Go's [%] is [Z.rem]. *)
Definition Write (written : Z) (p : list byte) : M Z :=
  j <- get_job ;;
  fs <- get_fs ;;
  put_fs (<[TempPath j := (default [] (fs !! TempPath j) ++ p)%list]> fs) ;;;
  if bool_decide (len64 p > 0) then
    let written := wrap64 (written + len64 p) in
    modify_job (fun j => set_Downloaded (wrap64 (Downloaded j + len64 p)) j) ;;;
    j <- get_job ;;
    send_nonblocking (mkUpdate j) ;;;
    (if bool_decide (Z.rem written (chunkSize rd) = 0) then saveJobMetadata else ret tt) ;;;
    ret written
  else ret written.

(** [io.Copy(pw, resp.Body)] over the chunks the body delivers *)
Fixpoint copyChunks (written : Z) (chunks : list (list byte)) : M Z :=
  match chunks with
  | [] => ret written
  | p :: rest => written' <- Write written p ;; copyChunks written' rest
  end.

(** The next scripted answer to a [GET]; an exhausted script is a transport
    failure. *)
Definition next_get : M GetOutcome :=
  fun w => match w_gets w with
           | [] => Ret (DoFails false) w
           | g :: rest => Ret g (with_gets rest w)
           end.

Definition next_wait : M bool :=
  fun w => match w_waits w with
           | [] => Ret false w
           | b :: rest => Ret b (with_waits rest w)
           end.

(** The resume offset [startByte] of [performDownload] *)
Definition startByteOf (fs : gmap string (list byte)) (job : ResumableJob) : Z :=
  match fs !! TempPath job with
  | Some content => len64 content
  | None => 0
  end.

(** The request [performDownload] builds *)
Definition buildRequest (job : ResumableJob) (startByte : Z) : Request :=
  let hdr := Headers job in
  let hdr := if bool_decide (startByte > 0)
             then <["Range" := "bytes=" +:+ fmt_d startByte +:+ "-"]> hdr
             else hdr in
  {| req_Method := "GET"; req_URL := URL job; req_Header := hdr |}.

(** [performDownload]: [None] is Go's [nil] error. *)
Definition performDownload : M (option JobError) :=
  j <- get_job ;;
  st <- os_Stat (TempPath j) ;;
  let startByte := default 0 st in
  match st with
  | Some n => modify_job (set_Downloaded n)
  | None => ret tt
  end ;;;
  urlOk <- (fun w => Ret (w_urlOk w) w) ;;
  if negb (bool_decide (is_Some (ctx j)) && urlOk) then ret (Some ErrCreateRequest)
  else
    emit (EvDo (buildRequest j startByte)) ;;;
    resp <- next_get ;;
    match resp with
    | DoFails paused =>
        (if paused then PauseJob else ret tt) ;;;
        ret (Some ErrGetFailed)
    | Responds status chunks ending =>
        let expectedStatus :=
          if bool_decide (startByte > 0) then StatusPartialContent else StatusOK in
        if negb (bool_decide (status = expectedStatus))
        then ret (Some (ErrUnexpectedStatus status))
        else
          openOk <- (fun w => Ret (w_openOk w) w) ;;
          if negb openOk then ret (Some ErrOpenTemp)
          else
            fs <- get_fs ;;
            put_fs (<[TempPath j := default [] (fs !! TempPath j)]> fs) ;;;
            copyChunks 0 chunks ;;;
            match ending with
            | CopyEOF => ret tt
            | CopyError => ret tt
            | CopyPaused => PauseJob
            end ;;;
            j <- get_job ;;
            let copyFailed := match ending with CopyEOF => false | _ => true end in
            if copyFailed && negb (ctx_cancelled j) then ret (Some ErrCopy)
            else ret None
    end.

(** The retry loop of [downloadJob], from [attempt] on; [n] counts the
    iterations left, [maxRetries - attempt + 1]. *)
Fixpoint retryLoop (n : nat) (attempt : Z) : M unit :=
  match n with
  | O => handleJobError (ErrAfterAttempts (maxRetries rd))
  | S n' =>
      (if bool_decide (attempt > 0) then modify_job (set_RetryCount attempt) else ret tt) ;;;
      err <- performDownload ;;
      match err with
      | None => completeJob
      | Some e =>
          j <- get_job ;;
          if ctx_cancelled j then
            modify_job (fun j => set_LastError ErrCancelled (set_Status "paused" j)) ;;;
            saveJobMetadata
          else
            modify_job (set_LastError e) ;;;
            if bool_decide (attempt < maxRetries rd) then
              paused <- next_wait ;;
              if paused then PauseJob
              else emit (EvSleep (attempt + 1)) ;;; retryLoop n' (attempt + 1)
            else retryLoop n' (attempt + 1)
      end
  end.

(** [downloadJob] *)
Definition downloadJob : M unit :=
  modify_job (set_Status "initializing") ;;;
  saveJobMetadata ;;;
  err <- getFileInfo ;;
  match err with
  | Some e => handleJobError (ErrFileInfo e)
  | None =>
      j <- get_job ;;
      fs <- get_fs ;;
      if fileExistsAndValid fs j then completeJob
      else
        modify_job (set_Status "downloading") ;;;
        saveJobMetadata ;;;
        retryLoop (Z.to_nat (maxRetries rd + 1)) 0
  end.

End Engine.

(** *** Observations on a run, and example data *)

(** The requests handed to [client.Do], and the moves made by [os.Rename],
    in the order of the log *)
Definition requests (log : list Event) : list Request :=
  omap (fun e => match e with EvDo r => Some r | _ => None end) log.

Definition renames (log : list Event) : list (string * string) :=
  omap (fun e => match e with EvRename s d => Some (s, d) | _ => None end) log.

(** Events that are neither a request nor a move *)
Definition is_bookkeeping (e : Event) : Prop :=
  match e with
  | EvDo _ | EvRename _ _ => False
  | _ => True
  end.

(** [m] only appends events, and every event it appends satisfies [P]. *)
Definition adds_only (P : Event -> Prop) {A} (m : M A) : Prop :=
  forall w, exists new, w_log (final (m w)) = w_log w ++ new /\ Forall P new.

(** [m] never parks. *)
Definition always_returns {A} (m : M A) : Prop :=
  forall w, exists a w', m w = Ret a w'.

(** Whether [http.NewRequestWithContext] succeeds for the job of [w] *)
Definition can_request (w : World) : bool :=
  bool_decide (is_Some (ctx (w_job w))) && w_urlOk w.

(** The status [performDownload] expects for a resume offset *)
Definition expectedStatus (startByte : Z) : Z :=
  if bool_decide (startByte > 0) then StatusPartialContent else StatusOK.

(** The value of the [Range] header for a resume offset *)
Definition rangeFrom (startByte : Z) : string := "bytes=" +:+ fmt_d startByte +:+ "-".

(** What [verifyFile] checks on the temporary file *)
Definition verified (md5hex : list byte -> string) (fs : gmap string (list byte))
    (job : ResumableJob) : Prop :=
  exists content,
    fs !! TempPath job = Some content /\
    (FileSize job > 0 -> len64 content = FileSize job) /\
    (Checksum job <> "" -> md5hex content = Checksum job).

(** Events that are no move *)
Definition is_no_move (e : Event) : Prop :=
  match e with
  | EvRename _ _ => False
  | _ => True
  end.

(** The file at the final path of the job of [w] passes the checks of
    [verifyFile]: it has the size [FileSize] when that is known, and the
    checksum [Checksum] when one was supplied. *)
Definition final_verified (md5hex : list byte -> string) (w : World) : Prop :=
  exists content,
    w_fs w !! FilePath (w_job w) = Some content /\
    (FileSize (w_job w) > 0 -> len64 content = FileSize (w_job w)) /\
    (Checksum (w_job w) <> "" -> md5hex content = Checksum (w_job w)).

(** [m] makes no move, or one: of the temporary file of the job to its
    final path, and what is at the final path when [m] ends passes the
    checks of [verifyFile]. *)
Definition moves_only_verified (md5hex : list byte -> string) {A} (m : M A) : Prop :=
  forall w, FilePath (w_job w) <> MetaPath (w_job w) ->
    exists new,
      w_log (final (m w)) = w_log w ++ new /\
      (renames new = [] \/
       renames new = [(TempPath (w_job w), FilePath (w_job w))] /\
       final_verified md5hex (final (m w))).

(** Whether [completeJob] gets as far as a successful [os.Rename] *)
Definition moves (md5hex : list byte -> string) (w : World) : bool :=
  bool_decide (verifyFile md5hex (w_fs w) (w_job w) = None) && w_mkdirOk w && w_renameOk w.

Definition zero_config : ResumableConfig :=
  {| cfg_MetaDir := ""; cfg_TempDir := ""; cfg_ChunkSize := 0; cfg_MaxRetries := 0;
     cfg_Timeout := 0; cfg_UserAgent := "" |}.

Definition default_rd : ResumableDownloader := NewResumableDownloader zero_config [].

Definition temp_k : string := "./temp/downloads/k.tmp".
Definition meta_k : string := "./temp/metadata/k.json".

(** A job as [StartDownload] creates it, with the given headers and sink *)
Definition new_job (headers : gmap string string) (pc : option Chan) : ResumableJob :=
  {| ID := "k"; URL := "http://host/a.mp4"; FilePath := "out/a.mp4";
     TempPath := temp_k; MetaPath := meta_k;
     FileSize := 0; Downloaded := 0; Status := "pending"; Headers := headers;
     Checksum := ""; RetryCount := 0; LastError := None; ctx := Some false;
     progressChan := pc |}.

Definition done_job : ResumableJob := set_Status "completed" (new_job ∅ None).

Definition world_of (job : ResumableJob) (fs : gmap string (list byte))
    (head : HeadOutcome) (gets : list GetOutcome) : World :=
  {| w_fs := fs; w_job := job; w_log := []; w_head := head; w_gets := gets;
     w_waits := []; w_urlOk := true; w_openOk := true; w_mkdirOk := true;
     w_renameOk := true |}.

Definition four_bytes : list byte := [x01; x02; x03; x04]%byte.

(** A sink whose one-slot buffer is taken *)
Definition busy_sink : Chan :=
  {| chan_cap := 1;
     chan_buf := [{| pu_JobID := "k"; pu_Downloaded := 1; pu_FileSize := 4;
                     pu_Status := "downloading" |}] |}.

(** *** The other operations on the registry *)

(** [GetJob] *)
Definition GetJob (rd : ResumableDownloader) (jobID : string) : option ResumableJob :=
  activeJobs rd !! jobID.

(** [job.cancel()] when a context was created *)
Definition cancel (j : ResumableJob) : ResumableJob :=
  match ctx j with
  | Some _ => set_ctx (Some true) j
  | None => j
  end.

(** [PauseJob] as a caller runs it: on the registry and the files.  [None]
    is the error for an unknown id. *)
Definition PauseJobIn (marshal : ResumableJob -> list byte) (rd : ResumableDownloader)
    (fs : gmap string (list byte)) (jobID : string)
  : option (ResumableDownloader * gmap string (list byte)) :=
  match activeJobs rd !! jobID with
  | None => None
  | Some job =>
      let job' := set_Status "paused" (cancel job) in
      Some (with_activeJobs (<[jobID := job']> (activeJobs rd)) rd,
            <[MetaPath job' := marshal job']> fs)
  end.

(** [DeleteJob]: [None] is the error for an unknown id; otherwise the
    registry and the files afterwards, and the deleted job with its context
    cancelled, as a goroutine still running for it sees it. *)
Definition DeleteJob (rd : ResumableDownloader) (fs : gmap string (list byte))
    (jobID : string)
  : option (ResumableDownloader * gmap string (list byte) * ResumableJob) :=
  match activeJobs rd !! jobID with
  | None => None
  | Some job =>
      Some (with_activeJobs (delete jobID (activeJobs rd)) rd,
            delete (MetaPath job) (delete (TempPath job) fs),
            cancel job)
  end.

(** Every job is stored under its own id. *)
Definition registry_ok (rd : ResumableDownloader) : Prop :=
  forall k j, activeJobs rd !! k = Some j -> ID j = k.

(** A job as [loadExistingJobs] stores it when it decoded it from [file] *)
Definition loaded (file : string) (job : ResumableJob) : ResumableJob :=
  {| ID := ID job; URL := URL job; FilePath := FilePath job;
     TempPath := TempPath job; MetaPath := file;
     FileSize := FileSize job; Downloaded := Downloaded job;
     Status := Status job; Headers := Headers job;
     Checksum := Checksum job; RetryCount := RetryCount job;
     LastError := LastError job; ctx := None; progressChan := None |}.

(** The ids of the jobs that a list of metadata files decodes to *)
Definition decoded_ids (files : list (string * option ResumableJob)) : list string :=
  omap (fun fj => ID <$> fj.2) files.

(** *** Observations on the copy *)

(** [j'] is [j] but for the byte count and what is queued in the sink; a
    nil channel stays nil. *)
Definition job_frame (j j' : ResumableJob) : Prop :=
  exists d pc, j' = set_progressChan pc (set_Downloaded d j) /\
               (progressChan j = None -> pc = None).

(** The scripted environment of [w'] is that of [w]. *)
Definition same_env (w w' : World) : Prop :=
  w_head w' = w_head w /\ w_gets w' = w_gets w /\ w_waits w' = w_waits w /\
  w_urlOk w' = w_urlOk w /\ w_openOk w' = w_openOk w /\
  w_mkdirOk w' = w_mkdirOk w /\ w_renameOk w' = w_renameOk w.

(** The files of [w'] are those of [w] but for the temporary file and the
    metadata file of the job. *)
Definition fs_frame (w w' : World) : Prop :=
  forall path, path <> TempPath (w_job w) -> path <> MetaPath (w_job w) ->
               w_fs w' !! path = w_fs w !! path.

(** [job.Downloaded] after the writes of [chunks], from the count [d] *)
Definition advance (d : Z) (chunks : list (list byte)) : Z :=
  foldl (fun d p => if bool_decide (len64 p > 0) then wrap64 (d + len64 p) else d)
        d chunks.

(** The sink takes one more update without making the sender wait. *)
Definition sink_ready (j : ResumableJob) : Prop :=
  match progressChan j with
  | Some c => chan_full c = false
  | None => True
  end.

(** The three paths of the job are different files. *)
Definition distinct_paths (j : ResumableJob) : Prop :=
  TempPath j <> MetaPath j /\ TempPath j <> FilePath j /\ FilePath j <> MetaPath j.

(** Events that are no request *)
Definition is_no_request (e : Event) : Prop :=
  match e with
  | EvDo _ => False
  | _ => True
  end.

(** [m] hands at most [k] requests to the client. *)
Definition requests_at_most (k : nat) {A} (m : M A) : Prop :=
  forall w, (length (requests (w_log (final (m w)))) <= length (requests (w_log w)) + k)%nat.

(** The probe of the job of [w] will return an error. *)
Definition probe_fails (w : World) : Prop :=
  can_request w = false \/
  w_head w = HeadFails \/
  exists status contentLength acceptRanges,
    w_head w = HeadResponds status contentLength acceptRanges /\ status <> StatusOK.

(** The request of the probe *)
Definition headRequest (j : ResumableJob) : Request :=
  {| req_Method := "HEAD"; req_URL := URL j; req_Header := Headers j |}.

(** *** The registry over time *)

(** The job of [w'] is the job of [w] in everything that identifies it: id,
    address, paths, headers and checksum. *)
Definition same_identity (w w' : World) : Prop :=
  ID (w_job w') = ID (w_job w) /\ URL (w_job w') = URL (w_job w) /\
  FilePath (w_job w') = FilePath (w_job w) /\ TempPath (w_job w') = TempPath (w_job w) /\
  MetaPath (w_job w') = MetaPath (w_job w) /\ Headers (w_job w') = Headers (w_job w) /\
  Checksum (w_job w') = Checksum (w_job w).

(** [m] leaves the identity of the job alone. *)
Definition keeps_identity {A} (m : M A) : Prop :=
  forall w, same_identity w (final (m w)).

(** The registries a program can get to: the one [NewResumableDownloader]
    loads, and the ones the exported operations and the goroutines make of
    it.  The registry holds pointers, so what a [downloadJob] goroutine
    writes to its job shows in the registry: [reach_run] puts the job at the
    end of a run back under its key. *)
Inductive reachable (md5hex : list byte -> string) (marshal : ResumableJob -> list byte)
  : ResumableDownloader -> Prop :=
| reach_new config files :
    reachable md5hex marshal (NewResumableDownloader config files)
| reach_start rd url filePath headers pc :
    reachable md5hex marshal rd ->
    reachable md5hex marshal (StartDownload md5hex rd url filePath headers pc).1.1
| reach_resume rd jobID pc r :
    reachable md5hex marshal rd ->
    ResumeDownload rd jobID pc = Some r ->
    reachable md5hex marshal r.1.1
| reach_pause rd fs jobID rd' fs' :
    reachable md5hex marshal rd ->
    PauseJobIn marshal rd fs jobID = Some (rd', fs') ->
    reachable md5hex marshal rd'
| reach_delete rd fs jobID rd' fs' job :
    reachable md5hex marshal rd ->
    DeleteJob rd fs jobID = Some (rd', fs', job) ->
    reachable md5hex marshal rd'
| reach_run rd jobID w :
    reachable md5hex marshal rd ->
    activeJobs rd !! jobID = Some (w_job w) ->
    reachable md5hex marshal
      (with_activeJobs
         (<[jobID := w_job (final (downloadJob md5hex marshal rd w))]> (activeJobs rd)) rd).

End Resume.

(** ** The batch coordinator ([BatchManager] in [internal/auth/middleware.go]) *)

Module Batch.

Inductive BatchJobType :=
| BatchJobTypeUserProfile
| BatchJobTypePlaylist
| BatchJobTypeURLList
| BatchJobTypeOther (name : string).

Inductive JobStatus :=
| JobStatusPending
| JobStatusRunning
| JobStatusCompleted
| JobStatusFailed
| JobStatusCancelled
| JobStatusPartial.

Record BatchProgress := {
  Total : Z;
  Completed : Z;
  Failed : Z;
  Skipped : Z;
  InProgress : Z
}.

Record VideoInfo := {
  v_ID : string;
  v_URL : string;
  v_DownloadURL : string
}.

Record BatchResult := {
  res_URL : string;
  res_Status : string
}.

Inductive BatchError :=
| ErrUnsupportedType
| ErrNoVideosInProfiles
| ErrPlaylistNotImplemented
| ErrNoValidVideos.

Record BatchJob := {
  Type_ : BatchJobType;
  URLs : list string;
  SkipExisting : bool;
  Status : JobStatus;
  Progress : BatchProgress;
  Results : list BatchResult;
  Error : option BatchError
}.

Definition with_Status (s : JobStatus) (job : BatchJob) : BatchJob :=
  {| Type_ := Type_ job; URLs := URLs job; SkipExisting := SkipExisting job;
     Status := s; Progress := Progress job; Results := Results job;
     Error := Error job |}.

Definition with_Error (e : BatchError) (job : BatchJob) : BatchJob :=
  {| Type_ := Type_ job; URLs := URLs job; SkipExisting := SkipExisting job;
     Status := Status job; Progress := Progress job; Results := Results job;
     Error := Some e |}.

Definition with_Progress (p : BatchProgress) (job : BatchJob) : BatchJob :=
  {| Type_ := Type_ job; URLs := URLs job; SkipExisting := SkipExisting job;
     Status := Status job; Progress := p; Results := Results job;
     Error := Error job |}.

Definition add_Result (r : BatchResult) (job : BatchJob) : BatchJob :=
  {| Type_ := Type_ job; URLs := URLs job; SkipExisting := SkipExisting job;
     Status := Status job; Progress := Progress job; Results := Results job ++ [r];
     Error := Error job |}.

Definition incr (n : Z) : Z := wrap64 (n + 1).
Definition decr (n : Z) : Z := wrap64 (n - 1).

Definition Failed_incr (job : BatchJob) : BatchJob :=
  let p := Progress job in
  with_Progress {| Total := Total p; Completed := Completed p; Failed := incr (Failed p);
                   Skipped := Skipped p; InProgress := InProgress p |} job.

Definition Completed_incr (job : BatchJob) : BatchJob :=
  let p := Progress job in
  with_Progress {| Total := Total p; Completed := incr (Completed p); Failed := Failed p;
                   Skipped := Skipped p; InProgress := InProgress p |} job.

Definition Skipped_incr (job : BatchJob) : BatchJob :=
  let p := Progress job in
  with_Progress {| Total := Total p; Completed := Completed p; Failed := Failed p;
                   Skipped := incr (Skipped p); InProgress := InProgress p |} job.

Definition InProgress_incr (job : BatchJob) : BatchJob :=
  let p := Progress job in
  with_Progress {| Total := Total p; Completed := Completed p; Failed := Failed p;
                   Skipped := Skipped p; InProgress := incr (InProgress p) |} job.

Definition InProgress_decr (job : BatchJob) : BatchJob :=
  let p := Progress job in
  with_Progress {| Total := Total p; Completed := Completed p; Failed := Failed p;
                   Skipped := Skipped p; InProgress := decr (InProgress p) |} job.

Definition set_Total (n : Z) (job : BatchJob) : BatchJob :=
  let p := Progress job in
  with_Progress {| Total := n; Completed := Completed p; Failed := Failed p;
                   Skipped := Skipped p; InProgress := InProgress p |} job.

(** [updateJobStatus] *)
Definition updateJobStatus (job : BatchJob) : BatchJob :=
  let p := Progress job in
  if bool_decide (Failed p > 0) && bool_decide (Completed p > 0)
  then with_Status JobStatusPartial job
  else if bool_decide (Failed p = Total p)
  then with_Status JobStatusFailed job
  else if bool_decide (wrap64 (Completed p + Skipped p) = Total p)
  then with_Status JobStatusCompleted job
  else job.

(** [StartBatchDownload], the job it creates *)
Definition StartBatchDownload (jobType : BatchJobType) (urls : list string)
    (skipExisting : bool) : BatchJob :=
  {| Type_ := jobType; URLs := urls; SkipExisting := skipExisting;
     Status := JobStatusPending;
     Progress := {| Total := len64 urls; Completed := 0; Failed := 0; Skipped := 0;
                    InProgress := 0 |};
     Results := []; Error := None |}.

(** [fileExists]: the body in the source is [return false]. *)
Definition fileExists (path : string) : bool := false.

(** What happens to one item once its task holds a gate slot: the manager's
    context is already cancelled, or [bm.downloader.Download] returns an
    error, or it returns none. *)
Inductive TransferOutcome := CtxCancelled | DownloadFails | DownloadOk.

Section Coordinator.

(** The collaborators: whether [getExtractorForURL] finds an extractor, what
    [ExtractVideoInfo] and [ExtractBatch] return, and how each item's
    transfer goes. *)
Variable hasExtractor : string -> bool.
Variable ExtractVideoInfo : string -> option VideoInfo.
Variable ExtractBatch : string -> option (list VideoInfo).
Variable transfer : VideoInfo -> TransferOutcome.
Variable generateFilePath : VideoInfo -> string.

(** The body of one item task of [downloadVideos], between acquiring and
    releasing its slot *)
Definition itemTask (v : VideoInfo) (job : BatchJob) : BatchJob :=
  match transfer v with
  | CtxCancelled => Skipped_incr job
  | outcome =>
      if SkipExisting job && fileExists (generateFilePath v)
      then add_Result {| res_URL := v_URL v; res_Status := "skipped" |} (Skipped_incr job)
      else
        let job :=
          match outcome with
          | DownloadOk =>
              add_Result {| res_URL := v_URL v; res_Status := "completed" |}
                (Completed_incr job)
          | _ =>
              add_Result {| res_URL := v_URL v; res_Status := "failed" |}
                (Failed_incr job)
          end in
        InProgress_decr job
  end.

(** [downloadVideos] in the run in which no two goroutines touch the job
    record at the same time: the spawning loop has counted every task in
    [InProgress], and the item tasks then run to their end one after the
    other in the order [schedule].  The runs in which the goroutines
    interleave are those of [interleave] below. *)
Definition downloadVideos (schedule : list VideoInfo) (job : BatchJob) : BatchJob :=
  let job := foldl (fun j _ => InProgress_incr j) job schedule in
  foldl (fun j v => itemTask v j) job schedule.

(** The resolving loop of [processURLList] *)
Fixpoint resolveURLs (urls : list string) (job : BatchJob) : BatchJob * list VideoInfo :=
  match urls with
  | [] => (job, [])
  | url :: rest =>
      if negb (hasExtractor url) then
        resolveURLs rest
          (Failed_incr (add_Result {| res_URL := url; res_Status := "failed" |} job))
      else
        match ExtractVideoInfo url with
        | None =>
            resolveURLs rest
              (Failed_incr (add_Result {| res_URL := url; res_Status := "failed" |} job))
        | Some videoInfo =>
            let '(job', vs) := resolveURLs rest job in (job', videoInfo :: vs)
        end
  end.

(** [processURLList]; [sched] orders the item tasks by completion. *)
Definition processURLList (sched : list VideoInfo -> list VideoInfo) (job : BatchJob)
  : BatchJob :=
  let '(job, allVideos) := resolveURLs (URLs job) job in
  match allVideos with
  | [] => with_Error ErrNoValidVideos (with_Status JobStatusFailed job)
  | _ => downloadVideos (sched allVideos) job
  end.

(** [processUserProfile] *)
Definition processUserProfile (sched : list VideoInfo -> list VideoInfo) (job : BatchJob)
  : BatchJob :=
  let allVideos :=
    concat (map (fun url => if hasExtractor url
                            then default [] (ExtractBatch url) else []) (URLs job)) in
  match allVideos with
  | [] => with_Error ErrNoVideosInProfiles (with_Status JobStatusFailed job)
  | _ => downloadVideos (sched allVideos) (set_Total (len64 allVideos) job)
  end.

(** [processPlaylist] *)
Definition processPlaylist (job : BatchJob) : BatchJob :=
  with_Error ErrPlaylistNotImplemented (with_Status JobStatusFailed job).

(** [processBatchJob]; the deferred function runs [updateJobStatus] once
    more on every path. *)
Definition processBatchJob (sched : list VideoInfo -> list VideoInfo) (job : BatchJob)
  : BatchJob :=
  let job := with_Status JobStatusRunning job in
  let deferred := updateJobStatus in
  match Type_ job with
  | BatchJobTypeUserProfile => deferred (updateJobStatus (processUserProfile sched job))
  | BatchJobTypePlaylist => deferred (updateJobStatus (processPlaylist job))
  | BatchJobTypeURLList => deferred (updateJobStatus (processURLList sched job))
  | BatchJobTypeOther _ => deferred (with_Error ErrUnsupportedType (with_Status JobStatusFailed job))
  end.

End Coordinator.

(** *** The counting gate of [downloadVideos]

    [bm.semaphore] is a buffered channel of capacity [maxConcurrent]; every
    item task sends to it before its work and receives from it when it
    returns.  Between the two the task calls [bm.downloader.Download], that
    is [Manager.Download]: it sends the request to the manager's queue,
    starts a [processDownload] goroutine and waits for its result.  That
    goroutine calls [DownloadManager.Download] of package [utils], which
    starts the byte transfer [downloadFile] in a goroutine of its own and
    returns at once.  The tasks, the transfers and the manager's workers
    interleave freely: one step is one of them moving on. *)

Inductive TaskState :=
| Waiting        (** spawned, at [bm.semaphore <- struct{}{}] *)
| Holding        (** holds a slot, before the call of [Download] *)
| AtQueue        (** in [Download], at [m.queue <- req] *)
| Processing     (** in [Download], at [<-m.processDownload(req)] *)
| Launched       (** the same, after [processDownload] started the transfer *)
| Recording      (** [Download] returned, the result is being recorded *)
| Finished.      (** slot given back, [workers.Done()] *)

Record Pool := {
  semaphore : nat;           (** [len(bm.semaphore)] *)
  tasks : list TaskState;
  queue : nat;               (** [len(m.queue)] of the manager *)
  (** the [downloadFile] goroutines that are running *)
  transfers : nat;
  (** the [processDownload] goroutines the manager's workers started for
      requests they took from the queue *)
  background : nat
}.

Inductive Action :=
| Spawn_                 (** [go func(v) {...}(video)] *)
| Acquire (i : nat)      (** the send on the semaphore goes through *)
| Skip (i : nat)         (** cancelled or skipped: return, releasing the slot *)
| Unsupported (i : nat)  (** [detectPlatform] finds nothing: [Download] returns *)
| Start (i : nat)        (** enter [Download], up to the send on the queue *)
| Enqueue (i : nat)      (** [m.queue <- req] goes through *)
| Launch (i : nat)       (** [processDownload] calls [m.downloader.Download],
                             which starts [downloadFile] and returns *)
| Return_ (i : nat)      (** the result arrives: [Download] returns *)
| Release (i : nat)      (** return, releasing the slot *)
| TransferEnds           (** a [downloadFile] goroutine comes to its end *)
| WorkerTake             (** a worker receives from [m.queue] and calls
                             [processDownload] *)
| BackgroundLaunch       (** such a [processDownload] starts a transfer *)
| BackgroundEnds.        (** such a [processDownload] ends without one *)

(** The capacity of the manager's queue, [make(chan *DownloadRequest, 100)] *)
Definition queueCap : nat := 100.

Definition set_task (i : nat) (t : TaskState) (p : Pool) (sem : nat) : Pool :=
  {| semaphore := sem; tasks := <[i := t]> (tasks p); queue := queue p;
     transfers := transfers p; background := background p |}.

(** One step of the pool with gate capacity [maxConcurrent]; [None] when
    the action is not enabled (a send on a full channel blocks).  The result
    of a [processDownload] may arrive before a transfer was started (no
    extractor, a failed extraction, a video already downloaded) or after.
    The number of workers is left open: a worker may take a request whenever
    the queue holds one, so the runs of the pool include those of every
    manager. *)
Definition exec (maxConcurrent : nat) (a : Action) (p : Pool) : option Pool :=
  match a with
  | Spawn_ =>
      Some {| semaphore := semaphore p; tasks := tasks p ++ [Waiting]; queue := queue p;
              transfers := transfers p; background := background p |}
  | Acquire i =>
      match tasks p !! i with
      | Some Waiting =>
          if (semaphore p <? maxConcurrent)%nat
          then Some (set_task i Holding p (S (semaphore p)))
          else None
      | _ => None
      end
  | Skip i =>
      match tasks p !! i with
      | Some Holding => Some (set_task i Finished p (pred (semaphore p)))
      | _ => None
      end
  | Unsupported i =>
      match tasks p !! i with
      | Some Holding => Some (set_task i Recording p (semaphore p))
      | _ => None
      end
  | Start i =>
      match tasks p !! i with
      | Some Holding => Some (set_task i AtQueue p (semaphore p))
      | _ => None
      end
  | Enqueue i =>
      match tasks p !! i with
      | Some AtQueue =>
          if (queue p <? queueCap)%nat
          then Some {| semaphore := semaphore p; tasks := <[i := Processing]> (tasks p);
                       queue := S (queue p); transfers := transfers p;
                       background := background p |}
          else None
      | _ => None
      end
  | Launch i =>
      match tasks p !! i with
      | Some Processing =>
          Some {| semaphore := semaphore p; tasks := <[i := Launched]> (tasks p);
                  queue := queue p; transfers := S (transfers p);
                  background := background p |}
      | _ => None
      end
  | Return_ i =>
      match tasks p !! i with
      | Some Processing | Some Launched => Some (set_task i Recording p (semaphore p))
      | _ => None
      end
  | Release i =>
      match tasks p !! i with
      | Some Recording => Some (set_task i Finished p (pred (semaphore p)))
      | _ => None
      end
  | TransferEnds =>
      if (0 <? transfers p)%nat
      then Some {| semaphore := semaphore p; tasks := tasks p; queue := queue p;
                   transfers := pred (transfers p); background := background p |}
      else None
  | WorkerTake =>
      if (0 <? queue p)%nat
      then Some {| semaphore := semaphore p; tasks := tasks p; queue := pred (queue p);
                   transfers := transfers p; background := S (background p) |}
      else None
  | BackgroundLaunch =>
      if (0 <? background p)%nat
      then Some {| semaphore := semaphore p; tasks := tasks p; queue := queue p;
                   transfers := S (transfers p); background := pred (background p) |}
      else None
  | BackgroundEnds =>
      if (0 <? background p)%nat
      then Some {| semaphore := semaphore p; tasks := tasks p; queue := queue p;
                   transfers := transfers p; background := pred (background p) |}
      else None
  end.

Fixpoint run (maxConcurrent : nat) (acts : list Action) (p : Pool) : option Pool :=
  match acts with
  | [] => Some p
  | a :: rest =>
      match exec maxConcurrent a p with
      | Some p' => run maxConcurrent rest p'
      | None => None
      end
  end.

(** [NewBatchManager]: an empty semaphore, no task yet, on a manager with
    nothing going on *)
Definition NewBatchManager : Pool :=
  {| semaphore := 0; tasks := []; queue := 0; transfers := 0; background := 0 |}.

(** The task is inside the call of [bm.downloader.Download]. *)
Definition in_call (t : TaskState) : bool :=
  match t with AtQueue | Processing | Launched => true | _ => false end.

Definition holds_slot (t : TaskState) : bool :=
  match t with
  | Holding | AtQueue | Processing | Launched | Recording => true
  | _ => false
  end.

Definition calling (p : Pool) : nat := count_if in_call (tasks p).
Definition holding (p : Pool) : nat := count_if holds_slot (tasks p).

(** The tokens in the semaphore are the slots held, and never more than the
    capacity. *)
Definition gate_invariant (maxConcurrent : nat) (p : Pool) : Prop :=
  semaphore p = holding p /\ (semaphore p <= maxConcurrent)%nat.

(** Example collaborators: no profile yields videos; tasks complete in
    spawning order. *)
Definition example_ExtractBatch (url : string) : option (list VideoInfo) := None.
Definition example_sched (videos : list VideoInfo) : list VideoInfo := videos.

(** *** Observations on the counters *)

Definition is_ok (transfer : VideoInfo -> TransferOutcome) (v : VideoInfo) : bool :=
  match transfer v with DownloadOk => true | _ => false end.

Definition is_failed (transfer : VideoInfo -> TransferOutcome) (v : VideoInfo) : bool :=
  match transfer v with DownloadFails => true | _ => false end.

Definition is_cancelled (transfer : VideoInfo -> TransferOutcome) (v : VideoInfo) : bool :=
  match transfer v with CtxCancelled => true | _ => false end.

(** The counters are not negative and have room for [n] more items. *)
Definition counters_fit (n : Z) (p : BatchProgress) : Prop :=
  0 <= Completed p /\ 0 <= Failed p /\ 0 <= Skipped p /\ 0 <= InProgress p /\
  Completed p + n < 2 ^ 63 /\ Failed p + n < 2 ^ 63 /\ Skipped p + n < 2 ^ 63 /\
  InProgress p + n < 2 ^ 63.

(** *** The shared record under interleaving

    The item tasks of [downloadVideos] are goroutines that update
    [job.Progress] and [job.Results] with plain statements and no lock, and
    the spawning loop updates [job.Progress.InProgress] beside them.  Here
    every read and every write of the shared record is a step of its own:
    [x++] reads [x] and then writes the value read plus one, and
    [job.Results = append(job.Results, r)] reads the slice and then writes
    the slice read with [r] appended.  A run is the sequence of the
    goroutines that take the steps; the steps are taken one at a time and
    a read sees the last write.  (The item tasks at a gate of capacity one
    are ordered so by the channel: the receive that gives a slot back
    happens before the next send on the full channel completes.) *)

Inductive Counter := CCompleted | CFailed | CSkipped | CInProgress.

Definition get_counter (c : Counter) (job : BatchJob) : Z :=
  match c with
  | CCompleted => Completed (Progress job)
  | CFailed => Failed (Progress job)
  | CSkipped => Skipped (Progress job)
  | CInProgress => InProgress (Progress job)
  end.

Definition set_counter (c : Counter) (n : Z) (job : BatchJob) : BatchJob :=
  let p := Progress job in
  with_Progress
    match c with
    | CCompleted => {| Total := Total p; Completed := n; Failed := Failed p;
                       Skipped := Skipped p; InProgress := InProgress p |}
    | CFailed => {| Total := Total p; Completed := Completed p; Failed := n;
                    Skipped := Skipped p; InProgress := InProgress p |}
    | CSkipped => {| Total := Total p; Completed := Completed p; Failed := Failed p;
                     Skipped := n; InProgress := InProgress p |}
    | CInProgress => {| Total := Total p; Completed := Completed p; Failed := Failed p;
                        Skipped := Skipped p; InProgress := n |}
    end job.

Definition set_Results (rs : list BatchResult) (job : BatchJob) : BatchJob :=
  {| Type_ := Type_ job; URLs := URLs job; SkipExisting := SkipExisting job;
     Status := Status job; Progress := Progress job; Results := rs;
     Error := Error job |}.

(** The steps of the goroutines that other goroutines can tell apart *)
Inductive Instr :=
| Go (v : VideoInfo)                  (** [go func(v) {...}(video)] *)
| Acquire_                            (** [bm.semaphore <- struct{}{}] *)
| Release_                            (** the deferred [<-bm.semaphore] *)
| Call                                (** [bm.downloader.Download(...)] *)
| LoadCounter (c : Counter)           (** the read of [x++] or [x--] *)
| StoreCounter (c : Counter) (d : Z)  (** its write, of the value read plus [d] *)
| LoadResults                         (** the read of [append(job.Results, r)] *)
| StoreResults (r : BatchResult).     (** the write of its result *)

(** A goroutine: the steps it has still to take, and what it last read *)
Record Thread := {
  code : list Instr;
  reg : Z;
  regResults : list BatchResult
}.

Record Machine := {
  m_sem : nat;                (** [len(bm.semaphore)] *)
  m_job : BatchJob;
  m_threads : list Thread
}.

Section Interleaving.

Variable transfer : VideoInfo -> TransferOutcome.
Variable generateFilePath : VideoInfo -> string.
(** [job.Config.SkipExisting] *)
Variable skipExisting : bool.

(** The item task for [v]; compare [itemTask]. *)
Definition itemProgram (v : VideoInfo) : list Instr :=
  Acquire_ ::
  match transfer v with
  | CtxCancelled => [LoadCounter CSkipped; StoreCounter CSkipped 1; Release_]
  | outcome =>
      if skipExisting && fileExists (generateFilePath v)
      then [LoadCounter CSkipped; StoreCounter CSkipped 1;
            LoadResults; StoreResults {| res_URL := v_URL v; res_Status := "skipped" |};
            Release_]
      else
        Call ::
        match outcome with
        | DownloadOk =>
            [LoadCounter CCompleted; StoreCounter CCompleted 1;
             LoadResults;
             StoreResults {| res_URL := v_URL v; res_Status := "completed" |}]
        | _ =>
            [LoadCounter CFailed; StoreCounter CFailed 1;
             LoadResults;
             StoreResults {| res_URL := v_URL v; res_Status := "failed" |}]
        end ++
        [LoadCounter CInProgress; StoreCounter CInProgress (-1); Release_]
  end.

(** The spawning loop of [downloadVideos] *)
Definition spawnerProgram (videos : list VideoInfo) : list Instr :=
  flat_map (fun v => [Go v; LoadCounter CInProgress; StoreCounter CInProgress 1]) videos.

(** Goroutine [i] takes its next step; [None] when it has none or cannot
    take it (a send on the full semaphore). *)
Definition stepThread (maxConcurrent : nat) (i : nat) (s : Machine) : option Machine :=
  match m_threads s !! i with
  | None => None
  | Some t =>
      match code t with
      | [] => None
      | ins :: rest =>
          let moved := {| code := rest; reg := reg t; regResults := regResults t |} in
          match ins with
          | Go v =>
              Some {| m_sem := m_sem s; m_job := m_job s;
                      m_threads := <[i := moved]> (m_threads s)
                                   ++ [{| code := itemProgram v; reg := 0;
                                          regResults := [] |}] |}
          | Acquire_ =>
              if (m_sem s <? maxConcurrent)%nat
              then Some {| m_sem := S (m_sem s); m_job := m_job s;
                           m_threads := <[i := moved]> (m_threads s) |}
              else None
          | Release_ =>
              Some {| m_sem := pred (m_sem s); m_job := m_job s;
                      m_threads := <[i := moved]> (m_threads s) |}
          | Call =>
              Some {| m_sem := m_sem s; m_job := m_job s;
                      m_threads := <[i := moved]> (m_threads s) |}
          | LoadCounter c =>
              Some {| m_sem := m_sem s; m_job := m_job s;
                      m_threads :=
                        <[i := {| code := rest; reg := get_counter c (m_job s);
                                  regResults := regResults t |}]> (m_threads s) |}
          | StoreCounter c d =>
              Some {| m_sem := m_sem s;
                      m_job := set_counter c (wrap64 (reg t + d)) (m_job s);
                      m_threads := <[i := moved]> (m_threads s) |}
          | LoadResults =>
              Some {| m_sem := m_sem s; m_job := m_job s;
                      m_threads :=
                        <[i := {| code := rest; reg := reg t;
                                  regResults := Results (m_job s) |}]> (m_threads s) |}
          | StoreResults r =>
              Some {| m_sem := m_sem s;
                      m_job := set_Results (regResults t ++ [r]) (m_job s);
                      m_threads := <[i := moved]> (m_threads s) |}
          end
      end
  end.

Fixpoint interleave (maxConcurrent : nat) (order : list nat) (s : Machine)
  : option Machine :=
  match order with
  | [] => Some s
  | i :: rest =>
      match stepThread maxConcurrent i s with
      | Some s' => interleave maxConcurrent rest s'
      | None => None
      end
  end.

End Interleaving.

(** [downloadVideos] is entered: goroutine 0 is the spawning loop. *)
Definition enter (job : BatchJob) (videos : list VideoInfo) : Machine :=
  {| m_sem := 0; m_job := job;
     m_threads := [{| code := spawnerProgram videos; reg := 0; regResults := [] |}] |}.

(** Every goroutine has come to its end. *)
Definition all_done (s : Machine) : Prop :=
  Forall (fun t => code t = []) (m_threads s).

(** *** What the goroutines have still to do *)

(** The counters that only item tasks write, and only while they hold a
    slot *)
Definition gated (c : Counter) : bool :=
  match c with CInProgress => false | _ => true end.

Definition Counter_eqb (c c' : Counter) : bool :=
  match c, c' with
  | CCompleted, CCompleted | CFailed, CFailed | CSkipped, CSkipped
  | CInProgress, CInProgress => true
  | _, _ => false
  end.

(** The weights: a slot taken and given back, a write of the counter [c],
    an append to the results *)
Definition w_held (ins : Instr) : Z :=
  match ins with Release_ => 1 | Acquire_ => -1 | _ => 0 end.

Definition w_counter (c : Counter) (ins : Instr) : Z :=
  match ins with
  | StoreCounter c' _ => if Counter_eqb c c' then 1 else 0
  | _ => 0
  end.

Definition w_results (ins : Instr) : Z :=
  match ins with StoreResults _ => 1 | _ => 0 end.

(** The code of an item task that holds a slot and is not between a read
    and its write *)
Inductive inside : list Instr -> Prop :=
| inside_release : inside [Release_]
| inside_call rest : inside rest -> inside (Call :: rest)
| inside_counter c d rest :
    (gated c = true -> d = 1) -> inside rest ->
    inside (LoadCounter c :: StoreCounter c d :: rest)
| inside_results r rest :
    inside rest -> inside (LoadResults :: StoreResults r :: rest).

(** The steps of the spawning loop *)
Definition spawner_instr (ins : Instr) : Prop :=
  match ins with
  | Go _ | LoadCounter CInProgress | StoreCounter CInProgress _ => True
  | _ => False
  end.

(** A goroutine that holds a slot: what it last read of a gated counter or
    of the results is still what the record holds. *)
Definition holds_ok (job : BatchJob) (t : Thread) : Prop :=
  inside (code t) \/
  (exists c d rest,
     code t = StoreCounter c d :: rest /\ inside rest /\
     (gated c = true -> d = 1 /\ reg t = get_counter c job)) \/
  (exists r rest,
     code t = StoreResults r :: rest /\ inside rest /\ regResults t = Results job).

(** A goroutine is the spawning loop or a task that has come to its end,
    a task at the gate, or a task that holds a slot. *)
Definition thread_ok (job : BatchJob) (t : Thread) : Prop :=
  Forall spawner_instr (code t) \/
  (exists body, code t = Acquire_ :: body /\ inside body) \/
  holds_ok job t.

Section Pending.

Variable transfer : VideoInfo -> TransferOutcome.
Variable generateFilePath : VideoInfo -> string.
Variable skipExisting : bool.

(** What a goroutine has still to do, counted with the weight [w] of each
    step; a [Go] weighs what the task it starts will do. *)
Definition weigh (w : Instr -> Z) (code : list Instr) : Z :=
  foldr (fun ins n => w ins + n) 0 code.

Definition pending (w : Instr -> Z) (code : list Instr) : Z :=
  weigh (fun ins => match ins with Go v => weigh w (itemProgram transfer generateFilePath skipExisting v) | _ => w ins end) code.

Fixpoint total (f : Thread -> Z) (l : list Thread) : Z :=
  match l with
  | [] => 0
  | t :: rest => f t + total f rest
  end.

Definition pending_all (w : Instr -> Z) (s : Machine) : Z :=
  total (fun t => pending w (code t)) (m_threads s).

(** The goroutine that [go func(v) {...}(video)] starts *)
Definition started (v : VideoInfo) : Thread :=
  {| code := itemProgram transfer generateFilePath skipExisting v; reg := 0;
     regResults := [] |}.

(** What holds of the record and the goroutines all along a run at a gate
    of capacity one that started from [job0]: [K c] is what the counter [c]
    and the writes of it still to come add up to, [KR] the same for the
    results. *)
Record counters_invariant (job0 : BatchJob) (K : Counter -> Z) (KR : Z)
    (s : Machine) : Prop := {
  inv_threads : Forall (thread_ok (m_job s)) (m_threads s);
  inv_sem : Z.of_nat (m_sem s) = pending_all w_held s;
  inv_cap : (m_sem s <= 1)%nat;
  inv_counter : forall c, gated c = true ->
    get_counter c (m_job s) + pending_all (w_counter c) s = K c;
  inv_lower : forall c, gated c = true ->
    get_counter c job0 <= get_counter c (m_job s);
  inv_results : len64 (Results (m_job s)) + pending_all w_results s = KR;
  inv_Total : Total (Progress (m_job s)) = Total (Progress job0)
}.

End Pending.

(** *** File names *)

(** The characters [cleanFilename] replaces: slash, backslash, colon, star,
    question mark, double quote, angle brackets, bar *)
Definition invalidChars : list ascii :=
  ["/"; "092"; ":"; "*"; "?"; "034"; "<"; ">"; "|"]%char.

(** [strings.ReplaceAll(s, old, new)] for [old] and [new] of one byte *)
Fixpoint ReplaceAll (s : string) (old new : ascii) : string :=
  match s with
  | EmptyString => EmptyString
  | String c rest =>
      String (if Ascii.eqb c old then new else c) (ReplaceAll rest old new)
  end.

(** [cleanFilename] *)
Definition cleanFilename (filename : string) : string :=
  foldl (fun cleanName invalidChar => ReplaceAll cleanName invalidChar "_"%char)
        filename invalidChars.

(** [generateFilePath], on the fields of the video it prints and the
    [OutputPath] of the configuration *)
Definition generateFilePath (Platform AuthorName Title ID Format OutputPath : string)
  : string :=
  let filename := Platform +:+ "_" +:+ AuthorName +:+ "_" +:+ Title +:+ "_" +:+ ID
                  +:+ "." +:+ Format in
  OutputPath +:+ "/" +:+ cleanFilename filename.

Definition is_invalid (c : ascii) : bool := existsb (Ascii.eqb c) invalidChars.

(** What [cleanFilename] makes of one character *)
Definition cleanChar (c : ascii) : ascii := if is_invalid c then "_"%char else c.

End Batch.

(** ** The download manager ([Manager.Download], [Manager.DownloadBatch]) *)

Module Manager.

(** [make(chan *DownloadRequest, 100)] in [NewManager] *)
Definition queueCap : nat := 100.

(** The goroutine [DownloadBatch] starts for one URL, which runs
    [m.Download]. *)
Inductive TaskState :=
| Spawned       (** started, up to [m.queue <- req] *)
| Processing    (** past the queue, inside [<-m.processDownload(req)] *)
| Finished.

Record State := {
  queue : nat;                (** [len(m.queue)] *)
  tasks : list TaskState;
  (** the [processDownload] goroutines the workers started for requests
      they took from the queue *)
  background : nat
}.

Inductive Action :=
| Spawn_                 (** [go func(idx, u) {...}(i, url)] *)
| Reject (i : nat)       (** [detectPlatform] finds nothing: [Download] returns *)
| Enqueue (i : nat)      (** [m.queue <- req] goes through; processing starts *)
| Finish (i : nat)       (** the result arrives; [Download] returns *)
| WorkerTake             (** a worker receives from [m.queue] *)
| BackgroundFinish.

(** One step; [workers] is [cfg.Download.MaxWorkers], the workers [Start]
    launched.  [None] when the action is not enabled. *)
Definition exec (workers : nat) (a : Action) (s : State) : option State :=
  match a with
  | Spawn_ =>
      Some {| queue := queue s; tasks := tasks s ++ [Spawned];
              background := background s |}
  | Reject i =>
      match tasks s !! i with
      | Some Spawned =>
          Some {| queue := queue s; tasks := <[i := Finished]> (tasks s);
                  background := background s |}
      | _ => None
      end
  | Enqueue i =>
      match tasks s !! i with
      | Some Spawned =>
          if (queue s <? queueCap)%nat
          then Some {| queue := S (queue s); tasks := <[i := Processing]> (tasks s);
                       background := background s |}
          else None
      | _ => None
      end
  | Finish i =>
      match tasks s !! i with
      | Some Processing =>
          Some {| queue := queue s; tasks := <[i := Finished]> (tasks s);
                  background := background s |}
      | _ => None
      end
  | WorkerTake =>
      if (0 <? workers)%nat && (0 <? queue s)%nat
      then Some {| queue := pred (queue s); tasks := tasks s;
                   background := S (background s) |}
      else None
  | BackgroundFinish =>
      if (0 <? background s)%nat
      then Some {| queue := queue s; tasks := tasks s;
                   background := pred (background s) |}
      else None
  end.

Fixpoint run (workers : nat) (acts : list Action) (s : State) : option State :=
  match acts with
  | [] => Some s
  | a :: rest =>
      match exec workers a s with
      | Some s' => run workers rest s'
      | None => None
      end
  end.

(** The manager when [DownloadBatch] is entered with nothing else going on *)
Definition idle : State := {| queue := 0; tasks := []; background := 0 |}.

Definition is_processing (t : TaskState) : bool :=
  match t with Processing => true | _ => false end.

(** The per-item tasks of the batch call that are at work *)
Definition processing (s : State) : nat := count_if is_processing (tasks s).

(** The actions of [DownloadBatch] on [n] supported URLs when every
    goroutine gets past the queue before any result arrives *)
Definition allAtOnce (n : nat) : list Action :=
  replicate n Spawn_ ++ map Enqueue (seq 0 n).

End Manager.

(** ** The segmented stream downloader ([M3U8Downloader]) *)

Module M3U8.

Definition StatusOK : Z := 200.

(** The answer to a [GET]: transport failure, or a status and the body
    bytes that arrive, with [complete] false when the body read fails on
    the way. *)
Inductive Fetch :=
| FetchFails
| FetchResponds (status : Z) (body : list byte) (complete : bool).

(** The answer to the playlist [GET]; the body is given by the lines
    [bufio.Scanner] splits it into. *)
Inductive PlaylistFetch :=
| PlaylistFails
| PlaylistResponds (status : Z) (lines : list string).

Inductive M3U8Error :=
| ErrPlaylistDownload
| ErrPlaylistStatus (code : Z)
| ErrNoSegments
| ErrTempDir
| ErrSegments (failedIndexes : list nat)
| ErrCreateOutput
| ErrOpenSegment
| ErrCopySegment.

(** How a call ends: it returns (with Go's [nil] as [None]), it never
    returns, or it panics. *)
Inductive Result :=
| Returns (err : option M3U8Error)
| Hangs
| Panics.

(** [strings.TrimSpace], for the ASCII white space characters *)
Definition isSpace (c : ascii) : bool :=
  let n := nat_of_ascii c in
  ((9 <=? n) && (n <=? 13) || (n =? 32))%nat.

Fixpoint trimLeft (s : list ascii) : list ascii :=
  match s with
  | c :: rest => if isSpace c then trimLeft rest else s
  | [] => []
  end.

Definition TrimSpace (s : string) : string :=
  String.string_of_list_ascii
    (rev (trimLeft (rev (trimLeft (String.list_ascii_of_string s))))).

(** [strings.HasPrefix(s, p)] *)
Definition HasPrefix (s p : string) : bool := String.prefix p s.

(** [s[:strings.LastIndex(s, "/")+1]]: [None] when [s] has no slash *)
Fixpoint uptoLastSlash (s : string) : option string :=
  match s with
  | EmptyString => None
  | String c rest =>
      match uptoLastSlash rest with
      | Some p => Some (String c p)
      | None => if Ascii.eqb c "/" then Some (String c EmptyString) else None
      end
  end.

Definition baseURI (m3u8URL : string) : string := default "" (uptoLastSlash m3u8URL).

(** The parsing loop of [DownloadM3U8] *)
Fixpoint parseLines (base : string) (lines : list string) : list string :=
  match lines with
  | [] => []
  | l :: rest =>
      let line := TrimSpace l in
      if negb (bool_decide (line = "")) && negb (HasPrefix line "#") then
        (if HasPrefix line "http" then line else base +:+ line) :: parseLines base rest
      else parseLines base rest
  end.

(** [fmt.Sprintf("%04d", index)] for an index, which is never negative *)
Definition padding (width : nat) (d : Decimal.uint) : Decimal.uint :=
  Nat.iter (width - Decimal.nb_digits d) Decimal.D0 d.

Definition fmt_04d (index : nat) : string :=
  NilEmpty.string_of_uint (padding 4 (Nat.to_uint index)).

Definition segmentFileName (tempDir : string) (index : nat) : string :=
  filepath_Join tempDir ("segment_" +:+ fmt_04d index +:+ ".ts").

Record Env := {
  env_playlist : PlaylistFetch;
  (** the answer to the [GET] of the goroutine with the given index *)
  env_segment : nat -> string -> Fetch;
  (** [time.Now().Unix()] *)
  env_now : Z;
  env_mkdirOk : bool;
  env_createOk : bool;
  (** whether [io.Copy] of the given segment file into the output fails,
      and after how many bytes *)
  env_copyError : string -> option nat
}.

(** What the segment goroutines share *)
Record Shared := {
  sh_fs : gmap string (list byte);
  segmentFiles : list string;
  downloadErrors : list nat;
  (** the values sent on a non-nil [progressChan]: [index+1] of [len] *)
  sh_progress : list (nat * nat)
}.

(** [downloadSegment], [true] for a [nil] error.  [os.Create] of a file in
    the fresh temporary directory is taken to succeed. *)
Definition downloadSegment (env : Env) (index : nat) (url filePath : string)
    (fs : gmap string (list byte)) : gmap string (list byte) * bool :=
  match env_segment env index url with
  | FetchFails => (fs, false)
  | FetchResponds status body complete =>
      if negb (bool_decide (status = StatusOK)) then (fs, false)
      else (<[filePath := body]> fs, complete)
  end.

(** The body of the goroutine for segment [index]; [progress] tells whether
    [progressChan] is non-nil (and then drained by its receiver). *)
Definition segmentTask (env : Env) (tempDir : string) (segments : list string)
    (progress : bool) (index : nat) (sh : Shared) : Shared :=
  match segments !! index with
  | None => sh
  | Some url =>
      let segmentFile := segmentFileName tempDir index in
      let '(fs, ok) := downloadSegment env index url segmentFile (sh_fs sh) in
      if negb ok then
        {| sh_fs := fs; segmentFiles := segmentFiles sh;
           downloadErrors := downloadErrors sh ++ [index];
           sh_progress := sh_progress sh |}
      else
        {| sh_fs := fs; segmentFiles := <[index := segmentFile]> (segmentFiles sh);
           downloadErrors := downloadErrors sh;
           sh_progress := if progress
                          then sh_progress sh ++ [(S index, length segments)]
                          else sh_progress sh |}
  end.

(** The segment goroutines, run to their end in the given order *)
Definition runSegments (env : Env) (tempDir : string) (segments : list string)
    (progress : bool) (order : list nat) (sh : Shared) : Shared :=
  foldl (fun sh index => segmentTask env tempDir segments progress index sh) sh order.

(** [mergeSegments] after [os.Create(outputPath)] emptied the output: the
    copying loop.  It ends at the first segment file that cannot be opened
    or whose [io.Copy] fails; the output keeps what was copied before, and
    of the failing segment the bytes that got through. *)
Fixpoint copySegments (env : Env) (segmentFiles : list string) (outputPath : string)
    (fs : gmap string (list byte)) : gmap string (list byte) * option M3U8Error :=
  match segmentFiles with
  | [] => (fs, None)
  | segmentFile :: rest =>
      match fs !! segmentFile with
      | None => (fs, Some ErrOpenSegment)
      | Some segment =>
          match env_copyError env segmentFile with
          | Some n =>
              (<[outputPath := (default [] (fs !! outputPath) ++ take n segment)%list]> fs,
               Some ErrCopySegment)
          | None =>
              copySegments env rest outputPath
                (<[outputPath := (default [] (fs !! outputPath) ++ segment)%list]> fs)
          end
      end
  end.

Definition mergeSegments (env : Env) (segmentFiles : list string) (outputPath : string)
    (fs : gmap string (list byte)) : gmap string (list byte) * option M3U8Error :=
  if negb (env_createOk env) then (fs, Some ErrCreateOutput)
  else copySegments env segmentFiles outputPath (<[outputPath := []]> fs).

(** [os.RemoveAll(dir)]: everything at or below [dir] goes. *)
Definition under (dir path : string) : bool :=
  bool_decide (path = dir) || String.prefix (dir +:+ "/") path.

Definition os_RemoveAll (dir : string) (fs : gmap string (list byte))
  : gmap string (list byte) :=
  filter (fun kv => negb (under dir kv.1) = true) fs.

(** [DownloadM3U8].  The segment goroutines share the slice [segmentFiles],
    where each writes the slot of its own index, the temporary directory,
    where each writes the file of its own index, and the error list behind
    its mutex; so a run is given by the order in which the goroutines come
    to their end, and [order] lists them in that order. *)
Definition DownloadM3U8 (env : Env) (mdTempDir : string) (maxWorkers : Z)
    (m3u8URL outputPath : string) (progress : bool) (order : list nat)
    (fs : gmap string (list byte)) : gmap string (list byte) * Result * list (nat * nat) :=
  match env_playlist env with
  | PlaylistFails => (fs, Returns (Some ErrPlaylistDownload), [])
  | PlaylistResponds status lines =>
      if negb (bool_decide (status = StatusOK))
      then (fs, Returns (Some (ErrPlaylistStatus status)), [])
      else
        let segments := parseLines (baseURI m3u8URL) lines in
        match segments with
        | [] => (fs, Returns (Some ErrNoSegments), [])
        | _ =>
            let tempDir := filepath_Join mdTempDir ("m3u8_" +:+ fmt_d (env_now env)) in
            if negb (env_mkdirOk env) then (fs, Returns (Some ErrTempDir), [])
            else if bool_decide (maxWorkers < 0) then (os_RemoveAll tempDir fs, Panics, [])
            else if bool_decide (maxWorkers = 0) then (fs, Hangs, [])
            else
              let sh := runSegments env tempDir segments progress order
                          {| sh_fs := fs;
                             segmentFiles := replicate (length segments) "";
                             downloadErrors := []; sh_progress := [] |} in
              match downloadErrors sh with
              | _ :: _ =>
                  (os_RemoveAll tempDir (sh_fs sh),
                   Returns (Some (ErrSegments (downloadErrors sh))), sh_progress sh)
              | [] =>
                  let '(fs', err) := mergeSegments env (segmentFiles sh) outputPath (sh_fs sh) in
                  (os_RemoveAll tempDir fs', Returns err, sh_progress sh)
              end
        end
  end.

(** *** Observations, and an example *)

(** The segment list [DownloadM3U8] parses out of the playlist it fetched *)
Definition playlistSegments (env : Env) (m3u8URL : string) : list string :=
  match env_playlist env with
  | PlaylistResponds _ lines => parseLines (baseURI m3u8URL) lines
  | PlaylistFails => []
  end.

(** The temporary directory of a call *)
Definition callTempDir (env : Env) (mdTempDir : string) : string :=
  filepath_Join mdTempDir ("m3u8_" +:+ fmt_d (env_now env)).

(** The bytes the goroutine for segment [index] receives *)
Definition segmentBody (env : Env) (index : nat) (url : string) : list byte :=
  match env_segment env index url with
  | FetchResponds _ body _ => body
  | FetchFails => []
  end.

(** The goroutine for segment [i] got all of its segment. *)
Definition fetched (env : Env) (segments : list string) (i : nat) (body : list byte)
  : Prop :=
  exists url, segments !! i = Some url /\
              env_segment env i url = FetchResponds StatusOK body true.

(** A playlist of three segments; the segment with index [i] consists of
    the byte [i] (the last one of two bytes). *)
Definition example_env : Env :=
  {| env_playlist := PlaylistResponds 200 ["#EXTM3U"; " s0.ts "; ""; "http://x/s1.ts"; "s2.ts"];
     env_segment := fun index _ =>
       FetchResponds 200
         (match index with O => [x00] | 1%nat => [x01] | _ => [x02; x03] end)%byte true;
     env_now := 17; env_mkdirOk := true; env_createOk := true;
     env_copyError := fun _ => None |}.

End M3U8.

(** ** The helpers of the HTTP client ([internal/utils/http_client.go]) *)

Module Utils.

(** What one call of [c.Get] gives: an error, or a response with its status
    code *)
Inductive GetResult :=
| GetError
| GetResponse (StatusCode : Z).

(** What [GetWithRetry] does that others see: the calls of [c.Get], numbered
    from zero, and the calls of [time.Sleep(retryDelay)] *)
Inductive RetryEvent :=
| EvGet (attempt : nat)
| EvSleep.

(** How [GetWithRetry] ends: with a response, or with the error
    [request failed after %d attempts: %w], which wraps the variable [err];
    [wrapped] tells whether [err] is non-nil then. *)
Inductive RetryResult :=
| Response (StatusCode : Z)
| RequestFailed (wrapped : bool).

(** The loop of [GetWithRetry] from iteration [i] on, with [n] iterations to
    go; [answer k] is what call [k] of [c.Get] gives, and [err] whether the
    variable [err] is non-nil. *)
Fixpoint retryFrom (answer : nat -> GetResult) (maxRetries : Z) (n i : nat) (err : bool)
    (log : list RetryEvent) : RetryResult * list RetryEvent :=
  match n with
  | O => (RequestFailed err, log)
  | S n' =>
      let log := log ++ [EvGet i] in
      let continue (err : bool) :=
        let log := if (Z.of_nat i <? maxRetries - 1)%Z then log ++ [EvSleep] else log in
        retryFrom answer maxRetries n' (S i) err log in
      match answer i with
      | GetResponse StatusCode =>
          if (StatusCode <? 500)%Z then (Response StatusCode, log) else continue false
      | GetError => continue true
      end
  end.

(** [GetWithRetry]: the loop runs [maxRetries] times, not at all when
    [maxRetries] is zero or negative. *)
Definition GetWithRetry (answer : nat -> GetResult) (maxRetries : Z)
  : RetryResult * list RetryEvent :=
  retryFrom answer maxRetries (Z.to_nat maxRetries) 0 false [].

(** Whether [GetWithRetry] takes an answer *)
Definition acceptable (a : GetResult) : bool :=
  match a with
  | GetResponse StatusCode => (StatusCode <? 500)%Z
  | GetError => false
  end.

Definition is_error (a : GetResult) : bool :=
  match a with GetError => true | GetResponse _ => false end.

(** Calls [i] to [i + k] of [c.Get], with a sleep after each but the last *)
Definition attempts (i k : nat) : list RetryEvent :=
  flat_map (fun j => [EvGet j; EvSleep]) (seq i k) ++ [EvGet (i + k)].

(** What [FormatBytes] prints: [%d B] of the number, or [%.1f %ciB] of the
    quotient of the number by [div] and the letter [exp] of [KMGTPE]; the
    index expression panics when [exp] is no index of the string. *)
Inductive Formatted :=
| Plain (bytes : Z)
| Scaled (bytes div : Z) (exp : Z)
| IndexPanic.

(** The loop of [FormatBytes],
    [for n := bytes / unit; n >= unit; n /= unit { div *= unit; exp++ }];
    [None] when [fuel] iterations do not end it.  Go's [/] is [Z.quot]. *)
Fixpoint scale (fuel : nat) (n div exp : Z) : option (Z * Z) :=
  match fuel with
  | O => None
  | S fuel' =>
      if (1024 <=? n)%Z
      then scale fuel' (n ÷ 1024) (wrap64 (div * 1024)) (wrap64 (exp + 1))
      else Some (div, exp)
  end.

(** [FormatBytes]; 64 iterations are more than the loop can make on 64-bit
    numbers. *)
Definition FormatBytes (bytes : Z) : option Formatted :=
  if (bytes <? 1024)%Z then Some (Plain bytes)
  else
    match scale 64 (bytes ÷ 1024) 1024 0 with
    | Some (div, exp) =>
        Some (if (0 <=? exp)%Z && (exp <? 6)%Z then Scaled bytes div exp else IndexPanic)
    | None => None
    end.

(** *** The progress reader and [downloadFile]
    ([internal/utils/downloader.go]) *)



Inductive DownloadError :=
| ErrFileSize
| ErrTempDirectory
| ErrTempFile
| ErrFileStat
| ErrCreateRequest
| ErrMakeRequest
| ErrStatusCode (code : Z)
| ErrDownloading
| ErrCreateDirectory
| ErrMoveFile.

Record DownloadJob := {
  dj_ID : string;
  dj_URL : string;
  dj_FilePath : string;
  dj_FileSize : Z;
  dj_Downloaded : Z;
  dj_Status : string;
  dj_Error : option DownloadError
}.

Definition failed (e : DownloadError) (job : DownloadJob) : DownloadJob :=
  {| dj_ID := dj_ID job; dj_URL := dj_URL job; dj_FilePath := dj_FilePath job;
     dj_FileSize := dj_FileSize job; dj_Downloaded := dj_Downloaded job;
     dj_Status := "failed"; dj_Error := Some e |}.

Definition set_Downloaded (n : Z) (job : DownloadJob) : DownloadJob :=
  {| dj_ID := dj_ID job; dj_URL := dj_URL job; dj_FilePath := dj_FilePath job;
     dj_FileSize := dj_FileSize job; dj_Downloaded := n;
     dj_Status := dj_Status job; dj_Error := dj_Error job |}.

Definition set_Status (s : string) (job : DownloadJob) : DownloadJob :=
  {| dj_ID := dj_ID job; dj_URL := dj_URL job; dj_FilePath := dj_FilePath job;
     dj_FileSize := dj_FileSize job; dj_Downloaded := dj_Downloaded job;
     dj_Status := s; dj_Error := dj_Error job |}.

Definition set_FileSize (n : Z) (job : DownloadJob) : DownloadJob :=
  {| dj_ID := dj_ID job; dj_URL := dj_URL job; dj_FilePath := dj_FilePath job;
     dj_FileSize := n; dj_Downloaded := dj_Downloaded job;
     dj_Status := dj_Status job; dj_Error := dj_Error job |}.






End Utils.

(** * Properties *)

(** ** The resumable transfer engine *)

Module ResumeFacts.
Import Resume.

(** *** Construction and the job registry *)

(** C10: [NewResumableDownloader] replaces every zero field of the
    configuration by its default (metadata directory [./temp/metadata],
    temporary directory [./temp/downloads], chunk size 1048576 bytes, 3
    retries, a timeout of 30 seconds) and takes every other field as it is. *)
Theorem NewResumableDownloader_defaults (config : ResumableConfig)
    (files : list (string * option ResumableJob)) :
  let rd := NewResumableDownloader config files in
  (cfg_MetaDir config = "" -> metaDir rd = "./temp/metadata") /\
  (cfg_MetaDir config <> "" -> metaDir rd = cfg_MetaDir config) /\
  (cfg_TempDir config = "" -> tempDir rd = "./temp/downloads") /\
  (cfg_TempDir config <> "" -> tempDir rd = cfg_TempDir config) /\
  (cfg_ChunkSize config = 0 -> chunkSize rd = 1048576) /\
  (cfg_ChunkSize config <> 0 -> chunkSize rd = cfg_ChunkSize config) /\
  (cfg_MaxRetries config = 0 -> maxRetries rd = 3) /\
  (cfg_MaxRetries config <> 0 -> maxRetries rd = cfg_MaxRetries config) /\
  (cfg_Timeout config = 0 -> timeout rd = 30 * 1000000000) /\
  (cfg_Timeout config <> 0 -> timeout rd = cfg_Timeout config) /\
  client_Timeout rd = timeout rd.
Proof.
  destruct config as [md td cs mr tmo ua]; cbn.
  repeat split; intros; repeat case_decide; subst; try done.
Qed.

Lemma NewResumableDownloader_defaults_witness :
  let rd := NewResumableDownloader zero_config [] in
  metaDir rd = "./temp/metadata" /\ tempDir rd = "./temp/downloads" /\
  chunkSize rd = 1048576 /\ maxRetries rd = 3 /\ timeout rd = 30000000000.
Proof.
  pose proof (NewResumableDownloader_defaults zero_config []) as H.
  cbv zeta in H.
  destruct H as (H1 & _ & H2 & _ & H3 & _ & H4 & _ & H5 & _).
  cbv zeta. split_and!; [apply H1 | apply H2 | apply H3 | apply H4 | apply H5]; reflexivity.
Defined.

(** A non-zero configuration goes through unchanged. *)
Example NewResumableDownloader_custom :
  let rd := NewResumableDownloader
              {| cfg_MetaDir := "m"; cfg_TempDir := "t"; cfg_ChunkSize := 4096;
                 cfg_MaxRetries := -1; cfg_Timeout := 5 * Second;
                 cfg_UserAgent := "ua" |} [] in
  (metaDir rd, tempDir rd, chunkSize rd, maxRetries rd, timeout rd)
  = ("m", "t", 4096, -1, 5000000000).
Proof. reflexivity. Qed.

(** C1: when the registry holds a completed job for the pair (url,
    destination), [StartDownload] returns that job, leaves the registry as it
    is and starts no goroutine: no probe, no fetch, no transfer. *)
Theorem StartDownload_completed (md5hex : list byte -> string)
    (rd : ResumableDownloader) (url filePath : string)
    (headers : gmap string string) (pc : option Chan) (job : ResumableJob) :
  activeJobs rd !! generateJobID md5hex url filePath = Some job ->
  Status job = "completed" ->
  StartDownload md5hex rd url filePath headers pc = (rd, job, []).
Proof.
  intros Hjob Hdone. unfold StartDownload. rewrite Hjob.
  by rewrite decide_True.
Qed.

Lemma StartDownload_completed_witness :
  let rd := with_activeJobs {[ "k" := done_job ]} default_rd in
  StartDownload (fun _ => "k") rd "http://host/a.mp4" "out/a.mp4" ∅ None
  = (rd, done_job, []).
Proof.
  apply (StartDownload_completed (fun _ => "k")); reflexivity.
Defined.

(** A job that is neither completed nor downloading is resumed: a new
    goroutine is started for it. *)
Lemma StartDownload_resumes md5hex rd url filePath headers pc job :
  activeJobs rd !! generateJobID md5hex url filePath = Some job ->
  Status job <> "completed" -> Status job <> "downloading" ->
  (StartDownload md5hex rd url filePath headers pc).2 = [GoDownloadJob (ID job)].
Proof.
  intros Hjob H1 H2. unfold StartDownload, resumeDownload. rewrite Hjob.
  by rewrite !decide_False.
Qed.

(** A pair seen for the first time is registered and started. *)
Lemma StartDownload_new md5hex rd url filePath headers pc :
  activeJobs rd !! generateJobID md5hex url filePath = None ->
  let '(rd', job, spawned) := StartDownload md5hex rd url filePath headers pc in
  activeJobs rd' !! generateJobID md5hex url filePath = Some job /\
  Status job = "pending" /\
  spawned = [GoDownloadJob (generateJobID md5hex url filePath)].
Proof.
  intros Hnone. unfold StartDownload. rewrite Hnone. cbn.
  by rewrite lookup_insert_eq.
Qed.

(** *** What a goroutine adds to the event log *)

Section AddsOnly.
Context (P : Event -> Prop).

Lemma adds_only_ret {A} (a : A) : adds_only P (ret a).
Proof. intros w. exists []. by rewrite app_nil_r. Qed.

Lemma adds_only_bind {A B} (m : M A) (k : A -> M B) :
  adds_only P m -> (forall a, adds_only P (k a)) -> adds_only P (bind m k).
Proof.
  intros Hm Hk w. unfold bind. destruct (Hm w) as (n1 & E1 & F1).
  destruct (m w) as [a w'|w']; cbn in *.
  - destruct (Hk a w') as (n2 & E2 & F2). exists (n1 ++ n2).
    rewrite E2, E1, app_assoc. split; [done | by apply Forall_app].
  - by exists n1.
Qed.

Lemma adds_only_emit e : P e -> adds_only P (emit e).
Proof. intros He w. exists [e]. split; [done | by constructor]. Qed.

Lemma adds_only_get_job : adds_only P get_job.
Proof. intros w. exists []. by rewrite app_nil_r. Qed.

Lemma adds_only_get_fs : adds_only P get_fs.
Proof. intros w. exists []. by rewrite app_nil_r. Qed.

Lemma adds_only_modify_job f : adds_only P (modify_job f).
Proof. intros w. exists []. by rewrite app_nil_r. Qed.

Lemma adds_only_put_fs fs : adds_only P (put_fs fs).
Proof. intros w. exists []. by rewrite app_nil_r. Qed.

Lemma adds_only_read {A} (f : World -> A) : adds_only P (fun w => Ret (f w) w).
Proof. intros w. exists []. by rewrite app_nil_r. Qed.

Lemma adds_only_block {A} : adds_only P (fun w => @Blocked A w).
Proof. intros w. exists []. by rewrite app_nil_r. Qed.

Lemma adds_only_next_get : adds_only P next_get.
Proof. intros w. exists []. rewrite app_nil_r. unfold next_get. by destruct (w_gets w). Qed.

Lemma adds_only_next_wait : adds_only P next_wait.
Proof. intros w. exists []. rewrite app_nil_r. unfold next_wait. by destruct (w_waits w). Qed.

End AddsOnly.

Create HintDb quiet discriminated.
#[local] Hint Resolve adds_only_ret adds_only_emit adds_only_get_job adds_only_get_fs
  adds_only_modify_job adds_only_put_fs adds_only_read adds_only_block
  adds_only_next_get adds_only_next_wait : quiet.

(** Walks through the binds and branches of a computation. *)
Ltac quiet :=
  repeat first
    [ progress auto with quiet
    | by apply adds_only_emit
    | apply adds_only_bind; [| intros ?]
    | case_match ].

Lemma send_nonblocking_quiet u : adds_only is_bookkeeping (send_nonblocking u).
Proof. unfold send_nonblocking. quiet. Qed.

Lemma send_blocking_quiet u : adds_only is_bookkeeping (send_blocking u).
Proof. unfold send_blocking. quiet. Qed.

Lemma saveJobMetadata_quiet marshal : adds_only is_bookkeeping (saveJobMetadata marshal).
Proof. unfold saveJobMetadata. quiet. Qed.

#[local] Hint Resolve send_nonblocking_quiet send_blocking_quiet saveJobMetadata_quiet : quiet.

Lemma PauseJob_quiet marshal : adds_only is_bookkeeping (PauseJob marshal).
Proof. unfold PauseJob. quiet. Qed.

Lemma handleJobError_quiet marshal e : adds_only is_bookkeeping (handleJobError marshal e).
Proof. unfold handleJobError. quiet. Qed.

Lemma Write_quiet marshal rd written p : adds_only is_bookkeeping (Write marshal rd written p).
Proof. unfold Write. quiet. Qed.

#[local] Hint Resolve PauseJob_quiet handleJobError_quiet Write_quiet : quiet.

Lemma copyChunks_quiet marshal rd chunks :
  forall written, adds_only is_bookkeeping (copyChunks marshal rd written chunks).
Proof. induction chunks as [|p rest IH]; intros written; cbn; quiet. Qed.

#[local] Hint Resolve copyChunks_quiet : quiet.

Lemma requests_app l1 l2 : requests (l1 ++ l2) = requests l1 ++ requests l2.
Proof. apply omap_app. Qed.

Lemma renames_app l1 l2 : renames (l1 ++ l2) = renames l1 ++ renames l2.
Proof. apply omap_app. Qed.

Lemma bookkeeping_no_requests new : Forall is_bookkeeping new -> requests new = [].
Proof. induction 1 as [|e l He _ IH]; [done|]. by destruct e. Qed.

Lemma bookkeeping_no_renames new : Forall is_bookkeeping new -> renames new = [].
Proof. induction 1 as [|e l He _ IH]; [done|]. by destruct e. Qed.

(** *** Computations that never park *)

Lemma returns_ret {A} (a : A) : always_returns (ret a).
Proof. intros w. by eexists _, _. Qed.

Lemma returns_bind {A B} (m : M A) (k : A -> M B) :
  always_returns m -> (forall a, always_returns (k a)) -> always_returns (bind m k).
Proof.
  intros Hm Hk w. unfold bind. destruct (Hm w) as (a & w' & ->). apply Hk.
Qed.

Lemma returns_total {A} (f : World -> A) (g : World -> World) :
  always_returns (fun w => Ret (f w) (g w)).
Proof. intros w. by eexists _, _. Qed.

Lemma returns_next_get : always_returns next_get.
Proof. intros w. unfold next_get. destruct (w_gets w); by eexists _, _. Qed.

Lemma returns_next_wait : always_returns next_wait.
Proof. intros w. unfold next_wait. destruct (w_waits w); by eexists _, _. Qed.

Create HintDb returns discriminated.
#[local] Hint Resolve returns_ret returns_next_get returns_next_wait : returns.
#[local] Hint Extern 1 (always_returns get_job) => apply returns_total : returns.
#[local] Hint Extern 1 (always_returns get_fs) => apply returns_total : returns.
#[local] Hint Extern 1 (always_returns (modify_job _)) => apply returns_total : returns.
#[local] Hint Extern 1 (always_returns (put_fs _)) => apply returns_total : returns.
#[local] Hint Extern 1 (always_returns (emit _)) => apply returns_total : returns.
#[local] Hint Extern 1 (always_returns (fun w => Ret _ _)) => apply returns_total : returns.

Ltac returns :=
  repeat first
    [ progress auto with returns
    | apply returns_bind; [| intros ?]
    | case_match ].

Lemma send_nonblocking_returns u : always_returns (send_nonblocking u).
Proof. unfold send_nonblocking. returns. Qed.

Lemma saveJobMetadata_returns marshal : always_returns (saveJobMetadata marshal).
Proof. unfold saveJobMetadata. returns. Qed.

#[local] Hint Resolve send_nonblocking_returns saveJobMetadata_returns : returns.

Lemma PauseJob_returns marshal : always_returns (PauseJob marshal).
Proof. unfold PauseJob. returns. Qed.

(** Every progress update of [progressWriter.Write] goes through a [select]
    with a [default] branch: the writer never parks on the channel. *)
Lemma Write_returns marshal rd written p : always_returns (Write marshal rd written p).
Proof. unfold Write. returns. Qed.

#[local] Hint Resolve PauseJob_returns Write_returns : returns.

Lemma copyChunks_returns marshal rd chunks :
  forall written, always_returns (copyChunks marshal rd written chunks).
Proof. induction chunks as [|p rest IH]; intros written; cbn; returns. Qed.

#[local] Hint Resolve copyChunks_returns : returns.

Lemma performDownload_returns marshal rd : always_returns (performDownload marshal rd).
Proof. unfold performDownload, os_Stat. returns. Qed.

(** With a busy sink the update of [Write] is dropped, not queued. *)
Lemma send_nonblocking_drops u w c :
  progressChan (w_job w) = Some c -> chan_full c = true ->
  send_nonblocking u w = Ret () (with_log (w_log w ++ [EvDropped u]) w).
Proof. intros Hc Hfull. unfold send_nonblocking, bind. cbn. by rewrite Hc, Hfull. Qed.

(** The final updates are plain sends: with a busy sink [handleJobError] and
    [completeJob] park. *)
Lemma handleJobError_parks marshal e w c :
  progressChan (w_job w) = Some c -> chan_full c = true ->
  returned (handleJobError marshal e w) = false.
Proof.
  intros Hc Hfull. unfold handleJobError, send_blocking. cbn. by rewrite Hc, Hfull.
Qed.

(** *** The transfer attempt *)

Lemma os_Stat_startByteOf w :
  default 0 (len64 <$> w_fs w !! TempPath (w_job w)) = startByteOf (w_fs w) (w_job w).
Proof. unfold startByteOf. by destruct (w_fs w !! TempPath (w_job w)). Qed.

Lemma startByteOf_nonneg fs job : 0 <= startByteOf fs job.
Proof. unfold startByteOf, len64. destruct (fs !! TempPath job); lia. Qed.

(** An attempt hands exactly one request to the client, the one built from
    the size of the temporary file (and none when no request can be built). *)
Lemma performDownload_requests marshal rd w :
  requests (w_log (final (performDownload marshal rd w))) =
  requests (w_log w) ++
  (if can_request w then [buildRequest (w_job w) (startByteOf (w_fs w) (w_job w))] else []).
Proof.
  unfold performDownload, can_request.
  rewrite <- (os_Stat_startByteOf w).
  set (st := len64 <$> w_fs w !! TempPath (w_job w)).
  set (req := buildRequest _ _).
  unfold bind at 1. cbn [get_job]. unfold bind at 1.
  change (os_Stat (TempPath (w_job w)) w) with (Ret st w).
  unfold bind at 1.
  assert (exists w1, (match st with
                      | Some n => modify_job (set_Downloaded n)
                      | None => ret ()
                      end) w = Ret () w1 /\ w_log w1 = w_log w /\ w_urlOk w1 = w_urlOk w)
    as (w1 & -> & Hlog & Hurl).
  { destruct st; eexists; split; try reflexivity; done. }
  unfold bind at 1. rewrite Hurl.
  destruct (negb _) eqn:Hb.
  - apply negb_true_iff in Hb. rewrite Hb. cbn. by rewrite Hlog, app_nil_r.
  - apply negb_false_iff in Hb. rewrite Hb.
    unfold bind at 1. cbn [emit].
    match goal with |- context [final (?m ?w0)] =>
      assert (adds_only is_bookkeeping m) as Hq by quiet;
      destruct (Hq w0) as (new & -> & Hnew)
    end.
    cbn. rewrite !requests_app, Hlog, (bookkeeping_no_requests new Hnew).
    cbn. by rewrite app_nil_r.
Qed.

(** An attempt that returns no error got the status it expected. *)
Lemma performDownload_nil_status marshal rd w w' :
  performDownload marshal rd w = Ret None w' ->
  exists chunks ending rest,
    w_gets w = Responds (expectedStatus (startByteOf (w_fs w) (w_job w))) chunks ending :: rest.
Proof.
  unfold performDownload. rewrite <- (os_Stat_startByteOf w).
  set (st := len64 <$> w_fs w !! TempPath (w_job w)).
  unfold bind at 1. cbn [get_job]. unfold bind at 1.
  change (os_Stat (TempPath (w_job w)) w) with (Ret st w).
  unfold bind at 1.
  assert (exists w1, (match st with
                      | Some n => modify_job (set_Downloaded n)
                      | None => ret ()
                      end) w = Ret () w1 /\ w_gets w1 = w_gets w)
    as (w1 & -> & Hgets).
  { destruct st; eexists; split; try reflexivity; done. }
  unfold bind at 1. destruct (negb _); [done|].
  unfold bind at 1. cbn [emit]. unfold bind at 1.
  unfold next_get at 1. cbn [w_gets with_log]. rewrite Hgets.
  destruct (w_gets w) as [|[paused|status chunks ending] rest].
  - done.
  - unfold bind at 1. destruct paused; [|done].
    match goal with |- context [PauseJob marshal ?w0] =>
      by destruct (PauseJob_returns marshal w0) as (? & w2 & ->)
    end.
  - fold (expectedStatus (default 0 st)).
    destruct (negb _) eqn:Hs; [done|].
    apply negb_false_iff, bool_decide_eq_true in Hs as ->. eauto.
Qed.

Lemma buildRequest_header job startByte :
  req_Header (buildRequest job startByte) =
  if bool_decide (startByte > 0) then <["Range" := rangeFrom startByte]> (Headers job)
  else Headers job.
Proof. unfold buildRequest, rangeFrom. by case_bool_decide. Qed.

(** C2, as the code has it: the resume offset of an attempt is the size of
    the temporary file (0 when there is none); the one request of the
    attempt carries the caller's headers, with [Range] set to
    [bytes=<offset>-] when the offset is positive and untouched when it is
    zero, so that for a caller who supplies no [Range] header one from
    exactly the offset is sent iff the offset is positive; and the attempt
    returns an error unless the status is 206 for a positive offset and 200
    for offset zero. *)
Theorem performDownload_offset_range_status (marshal : ResumableJob -> list byte)
    (rd : ResumableDownloader) (w : World) :
  let job := w_job w in
  let startByte := startByteOf (w_fs w) job in
  let req := buildRequest job startByte in
  startByte = match w_fs w !! TempPath job with
              | Some content => len64 content
              | None => 0
              end /\
  requests (w_log (final (performDownload marshal rd w))) =
    requests (w_log w) ++ (if can_request w then [req] else []) /\
  (startByte > 0 -> req_Header req = <["Range" := rangeFrom startByte]> (Headers job)) /\
  (startByte = 0 -> req_Header req = Headers job) /\
  (Headers job !! "Range" = None ->
   (req_Header req !! "Range" = Some (rangeFrom startByte) <-> startByte > 0)) /\
  (exists r w', performDownload marshal rd w = Ret r w' /\
     (r = None ->
      exists chunks ending rest,
        w_gets w = Responds (if bool_decide (startByte > 0) then 206 else 200)
                     chunks ending :: rest)).
Proof.
  intros job startByte req. split_and!.
  - done.
  - apply performDownload_requests.
  - intros Hpos. unfold req. rewrite buildRequest_header. by rewrite bool_decide_true.
  - intros Hzero. unfold req. rewrite buildRequest_header.
    rewrite bool_decide_false; [done | lia].
  - intros Hnone. unfold req. rewrite buildRequest_header. case_bool_decide as Hpos.
    + by rewrite lookup_insert_eq.
    + rewrite Hnone. split; [done | lia].
  - destruct (performDownload_returns marshal rd w) as (r & w' & Hrun).
    exists r, w'. split; [done|]. intros ->.
    by apply performDownload_nil_status in Hrun.
Qed.

(** A resumed attempt: four bytes are in the temporary file, the fetch asks
    for [bytes=4-] and a 206 answer is accepted. *)
Lemma performDownload_offset_range_status_witness :
  let w := world_of (new_job ∅ None) {[ temp_k := four_bytes ]}
             (HeadResponds 200 (Some 10) true) [Responds 206 [] CopyEOF] in
  startByteOf (w_fs w) (w_job w) = 4 /\
  requests (w_log (final (performDownload (fun _ => []) default_rd w))) =
    [{| req_Method := "GET"; req_URL := "http://host/a.mp4";
        req_Header := {[ "Range" := "bytes=4-" ]} |}].
Proof.
  pose proof (performDownload_offset_range_status (fun _ => []) default_rd
    (world_of (new_job ∅ None) {[ temp_k := four_bytes ]}
       (HeadResponds 200 (Some 10) true) [Responds 206 [] CopyEOF])) as H.
  cbv zeta in H. destruct H as (H1 & H2 & _).
  cbv zeta. split; [exact H1 | rewrite H2; reflexivity].
Defined.

(** C2 as stated fails for a caller who passes a [Range] header of its own:
    nothing is in the temporary file, the offset is zero, and the request
    still carries [Range: bytes=0-]. *)
Lemma performDownload_range_at_offset_zero :
  let job := new_job {[ "Range" := "bytes=0-" ]} None in
  let w := world_of job ∅ (HeadResponds 200 None true) [Responds 200 [] CopyEOF] in
  let startByte := startByteOf (w_fs w) job in
  startByte = 0 /\
  exists req,
    requests (w_log (final (performDownload (fun _ => []) default_rd w))) = [req] /\
    ~ (req_Header req !! "Range" = Some (rangeFrom startByte) <-> startByte > 0).
Proof.
  cbv zeta. split; [reflexivity|].
  eexists. split; [reflexivity|].
  intros [H _]. specialize (H eq_refl). vm_compute in H. discriminate.
Qed.

(** *** Verification and the move to the destination *)

Lemma verifyFile_None md5hex fs job :
  verifyFile md5hex fs job = None <-> verified md5hex fs job.
Proof.
  unfold verifyFile, verified, calculateChecksum. split.
  - destruct (fs !! TempPath job) as [content|] eqn:Htemp; [|done]. cbn.
    intros H. exists content. split; [done|].
    repeat case_bool_decide; cbn in H; try done; split; intros; try done; lia.
  - intros (content & -> & Hsize & Hsum). cbn.
    repeat case_bool_decide; cbn; try done.
    all: first [ by specialize (Hsize ltac:(lia)) | by specialize (Hsum ltac:(done)) ].
Qed.

Lemma checksum_mismatch_not_verified md5hex fs job content :
  fs !! TempPath job = Some content -> Checksum job <> "" ->
  md5hex content <> Checksum job -> verifyFile md5hex fs job <> None.
Proof.
  intros Htemp Hsum Hne Hv. apply verifyFile_None in Hv as (c & Hc & _ & Hok).
  rewrite Htemp in Hc. injection Hc as <-. by apply Hne, Hok.
Qed.

Lemma handleJobError_final marshal e w :
  let w' := final (handleJobError marshal e w) in
  Status (w_job w') = "failed" /\
  w_fs w' =
    <[MetaPath (w_job w) := marshal (set_LastError e (set_Status "failed" (w_job w)))]>
      (w_fs w).
Proof.
  unfold handleJobError, send_blocking. cbn.
  destruct (progressChan (w_job w)) as [c|]; cbn; [|done].
  by destruct (chan_full c).
Qed.

(** [completeJob] moves the temporary file to the destination exactly when
    [verifyFile], [os.MkdirAll] and [os.Rename] all succeed, and makes no
    other move. *)
Lemma completeJob_renames md5hex marshal w :
  exists new,
    w_log (final (completeJob md5hex marshal w)) = w_log w ++ new /\
    renames new = if moves md5hex w then [(TempPath (w_job w), FilePath (w_job w))] else [].
Proof.
  unfold completeJob, moves.
  unfold bind at 1. cbn [get_job]. unfold bind at 1. cbn [get_fs].
  destruct (verifyFile md5hex (w_fs w) (w_job w)) as [e|] eqn:Hv.
  - destruct (handleJobError_quiet marshal (ErrVerification e) w) as (new & -> & Hnew).
    exists new. split; [done|]. rewrite bool_decide_false by done.
    by apply bookkeeping_no_renames.
  - rewrite bool_decide_true by done. cbn [andb].
    apply verifyFile_None in Hv as (content & Htemp & _).
    unfold bind at 1. unfold os_MkdirAll_Dir at 1.
    destruct (w_mkdirOk w); cbn [negb andb].
    + unfold bind at 1. unfold os_Rename at 1. cbn [w_fs with_log w_renameOk].
      rewrite Htemp.
      destruct (w_renameOk w); cbn [negb].
      * match goal with |- context [final (?m ?w0)] =>
          assert (adds_only is_bookkeeping m) as Hq by (unfold os_Remove; quiet);
          destruct (Hq w0) as (new & -> & Hnew)
        end.
        cbn. eexists. rewrite <- !app_assoc. split; [done|].
        rewrite !renames_app, (bookkeeping_no_renames new Hnew). done.
      * match goal with |- context [final (?m ?w0)] =>
          destruct (handleJobError_quiet marshal ErrMoveFile w0) as (new & -> & Hnew)
        end.
        cbn. eexists. rewrite <- !app_assoc. split; [done|].
        rewrite !renames_app, (bookkeeping_no_renames new Hnew). done.
    + match goal with |- context [final (?m ?w0)] =>
        destruct (handleJobError_quiet marshal ErrCreateDirectory w0) as (new & -> & Hnew)
      end.
      exists new. split; [done|]. by apply bookkeeping_no_renames.
Qed.

(** A job whose file does not verify ends failed, with its files where they
    were; only the metadata file is rewritten. *)
Lemma completeJob_not_verified md5hex marshal w :
  verifyFile md5hex (w_fs w) (w_job w) <> None ->
  let w' := final (completeJob md5hex marshal w) in
  Status (w_job w') = "failed" /\
  forall path, path <> MetaPath (w_job w) -> w_fs w' !! path = w_fs w !! path.
Proof.
  intros Hv. cbv zeta.
  destruct (verifyFile md5hex (w_fs w) (w_job w)) as [e|] eqn:He; [|done].
  assert (completeJob md5hex marshal w = handleJobError marshal (ErrVerification e) w)
    as ->.
  { unfold completeJob. unfold bind at 1. cbn [get_job]. unfold bind at 1.
    cbn [get_fs]. by rewrite He. }
  destruct (handleJobError_final marshal (ErrVerification e) w) as [Hst Hfs].
  split; [done|]. intros path Hpath. rewrite Hfs. by rewrite lookup_insert_ne.
Qed.

(** C3: [completeJob] moves a file to the final destination only after
    [verifyFile] succeeded on the temporary file, that is, its size is the
    known total size (when one is known) and its checksum is the supplied one
    (when one is supplied).  When a checksum is supplied and does not match,
    the job ends in status failed, no move is made and nothing appears at
    the destination. *)
Theorem completeJob_moves_only_verified (md5hex : list byte -> string)
    (marshal : ResumableJob -> list byte) (w : World) :
  let job := w_job w in
  let w' := final (completeJob md5hex marshal w) in
  exists new,
    w_log w' = w_log w ++ new /\
    (forall src dst, (src, dst) ∈ renames new ->
       src = TempPath job /\ dst = FilePath job /\ verified md5hex (w_fs w) job) /\
    (forall content,
       w_fs w !! TempPath job = Some content ->
       Checksum job <> "" -> md5hex content <> Checksum job ->
       Status (w_job w') = "failed" /\
       renames new = [] /\
       (FilePath job <> MetaPath job -> w_fs w' !! FilePath job = w_fs w !! FilePath job)).
Proof.
  intros job w'. destruct (completeJob_renames md5hex marshal w) as (new & Hlog & Hren).
  exists new. split; [done|]. split.
  - intros src dst Hin. rewrite Hren in Hin. unfold moves in Hin.
    case_bool_decide as Hv; cbn in Hin; [|by apply elem_of_nil in Hin].
    destruct (w_mkdirOk w && w_renameOk w); [|by apply elem_of_nil in Hin].
    apply list_elem_of_singleton in Hin. injection Hin as -> ->.
    by rewrite <- verifyFile_None.
  - intros content Htemp Hsum Hne.
    pose proof (checksum_mismatch_not_verified md5hex _ _ _ Htemp Hsum Hne) as Hv.
    destruct (completeJob_not_verified md5hex marshal w Hv) as [Hst Hfs].
    split; [done|]. split.
    + rewrite Hren. unfold moves. by rewrite bool_decide_false.
    + intros Hpath. by apply Hfs.
Qed.

(** A job with checksum [aa] whose bytes hash to [bb] *)
Lemma completeJob_moves_only_verified_witness :
  let job := {| ID := "k"; URL := "http://host/a.mp4"; FilePath := "out/a.mp4";
                TempPath := temp_k; MetaPath := meta_k; FileSize := 4; Downloaded := 4;
                Status := "downloading"; Headers := ∅; Checksum := "aa";
                RetryCount := 0; LastError := None; ctx := Some false;
                progressChan := None |} in
  let w := world_of job {[ temp_k := four_bytes ]} (HeadResponds 200 (Some 4) true) [] in
  let w' := final (completeJob (fun _ => "bb") (fun _ => []) w) in
  Status (w_job w') = "failed" /\ renames (w_log w') = [] /\
  w_fs w' !! "out/a.mp4" = None /\ w_fs w' !! temp_k = Some four_bytes.
Proof.
  cbv zeta.
  match goal with |- context [completeJob ?h ?m ?w0] =>
    destruct (completeJob_moves_only_verified h m w0) as (new & Hlog & _ & Hbad)
  end.
  destruct (Hbad four_bytes) as (Hst & Hren & Hfs); [reflexivity | done | done |].
  specialize (Hfs ltac:(by vm_compute)).
  split; [exact Hst|]. split; [reflexivity|]. split; [exact Hfs | reflexivity].
Defined.

(** A verified file is moved, and the job ends completed. *)
Example completeJob_verified_moves :
  let job := set_FileSize 4 (new_job ∅ None) in
  let w := world_of job {[ temp_k := four_bytes ]} (HeadResponds 200 (Some 4) true) [] in
  let o := completeJob (fun _ => "") (fun _ => []) w in
  returned o = true /\ Status (w_job (final o)) = "completed" /\
  renames (w_log (final o)) = [(temp_k, "out/a.mp4")] /\
  w_fs (final o) !! "out/a.mp4" = Some four_bytes /\
  w_fs (final o) !! temp_k = None /\ w_fs (final o) !! meta_k = None.
Proof. by vm_compute. Qed.

(** *** Moves over a whole run *)

Lemma adds_only_weaken (P Q : Event -> Prop) {A} (m : M A) :
  (forall e, P e -> Q e) -> adds_only P m -> adds_only Q m.
Proof.
  intros HPQ Hm w. destruct (Hm w) as (new & Hlog & Hnew).
  exists new. split; [done|]. eapply Forall_impl; [done | apply HPQ].
Qed.

Lemma bookkeeping_no_move e : is_bookkeeping e -> is_no_move e.
Proof. by destruct e. Qed.

Lemma no_move_no_renames new : Forall is_no_move new -> renames new = [].
Proof. induction 1 as [|e l He _ IH]; [done|]. by destruct e. Qed.

Lemma performDownload_no_move marshal rd : adds_only is_no_move (performDownload marshal rd).
Proof.
  unfold performDownload, os_Stat.
  repeat first
    [ progress auto with quiet
    | by apply adds_only_emit
    | by (apply (adds_only_weaken is_bookkeeping); [apply bookkeeping_no_move | auto with quiet])
    | apply adds_only_bind; [| intros ?]
    | case_match ].
Qed.

Lemma getFileInfo_no_move : adds_only is_no_move getFileInfo.
Proof. unfold getFileInfo. quiet. Qed.

Lemma completeJob_parks md5hex marshal w c :
  progressChan (w_job w) = Some c -> chan_full c = true ->
  returned (completeJob md5hex marshal w) = false.
Proof.
  intros Hc Hfull. unfold completeJob.
  unfold bind at 1. cbn [get_job]. unfold bind at 1. cbn [get_fs].
  destruct (verifyFile md5hex (w_fs w) (w_job w)) as [e|] eqn:Hv.
  { by eapply handleJobError_parks. }
  apply verifyFile_None in Hv as (content & Htemp & _).
  unfold bind at 1, os_MkdirAll_Dir at 1.
  destruct (w_mkdirOk w); cbn [negb]; [|by eapply handleJobError_parks].
  unfold bind at 1, os_Rename at 1. cbn [w_fs with_log w_renameOk]. rewrite Htemp.
  destruct (w_renameOk w); cbn [negb]; [|by eapply handleJobError_parks].
  unfold send_blocking, bind. cbn. by rewrite Hc, Hfull.
Qed.

(** C7, at a sink that is busy: the update of [progressWriter.Write] is
    dropped and the writer goes on, but the completion update of
    [completeJob] and the failure update of [handleJobError] are plain
    channel sends, and the goroutine parks on them with the job already
    marked completed or failed. *)
Theorem final_updates_park_on_busy_sink (md5hex : list byte -> string)
    (marshal : ResumableJob -> list byte) :
  let job := set_FileSize 4 (new_job ∅ (Some busy_sink)) in
  let w := world_of job {[ temp_k := four_bytes ]} (HeadResponds 200 (Some 4) true) [] in
  let u := {| pu_JobID := "k"; pu_Downloaded := 1; pu_FileSize := 4;
              pu_Status := "pending" |} in
  returned (Write marshal default_rd 0 [x05%byte] w) = true /\
  last (w_log (final (Write marshal default_rd 0 [x05%byte] w))) = Some (EvDropped u) /\
  returned (completeJob md5hex marshal w) = false /\
  Status (w_job (final (completeJob md5hex marshal w))) = "completed" /\
  returned (handleJobError marshal ErrCopy w) = false /\
  Status (w_job (final (handleJobError marshal ErrCopy w))) = "failed".
Proof. by vm_compute. Qed.

(** *** Cancellation *)

(** C6, at a transfer paused in the middle of the copy: the server announced
    10 bytes, 4 arrived, then [PauseJob] cancelled the context.
    [performDownload] swallows the copy error of a cancelled context and
    returns [nil], [downloadJob] goes on to [completeJob], and the size check
    leaves the job failed, not paused. *)
Theorem downloadJob_pause_mid_copy_fails (md5hex : list byte -> string)
    (marshal : ResumableJob -> list byte) :
  let w := world_of (new_job ∅ None) ∅ (HeadResponds 200 (Some 10) true)
             [Responds 200 [four_bytes] CopyPaused] in
  let o := downloadJob md5hex marshal default_rd w in
  returned o = true /\
  ctx (w_job (final o)) = Some true /\
  Status (w_job (final o)) = "failed" /\
  LastError (w_job (final o)) = Some (ErrVerification (ErrSizeMismatch 10 4)) /\
  w_fs (final o) !! temp_k = Some four_bytes.
Proof. by vm_compute. Qed.

(** The same pause when the server announced no size: the four partial bytes
    pass for the whole file, are moved to the destination, and the job ends
    completed. *)
Lemma downloadJob_pause_mid_copy_completes (md5hex : list byte -> string)
    (marshal : ResumableJob -> list byte) :
  let w := world_of (new_job ∅ None) ∅ (HeadResponds 200 None true)
             [Responds 200 [four_bytes] CopyPaused] in
  let o := downloadJob md5hex marshal default_rd w in
  returned o = true /\
  ctx (w_job (final o)) = Some true /\
  Status (w_job (final o)) = "completed" /\
  w_fs (final o) !! temp_k = None /\
  w_fs (final o) !! "out/a.mp4" = Some four_bytes.
Proof. by vm_compute. Qed.

(** A pause that makes [client.Do] fail, or that arrives during a backoff
    wait, does leave the job paused. *)
Lemma downloadJob_pause_during_request (md5hex : list byte -> string)
    (marshal : ResumableJob -> list byte) :
  let w := world_of (new_job ∅ None) {[ temp_k := four_bytes ]}
             (HeadResponds 200 (Some 10) true) [DoFails true] in
  let o := downloadJob md5hex marshal default_rd w in
  returned o = true /\
  Status (w_job (final o)) = "paused" /\
  LastError (w_job (final o)) = Some ErrCancelled /\
  w_fs (final o) !! temp_k = Some four_bytes.
Proof. by vm_compute. Qed.

(** Without any pause the retry budget is spent, with linear backoff, and
    the job fails. *)
Lemma downloadJob_retries_exhausted (md5hex : list byte -> string)
    (marshal : ResumableJob -> list byte) :
  let w := world_of (new_job ∅ None) ∅ (HeadResponds 200 (Some 10) true) [] in
  let o := downloadJob md5hex marshal default_rd w in
  Status (w_job (final o)) = "failed" /\
  RetryCount (w_job (final o)) = 3 /\
  LastError (w_job (final o)) = Some (ErrAfterAttempts 3) /\
  length (requests (w_log (final o))) = 5%nat /\
  omap (fun e => match e with EvSleep n => Some n | _ => None end) (w_log (final o))
  = [1; 2; 3].
Proof. by vm_compute. Qed.

(** *** The registry *)

Lemma loadExistingJobs_app files1 files2 jobs :
  loadExistingJobs (files1 ++ files2) jobs
  = loadExistingJobs files2 (loadExistingJobs files1 jobs).
Proof. apply foldl_app. Qed.

Lemma loadExistingJobs_not_decoded files :
  forall jobs k, k ∉ decoded_ids files ->
                 loadExistingJobs files jobs !! k = jobs !! k.
Proof.
  unfold loadExistingJobs.
  induction files as [|[f [job|]] files IH]; intros jobs k Hk; cbn in *; [done| |].
  - apply not_elem_of_cons in Hk as [Hne Hk]. rewrite IH by done.
    by rewrite lookup_insert_ne.
  - by apply IH.
Qed.

(** After a restart a job is back in the registry when a metadata file
    decodes to it and no later file decodes to a job of the same id: it is
    stored under its id, with that file as its metadata path, without a
    context and without a channel. *)
Lemma loadExistingJobs_lookup files1 file job files2 jobs :
  ID job ∉ decoded_ids files2 ->
  loadExistingJobs (files1 ++ (file, Some job) :: files2) jobs !! ID job
  = Some (loaded file job).
Proof.
  intros Hlater. rewrite loadExistingJobs_app.
  change (loadExistingJobs ((file, Some job) :: files2) ?m)
    with (loadExistingJobs files2 (<[ID job := loaded file job]> m)).
  rewrite loadExistingJobs_not_decoded by done. apply lookup_insert_eq.
Qed.

Lemma loadExistingJobs_ok files :
  forall jobs, (forall k j, jobs !! k = Some j -> ID j = k) ->
  forall k j, loadExistingJobs files jobs !! k = Some j -> ID j = k.
Proof.
  unfold loadExistingJobs.
  induction files as [|[f [job|]] files IH]; intros jobs Hok; cbn; [done| |].
  - apply IH. intros k j. rewrite lookup_insert. case_decide; [|by apply Hok].
    intros [= <-]. done.
  - by apply IH.
Qed.

Lemma NewResumableDownloader_registry_ok config files :
  registry_ok (NewResumableDownloader config files).
Proof. unfold registry_ok. cbn. by apply loadExistingJobs_ok. Qed.

Lemma StartDownload_registry_ok md5hex rd url filePath headers pc :
  registry_ok rd ->
  registry_ok (StartDownload md5hex rd url filePath headers pc).1.1.
Proof.
  intros Hok. unfold StartDownload, resumeDownload.
  destruct (activeJobs rd !! _) as [job|] eqn:Hjob.
  - repeat case_decide; cbn; try done.
    intros k j. cbn. rewrite lookup_insert. case_decide; [|by apply Hok].
    by intros [= <-].
  - intros k j. cbn. rewrite lookup_insert. case_decide; [|by apply Hok].
    by intros [= <-].
Qed.

Lemma PauseJobIn_registry_ok marshal rd fs jobID rd' fs' :
  registry_ok rd -> PauseJobIn marshal rd fs jobID = Some (rd', fs') -> registry_ok rd'.
Proof.
  intros Hok. unfold PauseJobIn. destruct (activeJobs rd !! jobID) as [job|] eqn:Hjob; [|done].
  intros [= <- <-] k j. cbn. rewrite lookup_insert. case_decide; [|by apply Hok].
  intros [= <-]. subst k. apply Hok in Hjob. unfold cancel. by destruct (ctx job).
Qed.

Lemma DeleteJob_registry_ok rd fs jobID rd' fs' job :
  registry_ok rd -> DeleteJob rd fs jobID = Some (rd', fs', job) -> registry_ok rd'.
Proof.
  intros Hok. unfold DeleteJob. destruct (activeJobs rd !! jobID) as [j0|]; [|done].
  intros [= <- <- <-] k j. cbn. rewrite lookup_delete. case_decide; [done | apply Hok].
Qed.

(** X2.  Whatever branch [StartDownload] takes, the job it returns is the one the
    registry holds afterwards for the pair, and every other entry of the
    registry is as before. *)
Theorem StartDownload_registers md5hex rd url filePath headers pc :
  registry_ok rd ->
  let '(rd', job, _) := StartDownload md5hex rd url filePath headers pc in
  GetJob rd' (generateJobID md5hex url filePath) = Some job /\
  ID job = generateJobID md5hex url filePath /\
  forall k, k <> generateJobID md5hex url filePath -> GetJob rd' k = GetJob rd k.
Proof.
  intros Hok. unfold StartDownload, resumeDownload, GetJob.
  destruct (activeJobs rd !! _) as [job|] eqn:Hjob.
  - pose proof (Hok _ _ Hjob) as Hid.
    repeat case_decide; cbn; try done.
    rewrite Hid, lookup_insert_eq. split_and!; try done.
    intros k Hk. by rewrite lookup_insert_ne.
  - cbn. rewrite lookup_insert_eq. split_and!; try done.
    intros k Hk. by rewrite lookup_insert_ne.
Qed.

Lemma StartDownload_registers_witness :
  let rd := with_activeJobs {[ "k" := done_job ]} default_rd in
  GetJob (StartDownload (fun _ => "n") rd "http://host/b.mp4" "out/b.mp4" ∅ None).1.1 "k"
  = Some done_job.
Proof.
  pose proof (StartDownload_registers (fun _ => "n")
                (with_activeJobs {[ "k" := done_job ]} default_rd)
                "http://host/b.mp4" "out/b.mp4" ∅ None) as H.
  cbv zeta.
  destruct (StartDownload _ _ _ _ _ _) as [[rd' job] spawned] eqn:Hrun.
  destruct H as (_ & _ & Hother).
  - intros k j. cbn. rewrite lookup_singleton. case_decide; [|done]. by intros [= <-].
  - cbn [fst]. rewrite (Hother "k"); [reflexivity | by vm_compute].
Defined.

(** *** The copy into the temporary file *)

Lemma job_frame_refl j : job_frame j j.
Proof. exists (Downloaded j), (progressChan j). by destruct j. Qed.

Lemma job_frame_Downloaded j d : job_frame j (set_Downloaded d j).
Proof. exists d, (progressChan j). by destruct j. Qed.

Lemma job_frame_progressChan j d c pc :
  progressChan j = Some c -> job_frame j (set_progressChan pc (set_Downloaded d j)).
Proof. intros Hc. exists d, pc. split; [done|]. by rewrite Hc. Qed.

Lemma job_frame_trans j1 j2 j3 : job_frame j1 j2 -> job_frame j2 j3 -> job_frame j1 j3.
Proof.
  intros (d & pc & -> & Hpc) (d' & pc' & -> & Hpc'). exists d', pc'.
  split; [done|]. intros Hnone. apply Hpc'. cbn. by apply Hpc.
Qed.

Lemma job_frame_paths j j' :
  job_frame j j' -> TempPath j' = TempPath j /\ MetaPath j' = MetaPath j /\
                    FilePath j' = FilePath j.
Proof. by intros (d & pc & -> & _). Qed.

(** What the copy leaves as it is in the job *)
Lemma job_frame_fields j j' :
  job_frame j j' ->
  ID j' = ID j /\ FileSize j' = FileSize j /\ Status j' = Status j /\
  Checksum j' = Checksum j /\ ctx j' = ctx j /\ Headers j' = Headers j /\
  URL j' = URL j /\ (progressChan j = None -> progressChan j' = None).
Proof. intros (d & pc & -> & Hpc). by split_and!. Qed.

Lemma same_env_refl w : same_env w w.
Proof. by repeat split. Qed.

Lemma same_env_trans w1 w2 w3 : same_env w1 w2 -> same_env w2 w3 -> same_env w1 w3.
Proof. unfold same_env. intros ? ?. destruct_and!. split_and!; congruence. Qed.

(** One [Write] appends its bytes to the temporary file and touches no file
    but that one and the metadata file. *)
Lemma Write_effect marshal rd written p w :
  TempPath (w_job w) <> MetaPath (w_job w) ->
  exists n w',
    Write marshal rd written p w = Ret n w' /\
    w_fs w' !! TempPath (w_job w)
      = Some (default [] (w_fs w !! TempPath (w_job w)) ++ p) /\
    fs_frame w w' /\ job_frame (w_job w) (w_job w') /\ same_env w w' /\
    Downloaded (w_job w') = advance (Downloaded (w_job w)) [p].
Proof.
  intros Hne. unfold Write, send_nonblocking, saveJobMetadata, fs_frame, advance.
  unfold bind, get_job, get_fs, put_fs, modify_job, emit, ret. cbn.
  destruct (bool_decide (len64 p > 0)); cbn.
  - destruct (progressChan (w_job w)) as [c|] eqn:Hc; [destruct (chan_full c)|];
      destruct (bool_decide (wrap64 (written + len64 p) `rem` chunkSize rd = 0));
      cbn; eexists _, _; (split; [reflexivity|]); cbn.
    all: split_and!; try done.
    all: try (by rewrite lookup_insert_ne, lookup_insert_eq).
    all: try (by rewrite lookup_insert_eq).
    all: try (intros path H1 H2; by rewrite ?lookup_insert_ne by done).
    all: first [apply job_frame_Downloaded | by eapply job_frame_progressChan].
  - eexists _, _. split; [reflexivity|]. cbn. split_and!; try done.
    + by rewrite lookup_insert_eq.
    + intros path H1 H2. by rewrite lookup_insert_ne.
    + apply job_frame_refl.
Qed.

Lemma advance_cons d p chunks :
  advance d (p :: chunks)
  = advance (if bool_decide (len64 p > 0) then wrap64 (d + len64 p) else d) chunks.
Proof. reflexivity. Qed.

(** [io.Copy] appends the chunks in their order. *)
Lemma copyChunks_effect marshal rd chunks :
  forall written w old,
  TempPath (w_job w) <> MetaPath (w_job w) ->
  w_fs w !! TempPath (w_job w) = Some old ->
  exists n w',
    copyChunks marshal rd written chunks w = Ret n w' /\
    w_fs w' !! TempPath (w_job w) = Some (old ++ concat chunks) /\
    fs_frame w w' /\ job_frame (w_job w) (w_job w') /\ same_env w w' /\
    Downloaded (w_job w') = advance (Downloaded (w_job w)) chunks.
Proof.
  induction chunks as [|p chunks IH]; intros written w old Hne Hold; cbn [copyChunks].
  - exists written, w. cbn. rewrite app_nil_r.
    split_and!; try done; first [apply job_frame_refl | apply same_env_refl].
  - destruct (Write_effect marshal rd written p w Hne)
      as (n1 & w1 & Hrun1 & Hfs1 & Hframe1 & Hjob1 & Henv1 & Hd1).
    rewrite Hold in Hfs1. cbn [default] in Hfs1.
    destruct (job_frame_paths _ _ Hjob1) as (Ht & Hm & _).
    destruct (IH n1 w1 (old ++ p)) as (n & w' & Hrun & Hfs & Hframe & Hjob & Henv & Hd).
    { by rewrite Ht, Hm. }
    { by rewrite Ht. }
    exists n, w'. unfold bind. rewrite Hrun1, Hrun. split; [done|].
    rewrite Ht in Hfs. split_and!.
    + rewrite Hfs. cbn. by rewrite app_assoc.
    + intros path H1 H2. rewrite Hframe by congruence. by apply Hframe1.
    + by eapply job_frame_trans.
    + by eapply same_env_trans.
    + rewrite Hd, Hd1. reflexivity.
Qed.

Lemma wrap64_id z : - 2 ^ 63 <= z < 2 ^ 63 -> wrap64 z = z.
Proof. intros H. unfold wrap64. rewrite Z.mod_small; lia. Qed.

Lemma len64_nonneg {A} (l : list A) : 0 <= len64 l.
Proof. unfold len64. lia. Qed.

Lemma len64_app {A} (l1 l2 : list A) : len64 (l1 ++ l2) = len64 l1 + len64 l2.
Proof. unfold len64. rewrite length_app. lia. Qed.

(** As long as the total stays an [int64], the byte count advances by the
    bytes written. *)
Lemma advance_sum chunks :
  forall d, 0 <= d -> d + len64 (concat chunks) < 2 ^ 63 ->
            advance d chunks = d + len64 (concat chunks).
Proof.
  induction chunks as [|p chunks IH]; intros d Hd Hsum.
  - cbn. unfold len64. cbn. lia.
  - rewrite advance_cons. cbn [concat] in *. rewrite len64_app in *.
    pose proof (len64_nonneg p). pose proof (len64_nonneg (concat chunks)).
    case_bool_decide.
    + rewrite wrap64_id by lia. rewrite IH; lia.
    + rewrite IH; lia.
Qed.

Lemma performDownload_effect marshal rd w chunks ending rest :
  let job := w_job w in
  let old := default [] (w_fs w !! TempPath job) in
  TempPath job <> MetaPath job ->
  can_request w = true -> w_openOk w = true ->
  w_gets w = Responds (expectedStatus (startByteOf (w_fs w) job)) chunks ending :: rest ->
  exists r w',
    performDownload marshal rd w = Ret r w' /\
    w_fs w' !! TempPath job = Some (old ++ concat chunks) /\
    (forall path, path <> TempPath job -> path <> MetaPath job ->
                  w_fs w' !! path = w_fs w !! path) /\
    (ending = CopyEOF ->
     r = None /\ job_frame (w_job w) (w_job w') /\ w_gets w' = rest /\
     w_mkdirOk w' = w_mkdirOk w /\ w_renameOk w' = w_renameOk w) /\
    (is_Some (w_fs w !! TempPath job) \/ Downloaded job = 0 ->
     len64 (old ++ concat chunks) < 2 ^ 63 ->
     Downloaded (w_job w') = len64 (old ++ concat chunks)).
Proof.
  intros job old Hne Hreq Hopen Hgets. unfold performDownload. subst job.
  rewrite <- (os_Stat_startByteOf w) in Hgets.
  set (st := len64 <$> w_fs w !! TempPath (w_job w)) in *.
  unfold bind at 1. cbn [get_job]. unfold bind at 1.
  change (os_Stat (TempPath (w_job w)) w) with (Ret st w).
  unfold bind at 1.
  set (j1 := match st with Some n => set_Downloaded n (w_job w) | None => w_job w end).
  assert ((match st with
           | Some n => modify_job (set_Downloaded n)
           | None => ret ()
           end) w = Ret () (with_job j1 w)) as ->.
  { subst j1. destruct st; [done|]. by destruct w. }
  unfold bind at 1. cbn [w_urlOk with_job]. fold (can_request w). rewrite Hreq.
  cbn [negb]. unfold bind at 1. cbn [emit]. unfold bind at 1.
  unfold next_get at 1. cbn [w_gets with_log with_job]. rewrite Hgets.
  fold (expectedStatus (default 0 st)). rewrite bool_decide_true by done. cbn [negb].
  unfold bind at 1. cbn [w_openOk with_gets with_log with_job]. rewrite Hopen. cbn [negb].
  unfold bind at 1. cbn [get_fs]. unfold bind at 1. cbn [put_fs].
  cbn [w_fs with_gets with_log with_job with_fs].
  match goal with |- context [bind _ _ ?w0 = _] => set (w2 := w0) end.
  assert (job_frame (w_job w) j1) as Hj1.
  { subst j1. destruct st; [apply job_frame_Downloaded | apply job_frame_refl]. }
  destruct (job_frame_paths _ _ Hj1) as (Ht1 & Hm1 & _).
  destruct (copyChunks_effect marshal rd chunks 0 w2 old)
    as (n & w3 & Hrun & Hfs & Hframe & Hjob & Henv & Hd).
  { subst w2. cbn. congruence. }
  { subst w2. cbn. rewrite Ht1. by rewrite lookup_insert_eq. }
  unfold bind at 1. rewrite Hrun.
  assert (w_job w2 = j1) as Hw2 by done.
  rewrite Hw2, Ht1 in Hfs. rewrite Hw2 in Hjob, Hd. unfold fs_frame in Hframe.
  rewrite Hw2, Ht1, Hm1 in Hframe.
  assert (forall path, path <> TempPath (w_job w) -> path <> MetaPath (w_job w) ->
                       w_fs w3 !! path = w_fs w !! path) as Hframe3.
  { intros path H1 H2. rewrite Hframe by done. subst w2. cbn. by rewrite lookup_insert_ne. }
  assert (is_Some (w_fs w !! TempPath (w_job w)) \/ Downloaded (w_job w) = 0 ->
          len64 (old ++ concat chunks) < 2 ^ 63 ->
          Downloaded (w_job w3) = len64 (old ++ concat chunks)) as Hcount.
  { intros Hstart Hsmall. rewrite Hd, len64_app in *.
    pose proof (len64_nonneg old).
    assert (Downloaded j1 = len64 old) as ->.
    { subst j1 st old. destruct (w_fs w !! TempPath (w_job w)) as [c|]; cbn; [done|].
      destruct Hstart as [[? Hs]|Hs]; [done | by rewrite Hs]. }
    apply advance_sum; [done|lia]. }
  destruct (job_frame_paths _ _ Hjob) as (Ht3 & Hm3 & _).
  destruct ending.
  - unfold bind, ret, get_job. cbn. eexists _, _. split; [done|]. split_and!; try done.
    intros _. destruct Henv as (? & Hg & ? & ? & ? & Hmk & Hmv).
    split_and!; try done;
      first [by eapply job_frame_trans | by rewrite Hg | by rewrite Hmk | by rewrite Hmv].
  - unfold bind, ret, get_job. cbn.
    destruct (ctx_cancelled (w_job w3)); cbn; eexists _, _; (split; [done|]);
      by split_and!.
  - unfold bind at 1.
    destruct (PauseJob_returns marshal w3) as ([] & w4 & Hpause). rewrite Hpause.
    assert (w_fs w4 = <[MetaPath (w_job w3) := marshal (set_Status "paused" (cancel (w_job w3)))]> (w_fs w3)
            /\ Downloaded (w_job w4) = Downloaded (w_job w3)) as [Hfs4 Hd4].
    { unfold PauseJob, saveJobMetadata, bind, emit, modify_job, get_job, get_fs, put_fs in Hpause.
      cbn in Hpause. injection Hpause as <-. cbn. unfold cancel.
      by destruct (ctx (w_job w3)). }
    unfold bind, ret, get_job. cbn.
    destruct (ctx_cancelled (w_job w4)); cbn; eexists _, _; (split; [done|]);
      split_and!; try done.
    all: try (intros H1 H2; rewrite Hd4; by apply Hcount).
    all: try (rewrite Hfs4, Hm3, Hm1, lookup_insert_ne by done; done).
    all: intros path H1 H2; rewrite Hfs4, Hm3, Hm1, lookup_insert_ne by done;
      by apply Hframe3.
Qed.

(** X3.  An attempt that gets the status it expects appends the bytes of the
    response, in their order, to what the temporary file held (to nothing
    when there was no such file) and touches no other file but the metadata
    file; when the body ends regularly it returns no error; and when it
    resumed, or started from a byte count of zero, the byte count of the job
    is the size of the temporary file afterwards. *)
Theorem performDownload_appends marshal rd w chunks ending rest :
  let job := w_job w in
  let old := default [] (w_fs w !! TempPath job) in
  TempPath job <> MetaPath job ->
  can_request w = true -> w_openOk w = true ->
  w_gets w = Responds (expectedStatus (startByteOf (w_fs w) job)) chunks ending :: rest ->
  exists r w',
    performDownload marshal rd w = Ret r w' /\
    w_fs w' !! TempPath job = Some (old ++ concat chunks) /\
    (forall path, path <> TempPath job -> path <> MetaPath job ->
                  w_fs w' !! path = w_fs w !! path) /\
    (ending = CopyEOF -> r = None) /\
    (is_Some (w_fs w !! TempPath job) \/ Downloaded job = 0 ->
     len64 (old ++ concat chunks) < 2 ^ 63 ->
     Downloaded (w_job w') = len64 (old ++ concat chunks)).
Proof.
  intros job old Hne Hreq Hopen Hgets.
  destruct (performDownload_effect marshal rd w chunks ending rest Hne Hreq Hopen Hgets)
    as (r & w' & Hrun & Hfs & Hframe & Heof & Hd).
  exists r, w'. split_and!; try done. intros Hend. by destruct (Heof Hend).
Qed.

(** A resumed attempt: four bytes are there, the server answers 206 with
    two more. *)
Lemma performDownload_appends_witness :
  let w := world_of (new_job ∅ None) {[ temp_k := four_bytes ]}
             (HeadResponds 200 (Some 6) true)
             [Responds 206 [[x05]; [x06]]%byte CopyEOF] in
  exists w', performDownload (fun _ => []) default_rd w = Ret None w' /\
             w_fs w' !! temp_k = Some [x01; x02; x03; x04; x05; x06]%byte /\
             Downloaded (w_job w') = 6.
Proof.
  destruct (performDownload_appends (fun _ => []) default_rd
              (world_of (new_job ∅ None) {[ temp_k := four_bytes ]}
                 (HeadResponds 200 (Some 6) true)
                 [Responds 206 [[x05]; [x06]]%byte CopyEOF])
              [[x05]; [x06]]%byte CopyEOF [])
    as (r & w' & Hrun & Hfs & _ & Hr & Hd); [by vm_compute | done | done | done |].
  exists w'. rewrite (Hr eq_refl) in Hrun. split; [exact Hrun|]. split; [exact Hfs|].
  apply Hd; [left; by eexists | by vm_compute].
Defined.

(** *** Completion *)

Lemma completeJob_effect md5hex marshal w content :
  let job := w_job w in
  distinct_paths job ->
  w_fs w !! TempPath job = Some content ->
  verified md5hex (w_fs w) job ->
  w_mkdirOk w = true -> w_renameOk w = true -> sink_ready job ->
  exists w',
    completeJob md5hex marshal w = Ret () w' /\
    Status (w_job w') = "completed" /\
    w_fs w' !! FilePath job = Some content /\
    w_fs w' !! TempPath job = None /\
    w_fs w' !! MetaPath job = None /\
    forall path, path <> FilePath job -> path <> TempPath job -> path <> MetaPath job ->
                 w_fs w' !! path = w_fs w !! path.
Proof.
  intros job (Htm & Htf & Hfm) Htemp Hv Hmk Hmv Hsink. subst job.
  apply verifyFile_None in Hv.
  unfold completeJob, os_MkdirAll_Dir, os_Rename, saveJobMetadata, send_blocking, os_Remove.
  unfold bind, get_job, get_fs, put_fs, modify_job, emit, ret. cbn.
  rewrite Hv, Hmk. cbn. rewrite Htemp, Hmv. cbn.
  unfold sink_ready in Hsink.
  destruct (progressChan (w_job w)) as [c|]; [rewrite Hsink|]; cbn.
  all: eexists; split; [reflexivity|]; cbn; split_and!; try done.
  all: try (by rewrite lookup_delete_eq).
  all: try (by rewrite lookup_delete_ne, lookup_insert_ne, lookup_insert_eq by done).
  all: try (rewrite lookup_delete_ne, lookup_insert_ne, lookup_insert_ne,
              lookup_delete_eq by done; done).
  all: intros path H1 H2 H3;
    by rewrite lookup_delete_ne, lookup_insert_ne, lookup_insert_ne, lookup_delete_ne by done.
Qed.

(** X4.  When the temporary file verifies, the directory can be made, the move
    succeeds and the sink is not busy, [completeJob] returns with the job
    completed, the bytes of the temporary file at the final path, and the
    temporary file and the metadata file gone; no other file changes. *)
Theorem completeJob_success md5hex marshal w content :
  let job := w_job w in
  distinct_paths job ->
  w_fs w !! TempPath job = Some content ->
  verified md5hex (w_fs w) job ->
  w_mkdirOk w = true -> w_renameOk w = true -> sink_ready job ->
  exists w',
    completeJob md5hex marshal w = Ret () w' /\
    Status (w_job w') = "completed" /\
    w_fs w' !! FilePath job = Some content /\
    w_fs w' !! TempPath job = None /\
    w_fs w' !! MetaPath job = None /\
    forall path, path <> FilePath job -> path <> TempPath job -> path <> MetaPath job ->
                 w_fs w' !! path = w_fs w !! path.
Proof. apply completeJob_effect. Qed.

Lemma completeJob_success_witness :
  let job := set_FileSize 4 (new_job ∅ None) in
  let w := world_of job {[ temp_k := four_bytes ]} (HeadResponds 200 (Some 4) true) [] in
  exists w', completeJob (fun _ => "") (fun _ => []) w = Ret () w' /\
             Status (w_job w') = "completed" /\
             w_fs w' !! "out/a.mp4" = Some four_bytes.
Proof.
  destruct (completeJob_success (fun _ => "") (fun _ => [])
              (world_of (set_FileSize 4 (new_job ∅ None)) {[ temp_k := four_bytes ]}
                 (HeadResponds 200 (Some 4) true) [])
              four_bytes)
    as (w' & Hrun & Hst & Hfs & _).
  - by vm_compute.
  - done.
  - exists four_bytes. by vm_compute.
  - done.
  - done.
  - done.
  - exists w'. split; [exact Hrun|]. split; [exact Hst | exact Hfs].
Defined.

(** *** A whole run *)

(** X5.  A run in which everything goes well, for a job that reports to no
    progress channel ([progressChan] is nil), whose three paths differ, with
    no file yet at its final path, and with a retry limit that is not
    negative: the URL parses, the temporary file can be opened, the
    directory made and the file moved; the probe answers 200, the fetch
    answers with the status the resume offset calls for and its body ends
    regularly; the bytes then in the temporary file have the size the job
    then expects (the announced length, else its [FileSize]; checked when
    positive) and the supplied checksum (when one is supplied).
    Then [downloadJob] returns, the job ends completed, the final file holds
    what the temporary file held before followed by the bytes of the
    response, and the temporary file and the metadata file are gone. *)
Theorem downloadJob_completes md5hex marshal rd w contentLength acceptRanges chunks rest :
  let job := w_job w in
  let old := default [] (w_fs w !! TempPath job) in
  let size := default (FileSize job) contentLength in
  distinct_paths job -> is_Some (ctx job) -> progressChan job = None ->
  w_urlOk w = true -> w_openOk w = true -> w_mkdirOk w = true -> w_renameOk w = true ->
  0 <= maxRetries rd ->
  w_fs w !! FilePath job = None ->
  w_head w = HeadResponds StatusOK contentLength acceptRanges ->
  w_gets w = Responds (expectedStatus (startByteOf (w_fs w) job)) chunks CopyEOF :: rest ->
  (size > 0 -> len64 (old ++ concat chunks) = size) ->
  (Checksum job <> "" -> md5hex (old ++ concat chunks) = Checksum job) ->
  exists w',
    downloadJob md5hex marshal rd w = Ret () w' /\
    Status (w_job w') = "completed" /\
    w_fs w' !! FilePath job = Some (old ++ concat chunks) /\
    w_fs w' !! TempPath job = None /\
    w_fs w' !! MetaPath job = None.
Proof.
  intros job old size (Htm & Htf & Hfm) [c Hctx] Hsink Hurl Hopen Hmk Hmv Hretries
    Hfinal Hhead Hgets Hsize Hsum.
  subst job size.
  pose proof (not_eq_sym Htm) as Hmt. pose proof (not_eq_sym Hfm) as Hmf.
  unfold downloadJob, saveJobMetadata, getFileInfo.
  unfold bind, modify_job, get_job, get_fs, put_fs, emit, ret. cbn.
  rewrite Hctx, Hurl. rewrite (bool_decide_true (is_Some (Some c))) by eauto. cbn.
  rewrite Hhead. cbn.
  replace (Z.to_nat (maxRetries rd + 1)) with (S (Z.to_nat (maxRetries rd))) by lia.
  rewrite (bool_decide_true (StatusOK = StatusOK)) by done. cbn [negb].
  set (j2 := match contentLength with
             | Some s => set_FileSize s (set_Status "initializing" (w_job w))
             | None => set_Status "initializing" (w_job w)
             end).
  set (fs1 := <[MetaPath (w_job w) := marshal (set_Status "initializing" (w_job w))]>
                (w_fs w)).
  match goal with |- context [match ?m ?w1 with Ret _ w'0 => Ret None w'0 | Blocked b => _ end] =>
    assert (m w1 = Ret () (with_job j2 w1)) as ->
  end.
  { subst j2. by destruct contentLength. }
  assert (FilePath j2 = FilePath (w_job w) /\ TempPath j2 = TempPath (w_job w) /\
          MetaPath j2 = MetaPath (w_job w) /\ ctx j2 = Some c /\
          progressChan j2 = None /\ Checksum j2 = Checksum (w_job w) /\
          FileSize j2 = default (FileSize (w_job w)) contentLength)
    as (Hf2 & Ht2 & Hm2 & Hc2 & Hp2 & Hs2 & Hz2).
  { subst j2. by destruct contentLength. }
  cbn. unfold fileExistsAndValid. cbn. subst fs1. rewrite Hf2, lookup_insert_ne by done.
  rewrite Hfinal.
  cbn [retryLoop]. rewrite (bool_decide_false (0 > 0)) by lia.
  unfold bind at 1. cbn [ret]. unfold bind at 1.
  match goal with |- context [performDownload marshal rd ?w0] => set (w3 := w0) end.
  assert (w_job w3 = set_Status "downloading" j2) as Hj3 by done.
  assert (w_fs w3 = <[MetaPath j2 := marshal (set_Status "downloading" j2)]>
                      (<[MetaPath (w_job w) :=
                           marshal (set_Status "initializing" (w_job w))]> (w_fs w)))
    as Hfs3 by done.
  assert (w_gets w3 = w_gets w /\ w_urlOk w3 = w_urlOk w /\ w_openOk w3 = w_openOk w /\
          w_mkdirOk w3 = w_mkdirOk w /\ w_renameOk w3 = w_renameOk w)
    as (Hg3 & Hu3 & Ho3 & Hmk3 & Hmv3) by done.
  clearbody w3.
  assert (w_fs w3 !! TempPath (w_job w) = w_fs w !! TempPath (w_job w)) as Htemp3.
  { rewrite Hfs3, Hm2. by rewrite !lookup_insert_ne by done. }
  destruct (performDownload_effect marshal rd w3 chunks CopyEOF rest)
    as (r & w4 & Hrun & Hfs4 & Hframe4 & Heof & _).
  { rewrite Hj3. cbn. by rewrite Ht2, Hm2. }
  { unfold can_request. rewrite Hj3, Hu3, Hurl. cbn. rewrite Hc2.
    by rewrite bool_decide_true by eauto. }
  { by rewrite Ho3. }
  { rewrite Hg3, Hgets. unfold startByteOf. rewrite Hj3. cbn. by rewrite Ht2, Htemp3. }
  destruct (Heof eq_refl) as (-> & Hjob4 & Hg4 & Hmk4 & Hmv4).
  rewrite Hrun. rewrite Hj3 in Hfs4, Hframe4, Hjob4. cbn in Hfs4, Hframe4.
  rewrite Ht2 in Hfs4, Hframe4. rewrite Hm2 in Hframe4. rewrite Htemp3 in Hfs4. fold old in Hfs4.
  destruct (job_frame_paths _ _ Hjob4) as (Ht4 & Hm4 & Hf4). cbn in Ht4, Hm4, Hf4.
  destruct (job_frame_fields _ _ Hjob4) as (_ & Hz4 & _ & Hs4 & _ & _ & _ & Hp4).
  cbn in Hz4, Hs4, Hp4.
  destruct (completeJob_effect md5hex marshal w4 (old ++ concat chunks))
    as (w5 & Hrun5 & Hst5 & Hfile5 & Htemp5 & Hmeta5 & _).
  { unfold distinct_paths. rewrite Ht4, Hm4, Hf4, Ht2, Hm2, Hf2. done. }
  { by rewrite Ht4, Ht2. }
  { exists (old ++ concat chunks). rewrite Ht4, Ht2, Hz4, Hz2, Hs4, Hs2. done. }
  { by rewrite Hmk4, Hmk3. }
  { by rewrite Hmv4, Hmv3. }
  { unfold sink_ready. by rewrite (Hp4 Hp2). }
  exists w5. rewrite Hf4, Ht4, Hm4, Hf2, Ht2, Hm2 in *. done.
Qed.

(** A resumed run: four bytes are there, the probe announces six, the fetch
    answers 206 with the two that are missing. *)
Lemma downloadJob_completes_witness :
  let w := world_of (new_job ∅ None) {[ temp_k := four_bytes ]}
             (HeadResponds 200 (Some 6) true)
             [Responds 206 [[x05]; [x06]]%byte CopyEOF] in
  exists w', downloadJob (fun _ => "") (fun _ => []) default_rd w = Ret () w' /\
             Status (w_job w') = "completed" /\
             w_fs w' !! "out/a.mp4" = Some [x01; x02; x03; x04; x05; x06]%byte.
Proof.
  destruct (downloadJob_completes (fun _ => "") (fun _ => []) default_rd
              (world_of (new_job ∅ None) {[ temp_k := four_bytes ]}
                 (HeadResponds 200 (Some 6) true)
                 [Responds 206 [[x05]; [x06]]%byte CopyEOF])
              (Some 6) true [[x05]; [x06]]%byte [])
    as (w' & Hrun & Hst & Hfs & _).
  - by vm_compute.
  - by eexists.
  - reflexivity.
  - reflexivity.
  - reflexivity.
  - reflexivity.
  - reflexivity.
  - by vm_compute.
  - reflexivity.
  - reflexivity.
  - reflexivity.
  - intros _. reflexivity.
  - intros H. by vm_compute in H.
  - exists w'. split; [exact Hrun|]. split; [exact Hst | exact Hfs].
Defined.

Lemma handleJobError_effect marshal e w :
  let w' := final (handleJobError marshal e w) in
  Status (w_job w') = "failed" /\ LastError (w_job w') = Some e /\
  requests (w_log w') = requests (w_log w) /\
  forall path, path <> MetaPath (w_job w) -> w_fs w' !! path = w_fs w !! path.
Proof.
  unfold handleJobError, send_blocking, saveJobMetadata.
  unfold bind, modify_job, get_job, get_fs, put_fs, emit, ret. cbn.
  destruct (progressChan (w_job w)) as [c|]; [destruct (chan_full c)|]; cbn.
  all: split_and!; try done.
  all: try (rewrite !requests_app; cbn; by rewrite !app_nil_r).
  all: intros path Hpath; by rewrite lookup_insert_ne.
Qed.

(** X6.  When the probe fails (no request can be built, the transport fails, or
    the status is not 200) the run ends there: the job is failed with the
    probe's error, no fetch is made, and no file but the metadata file
    changes. *)
Theorem downloadJob_probe_failure md5hex marshal rd w :
  probe_fails w ->
  let w' := final (downloadJob md5hex marshal rd w) in
  Status (w_job w') = "failed" /\
  (exists e, LastError (w_job w') = Some (ErrFileInfo e)) /\
  requests (w_log w') =
    requests (w_log w) ++ (if can_request w then [headRequest (w_job w)] else []) /\
  forall path, path <> MetaPath (w_job w) -> w_fs w' !! path = w_fs w !! path.
Proof.
  intros Hfail. cbv zeta.
  unfold downloadJob, saveJobMetadata, getFileInfo.
  unfold bind, modify_job, get_job, get_fs, put_fs, emit, ret. cbn.
  fold (can_request w).
  assert (forall e w0,
            w_job w0 = set_Status "initializing" (w_job w) ->
            requests (w_log w0) =
              requests (w_log w) ++ (if can_request w then [headRequest (w_job w)] else []) ->
            (forall path, path <> MetaPath (w_job w) -> w_fs w0 !! path = w_fs w !! path) ->
            let w' := final (handleJobError marshal (ErrFileInfo e) w0) in
            Status (w_job w') = "failed" /\
            (exists e, LastError (w_job w') = Some (ErrFileInfo e)) /\
            requests (w_log w') =
              requests (w_log w) ++
              (if can_request w then [headRequest (w_job w)] else []) /\
            forall path, path <> MetaPath (w_job w) -> w_fs w' !! path = w_fs w !! path)
    as Hend.
  { intros e w0 Hj0 Hlog0 Hfs0.
    destruct (handleJobError_effect marshal (ErrFileInfo e) w0) as (Hst & Hle & Hreq & Hfs).
    cbv zeta. split; [done|]. split; [eauto|]. split; [congruence|].
    intros path Hpath. rewrite Hfs, Hfs0; [done | done |]. by rewrite Hj0. }
  destruct (can_request w) eqn:Hreq; cbn [negb].
  - unfold with_log, with_fs, with_job; cbn [w_head w_log w_fs w_job].
    destruct Hfail as [?|[Hhead|(status & cl & ar & Hhead & Hne)]]; [congruence| |];
      rewrite Hhead; rewrite ?bool_decide_false by done; cbn [negb final].
    all: apply Hend; [done | |].
    all: try (cbn; rewrite !requests_app; cbn; by rewrite app_nil_r).
    all: intros path Hpath; cbn; by rewrite lookup_insert_ne.
  - apply Hend; [done | |].
    + cbn. rewrite !requests_app. cbn. by rewrite app_nil_r.
    + intros path Hpath. cbn. by rewrite lookup_insert_ne.
Qed.

Lemma downloadJob_probe_failure_witness :
  let w := world_of (new_job ∅ None) ∅ (HeadResponds 404 None false) [] in
  let w' := final (downloadJob (fun _ => "") (fun _ => []) default_rd w) in
  Status (w_job w') = "failed" /\ requests (w_log w') = [headRequest (new_job ∅ None)].
Proof.
  pose proof (downloadJob_probe_failure (fun _ => "") (fun _ => []) default_rd
                (world_of (new_job ∅ None) ∅ (HeadResponds 404 None false) [])) as H.
  cbv zeta in *.
  destruct H as (Hst & _ & Hreq & _).
  - right; right. exists 404, None, false. split; [reflexivity | done].
  - split; [exact Hst | exact Hreq].
Defined.

(** *** The number of requests of a run *)

Lemma no_request_no_requests new : Forall is_no_request new -> requests new = [].
Proof. induction 1 as [|e l He _ IH]; [done|]. by destruct e. Qed.

Lemma bookkeeping_no_request e : is_bookkeeping e -> is_no_request e.
Proof. by destruct e. Qed.

Lemma requests_at_most_quiet {A} (m : M A) :
  adds_only is_no_request m -> requests_at_most 0 m.
Proof.
  intros Hm w. destruct (Hm w) as (new & -> & Hnew).
  rewrite requests_app, (no_request_no_requests new Hnew), app_nil_r. lia.
Qed.

Lemma requests_at_most_mono {A} k k' (m : M A) :
  (k <= k')%nat -> requests_at_most k m -> requests_at_most k' m.
Proof. intros Hk Hm w. specialize (Hm w). lia. Qed.

Lemma requests_at_most_bind {A B} k1 k2 (m : M A) (f : A -> M B) :
  requests_at_most k1 m -> (forall a, requests_at_most k2 (f a)) ->
  requests_at_most (k1 + k2) (bind m f).
Proof.
  intros Hm Hf w. unfold bind. specialize (Hm w).
  destruct (m w) as [a w'|w']; cbn in *; [|lia].
  specialize (Hf a w'). lia.
Qed.

Lemma requests_at_most_emit e : requests_at_most 1 (emit e).
Proof. intros w. cbn. rewrite requests_app, length_app. destruct e; cbn; lia. Qed.

Lemma os_Rename_no_request src dst : adds_only is_no_request (os_Rename src dst).
Proof.
  intros w. unfold os_Rename.
  destruct (w_fs w !! src); [destruct (w_renameOk w)|]; cbn.
  - eexists [_]. split; [done | by repeat constructor].
  - exists []. by rewrite app_nil_r.
  - exists []. by rewrite app_nil_r.
Qed.

Lemma os_MkdirAll_Dir_no_request path : adds_only is_no_request (os_MkdirAll_Dir path).
Proof.
  intros w. unfold os_MkdirAll_Dir. destruct (w_mkdirOk w); cbn.
  - eexists [_]. split; [done | by repeat constructor].
  - exists []. by rewrite app_nil_r.
Qed.

#[local] Hint Resolve os_Rename_no_request os_MkdirAll_Dir_no_request : quiet.

Ltac noreq :=
  repeat first
    [ progress auto with quiet
    | by apply adds_only_emit
    | by (apply (adds_only_weaken is_bookkeeping);
          [apply bookkeeping_no_request | auto with quiet])
    | apply adds_only_bind; [| intros ?]
    | case_match ].

Ltac no_requests :=
  first [ apply requests_at_most_quiet; by noreq
        | apply (requests_at_most_mono 0); [lia | apply requests_at_most_quiet; by noreq] ].

Lemma completeJob_no_request md5hex marshal :
  adds_only is_no_request (completeJob md5hex marshal).
Proof. unfold completeJob, os_Remove. noreq. Qed.

#[local] Hint Resolve completeJob_no_request : quiet.

Lemma performDownload_budget marshal rd : requests_at_most 1 (performDownload marshal rd).
Proof.
  intros w. rewrite performDownload_requests, length_app.
  destruct (can_request w); cbn; lia.
Qed.

Lemma getFileInfo_budget : requests_at_most 1 getFileInfo.
Proof.
  unfold getFileInfo.
  apply (requests_at_most_bind 0 1); [no_requests | intros j].
  apply (requests_at_most_bind 0 1); [no_requests | intros urlOk].
  case_match; [no_requests|].
  apply (requests_at_most_bind 1 0); [apply requests_at_most_emit | intros _].
  no_requests.
Qed.

Lemma retryLoop_budget md5hex marshal rd n :
  forall attempt, requests_at_most n (retryLoop md5hex marshal rd n attempt).
Proof.
  induction n as [|n IH]; intros attempt; cbn [retryLoop]; [no_requests|].
  apply (requests_at_most_bind 0 (S n)); [no_requests | intros _].
  apply (requests_at_most_bind 1 n); [apply performDownload_budget | intros err].
  destruct err as [e|]; [|no_requests].
  apply (requests_at_most_bind 0 n); [no_requests | intros j].
  case_match; [no_requests|].
  apply (requests_at_most_bind 0 n); [no_requests | intros _].
  case_match; [|apply IH].
  apply (requests_at_most_bind 0 n); [no_requests | intros paused].
  destruct paused; [no_requests|].
  apply (requests_at_most_bind 0 n); [no_requests | intros _]. apply IH.
Qed.

(** X7.  A run hands at most [maxRetries + 2] requests to the client, whatever
    the server and the caller do: the probe and one fetch for each of the
    [maxRetries + 1] attempts (the probe alone when [maxRetries] is
    negative). *)
Theorem downloadJob_request_budget md5hex marshal rd :
  requests_at_most (1 + Z.to_nat (maxRetries rd + 1)) (downloadJob md5hex marshal rd).
Proof.
  unfold downloadJob. set (n := Z.to_nat _).
  apply (requests_at_most_bind 0 (1 + n)); [no_requests | intros _].
  apply (requests_at_most_bind 0 (1 + n)); [no_requests | intros _].
  apply (requests_at_most_bind 1 n); [apply getFileInfo_budget | intros err].
  destruct err; [no_requests|].
  apply (requests_at_most_bind 0 n); [no_requests | intros j].
  apply (requests_at_most_bind 0 n); [no_requests | intros fs].
  case_match; [no_requests|].
  apply (requests_at_most_bind 0 n); [no_requests | intros _].
  apply (requests_at_most_bind 0 n); [no_requests | intros _].
  apply retryLoop_budget.
Qed.

(** *** The identity of the job over a run *)

Lemma same_identity_refl w : same_identity w w.
Proof. by unfold same_identity. Qed.

Lemma keeps_identity_ret {A} (a : A) : keeps_identity (ret a).
Proof. intros w. apply same_identity_refl. Qed.

Lemma keeps_identity_bind {A B} (m : M A) (k : A -> M B) :
  keeps_identity m -> (forall a, keeps_identity (k a)) -> keeps_identity (bind m k).
Proof.
  intros Hm Hk w. unfold bind. specialize (Hm w).
  destruct (m w) as [a w'|w']; cbn in *; [|done].
  destruct Hm as (?&?&?&?&?&?&?), (Hk a w') as (?&?&?&?&?&?&?).
  unfold same_identity. split_and!; congruence.
Qed.

Lemma keeps_identity_modify_job f :
  (forall j, ID (f j) = ID j /\ URL (f j) = URL j /\ FilePath (f j) = FilePath j /\
             TempPath (f j) = TempPath j /\ MetaPath (f j) = MetaPath j /\
             Headers (f j) = Headers j /\ Checksum (f j) = Checksum j) ->
  keeps_identity (modify_job f).
Proof. intros Hf w. apply Hf. Qed.

Lemma keeps_identity_same_job {A} (m : M A) :
  (forall w, w_job (final (m w)) = w_job w) -> keeps_identity m.
Proof. intros Hm w. unfold same_identity. by rewrite Hm. Qed.

Lemma keeps_identity_next_get : keeps_identity next_get.
Proof. apply keeps_identity_same_job. intros w. unfold next_get. by destruct (w_gets w). Qed.

Lemma keeps_identity_next_wait : keeps_identity next_wait.
Proof. apply keeps_identity_same_job. intros w. unfold next_wait. by destruct (w_waits w). Qed.

Lemma keeps_identity_os_Rename src dst : keeps_identity (os_Rename src dst).
Proof.
  apply keeps_identity_same_job. intros w. unfold os_Rename.
  destruct (w_fs w !! src); [|done]. by destruct (w_renameOk w).
Qed.

Lemma keeps_identity_os_MkdirAll_Dir path : keeps_identity (os_MkdirAll_Dir path).
Proof.
  apply keeps_identity_same_job. intros w. unfold os_MkdirAll_Dir. by destruct (w_mkdirOk w).
Qed.

Create HintDb ident discriminated.
#[local] Hint Resolve keeps_identity_ret keeps_identity_next_get keeps_identity_next_wait
  keeps_identity_os_Rename keeps_identity_os_MkdirAll_Dir : ident.
#[local] Hint Extern 1 (keeps_identity (modify_job _)) =>
  apply keeps_identity_modify_job;
  let j := fresh "j" in intros j; try destruct (ctx j); by split_and! : ident.
#[local] Hint Extern 2 (keeps_identity _) => (by apply keeps_identity_same_job) : ident.

Ltac ident :=
  repeat first
    [ progress auto with ident
    | apply keeps_identity_bind; [| intros ?]
    | case_match ].

Lemma saveJobMetadata_identity marshal : keeps_identity (saveJobMetadata marshal).
Proof. unfold saveJobMetadata. ident. Qed.

Lemma send_blocking_identity u : keeps_identity (send_blocking u).
Proof. unfold send_blocking. ident. Qed.

Lemma send_nonblocking_identity u : keeps_identity (send_nonblocking u).
Proof. unfold send_nonblocking. ident. Qed.

#[local] Hint Resolve saveJobMetadata_identity send_blocking_identity
  send_nonblocking_identity : ident.

Lemma PauseJob_identity marshal : keeps_identity (PauseJob marshal).
Proof. unfold PauseJob. ident. Qed.

Lemma handleJobError_identity marshal e : keeps_identity (handleJobError marshal e).
Proof. unfold handleJobError. ident. Qed.

Lemma Write_identity marshal rd written p : keeps_identity (Write marshal rd written p).
Proof. unfold Write. ident. Qed.

#[local] Hint Resolve PauseJob_identity handleJobError_identity Write_identity : ident.

Lemma copyChunks_identity marshal rd chunks :
  forall written, keeps_identity (copyChunks marshal rd written chunks).
Proof. induction chunks as [|p rest IH]; intros written; cbn; ident. Qed.

#[local] Hint Resolve copyChunks_identity : ident.

Lemma performDownload_identity marshal rd : keeps_identity (performDownload marshal rd).
Proof. unfold performDownload, os_Stat. ident. Qed.

Lemma getFileInfo_identity : keeps_identity getFileInfo.
Proof. unfold getFileInfo. ident. Qed.

Lemma completeJob_identity md5hex marshal : keeps_identity (completeJob md5hex marshal).
Proof. unfold completeJob, os_Remove. ident. Qed.

#[local] Hint Resolve performDownload_identity getFileInfo_identity
  completeJob_identity : ident.

Lemma retryLoop_identity md5hex marshal rd n :
  forall attempt, keeps_identity (retryLoop md5hex marshal rd n attempt).
Proof.
  induction n as [|n IH]; intros attempt; cbn [retryLoop]; ident.
  all: apply IH.
Qed.

(** X8.  A run never changes what identifies its job: the id, the address, the
    three paths, the headers and the checksum at the end of a run, parked or
    returned, are those it started with. *)
Theorem downloadJob_keeps_identity md5hex marshal rd :
  keeps_identity (downloadJob md5hex marshal rd).
Proof. unfold downloadJob. ident. apply retryLoop_identity. Qed.

Lemma downloadJob_keeps_ID md5hex marshal rd w :
  ID (w_job (final (downloadJob md5hex marshal rd w))) = ID (w_job w).
Proof.
  unfold downloadJob.
  assert (keeps_identity (downloadJob md5hex marshal rd)) as H.
  { unfold downloadJob. ident. apply retryLoop_identity. }
  apply (H w).
Qed.

(** *** What is moved to the final path *)

Lemma moves_only_verified_quiet md5hex {A} (m : M A) :
  adds_only is_no_move m -> moves_only_verified md5hex m.
Proof.
  intros Hm w _. destruct (Hm w) as (new & Hlog & Hnew). exists new. split; [done|].
  left. by apply no_move_no_renames.
Qed.

Lemma moves_only_verified_bind md5hex {A B} (m : M A) (k : A -> M B) :
  adds_only is_no_move m -> keeps_identity m ->
  (forall a, moves_only_verified md5hex (k a)) ->
  moves_only_verified md5hex (bind m k).
Proof.
  intros Hm Hid Hk w Hpaths. unfold bind.
  destruct (Hm w) as (n1 & E1 & F1). specialize (Hid w).
  apply no_move_no_renames in F1.
  destruct (m w) as [a w1|w1]; cbn in *; [|exists n1; split; [done | by left]].
  destruct Hid as (_ & _ & Hf & Ht & Hmeta & _).
  destruct (Hk a w1) as (n2 & E2 & H2); [congruence|].
  exists (n1 ++ n2). rewrite E2, E1, app_assoc. split; [done|].
  rewrite renames_app, F1. cbn [app]. by rewrite <- Ht, <- Hf.
Qed.

Lemma completeJob_moves md5hex marshal :
  moves_only_verified md5hex (completeJob md5hex marshal).
Proof.
  intros w Hpaths. pose proof (not_eq_sym Hpaths) as Hmf.
  destruct (completeJob_renames md5hex marshal w) as (new & Hlog & Hren).
  exists new. split; [done|]. rewrite Hren. unfold moves.
  case_bool_decide as Hv; cbn [andb]; [|by left].
  destruct (w_mkdirOk w) eqn:Hmk; cbn [andb]; [|by left].
  destruct (w_renameOk w) eqn:Hmv; [|by left].
  right. split; [done|].
  destruct (proj1 (verifyFile_None _ _ _) Hv) as (content & Htemp & Hsize & Hsum).
  unfold final_verified.
  unfold completeJob, os_MkdirAll_Dir, os_Rename, saveJobMetadata, send_blocking, os_Remove.
  unfold bind, get_job, get_fs, put_fs, modify_job, emit, ret. cbn.
  rewrite Hv, Hmk. cbn. rewrite Htemp, Hmv. cbn.
  destruct (progressChan (w_job w)) as [c|]; [destruct (chan_full c)|]; cbn.
  all: exists content; split; [|by split].
  all: rewrite ?lookup_delete_ne by done.
  all: by rewrite lookup_insert_ne, lookup_insert_eq by done.
Qed.

Ltac no_move :=
  first [ apply performDownload_no_move | apply getFileInfo_no_move
        | apply (adds_only_weaken is_bookkeeping); [apply bookkeeping_no_move | by quiet] ].

Ltac moves :=
  repeat first
    [ apply completeJob_moves
    | by (apply moves_only_verified_quiet; no_move)
    | apply moves_only_verified_bind; [by no_move | by ident | intros ?]
    | case_match ].

Lemma retryLoop_moves md5hex marshal rd n :
  forall attempt, moves_only_verified md5hex (retryLoop md5hex marshal rd n attempt).
Proof.
  induction n as [|n IH]; intros attempt; cbn [retryLoop]; moves.
  all: apply IH.
Qed.

(** X1.  Only a verified file is moved to the final path.  Over a whole run
    of [downloadJob], retries included, for a job whose final path is not
    its metadata path: the run makes no move or exactly one; that one is the
    move of the job's temporary file to its final path; and what is at the
    final path when the run ends, returned or parked, passes the checks of
    [verifyFile]: it has the size [FileSize] when that is known and the
    checksum [Checksum] when one was supplied. *)
Theorem downloadJob_moves_verified md5hex marshal rd w :
  FilePath (w_job w) <> MetaPath (w_job w) ->
  let w' := final (downloadJob md5hex marshal rd w) in
  exists new,
    w_log w' = w_log w ++ new /\
    (renames new = [] \/
     renames new = [(TempPath (w_job w), FilePath (w_job w))] /\
     final_verified md5hex w').
Proof.
  assert (moves_only_verified md5hex (downloadJob md5hex marshal rd)) as H.
  { unfold downloadJob. moves. apply retryLoop_moves. }
  apply H.
Qed.

(** The resumed run of two more bytes: one move, and the six bytes at the
    final path have the announced size. *)
Lemma downloadJob_moves_verified_witness :
  let w := world_of (new_job ∅ None) {[ temp_k := four_bytes ]}
             (HeadResponds 200 (Some 6) true)
             [Responds 206 [[x05]; [x06]]%byte CopyEOF] in
  let w' := final (downloadJob (fun _ => "") (fun _ => []) default_rd w) in
  renames (w_log w') = [(temp_k, "out/a.mp4")] /\ final_verified (fun _ => "") w'.
Proof.
  cbv zeta.
  destruct (downloadJob_moves_verified (fun _ => "") (fun _ => []) default_rd
              (world_of (new_job ∅ None) {[ temp_k := four_bytes ]}
                 (HeadResponds 200 (Some 6) true)
                 [Responds 206 [[x05]; [x06]]%byte CopyEOF]))
    as (new & Hlog & [Hnone | [Hren Hfinal]]).
  - by vm_compute.
  - exfalso. apply (f_equal renames) in Hlog. rewrite renames_app, Hnone in Hlog.
    by vm_compute in Hlog.
  - split; [by vm_compute | exact Hfinal].
Defined.

Lemma resumeDownload_registry_ok rd job pc :
  registry_ok rd -> registry_ok (resumeDownload rd job pc).1.1.
Proof.
  intros Hok. unfold resumeDownload. repeat case_decide; cbn; try done.
  intros k j. cbn. rewrite lookup_insert. case_decide; [|by apply Hok].
  by intros [= <-].
Qed.

(** X9.  Every job of the registry is stored under its own id, in every registry
    a program can get to: the one [NewResumableDownloader] loads from the
    metadata files has the property, and [StartDownload], [ResumeDownload],
    [PauseJob], [DeleteJob] and the goroutines keep it. *)
Theorem registry_keys_are_job_ids md5hex marshal rd :
  reachable md5hex marshal rd -> registry_ok rd.
Proof.
  induction 1 as [config files | rd url filePath headers pc _ IH
                 | rd jobID pc r _ IH Hr | rd fs jobID rd' fs' _ IH Hp
                 | rd fs jobID rd' fs' job _ IH Hd | rd jobID w _ IH Hj].
  - apply NewResumableDownloader_registry_ok.
  - by apply StartDownload_registry_ok.
  - unfold ResumeDownload in Hr. destruct (activeJobs rd !! jobID) as [job|]; [|done].
    injection Hr as <-. by apply resumeDownload_registry_ok.
  - by eapply PauseJobIn_registry_ok.
  - by eapply DeleteJob_registry_ok.
  - intros k j. cbn -[downloadJob]. rewrite lookup_insert. case_decide; [|by apply IH].
    intros [= <-]. subst k. rewrite downloadJob_keeps_ID. by apply IH.
Qed.

Lemma registry_keys_are_job_ids_witness :
  registry_ok (StartDownload (fun _ => "n") default_rd "http://host/b.mp4" "out/b.mp4"
                 ∅ None).1.1.
Proof.
  apply (registry_keys_are_job_ids (fun _ => "n") (fun _ => [])).
  apply reach_start. exact (reach_new _ _ zero_config []).
Defined.

(** *** A run that finds the file in place *)

(** X11.  When the probe announces the size of a file that is already at the
    final path and there is no temporary file, the run makes no fetch: it
    goes to [completeJob], whose check of the temporary file fails, and the
    job ends failed with the file at the final path as it was. *)
Theorem downloadJob_existing_file md5hex marshal rd w content acceptRanges :
  can_request w = true ->
  w_head w = HeadResponds StatusOK (Some (len64 content)) acceptRanges ->
  w_fs w !! FilePath (w_job w) = Some content ->
  w_fs w !! TempPath (w_job w) = None ->
  distinct_paths (w_job w) ->
  let w' := final (downloadJob md5hex marshal rd w) in
  Status (w_job w') = "failed" /\
  LastError (w_job w') = Some (ErrVerification ErrStatTemp) /\
  requests (w_log w') = requests (w_log w) ++ [headRequest (w_job w)] /\
  w_fs w' !! FilePath (w_job w) = Some content.
Proof.
  intros Hreq Hhead Hfile Htemp (Htm & Htf & Hfm). cbv zeta.
  pose proof (not_eq_sym Htm) as Hmt. pose proof (not_eq_sym Hfm) as Hmf.
  unfold downloadJob, saveJobMetadata, getFileInfo.
  unfold bind, modify_job, get_job, get_fs, put_fs, emit, ret.
  cbn -[handleJobError completeJob fileExistsAndValid].
  fold (can_request w). rewrite Hreq. cbn [negb].
  unfold with_log, with_fs, with_job;
    cbn -[handleJobError completeJob fileExistsAndValid].
  rewrite Hhead. rewrite (bool_decide_true (StatusOK = StatusOK)) by done.
  cbn -[handleJobError completeJob fileExistsAndValid].
  unfold fileExistsAndValid. cbn -[handleJobError completeJob].
  rewrite lookup_insert_ne by done. rewrite Hfile.
  rewrite (bool_decide_true (len64 content = len64 content)) by done.
  rewrite andb_false_r.
  unfold completeJob, bind, get_job, get_fs. cbn -[handleJobError].
  unfold verifyFile. cbn -[handleJobError].
  rewrite lookup_insert_ne by done. rewrite Htemp.
  match goal with |- context [final (handleJobError marshal ?e ?w0)] =>
    destruct (handleJobError_effect marshal e w0) as (Hst & Hle & Hrq & Hfs)
  end.
  split; [exact Hst|]. split; [exact Hle|]. split.
  - rewrite Hrq. cbn. rewrite !requests_app. cbn. by rewrite app_nil_r.
  - rewrite Hfs by (cbn; done). cbn. by rewrite lookup_insert_ne.
Qed.

Lemma downloadJob_existing_file_witness :
  let w := world_of (new_job ∅ None) {[ "out/a.mp4" := four_bytes ]}
             (HeadResponds 200 (Some 4) true) [] in
  let w' := final (downloadJob (fun _ => "") (fun _ => []) default_rd w) in
  Status (w_job w') = "failed" /\ w_fs w' !! "out/a.mp4" = Some four_bytes.
Proof.
  pose proof (downloadJob_existing_file (fun _ => "") (fun _ => []) default_rd
                (world_of (new_job ∅ None) {[ "out/a.mp4" := four_bytes ]}
                   (HeadResponds 200 (Some 4) true) [])
                four_bytes true) as H.
  cbv zeta in *.
  destruct H as (Hst & _ & _ & Hfs).
  - reflexivity.
  - reflexivity.
  - reflexivity.
  - reflexivity.
  - by vm_compute.
  - split; [exact Hst | exact Hfs].
Defined.

(** *** Pausing, deleting and restarting *)

(** X12.  A paused job can be resumed: after [PauseJob] the metadata file holds
    the paused job, and [ResumeDownload] starts a goroutine for it, with a
    context that is not cancelled and the caller's channel. *)
Theorem PauseJob_then_ResumeDownload marshal rd fs jobID rd1 fs1 pc :
  registry_ok rd ->
  PauseJobIn marshal rd fs jobID = Some (rd1, fs1) ->
  exists job rd2 job2,
    GetJob rd jobID = Some job /\
    fs1 !! MetaPath job = Some (marshal (set_Status "paused" (cancel job))) /\
    ResumeDownload rd1 jobID pc = Some (rd2, job2, [GoDownloadJob jobID]) /\
    GetJob rd2 jobID = Some job2 /\
    job2 = set_ctx (Some false) (set_progressChan pc (set_Status "paused" job)).
Proof.
  intros Hok. unfold PauseJobIn, GetJob.
  destruct (activeJobs rd !! jobID) as [job|] eqn:Hjob; [|done].
  intros [= <- <-]. pose proof (Hok _ _ Hjob) as Hid.
  assert (set_ctx (Some false) (set_progressChan pc (set_Status "paused" (cancel job)))
          = set_ctx (Some false) (set_progressChan pc (set_Status "paused" job))) as Hjob2.
  { unfold cancel. by destruct (ctx job). }
  assert (ID (set_Status "paused" (cancel job)) = jobID) as Hid'.
  { unfold cancel. by destruct (ctx job). }
  assert (MetaPath (set_Status "paused" (cancel job)) = MetaPath job) as Hmeta.
  { unfold cancel. by destruct (ctx job). }
  exists job. eexists _, _. split; [done|]. split.
  { rewrite <- Hmeta. apply lookup_insert_eq. }
  unfold ResumeDownload. cbn [activeJobs with_activeJobs]. rewrite lookup_insert_eq.
  unfold resumeDownload.
  rewrite (decide_False (P := Status (set_Status "paused" (cancel job)) = "downloading"))
    by (unfold cancel; by destruct (ctx job)).
  rewrite (decide_False (P := Status (set_Status "paused" (cancel job)) = "completed"))
    by (unfold cancel; by destruct (ctx job)).
  rewrite Hid', Hjob2. split; [reflexivity|]. split; [|reflexivity].
  cbn [activeJobs with_activeJobs]. apply lookup_insert_eq.
Qed.

Lemma PauseJob_then_ResumeDownload_witness :
  exists rd1 fs1 rd2 job2,
    PauseJobIn (fun _ => []) (with_activeJobs {[ "k" := new_job ∅ None ]} default_rd)
      ∅ "k" = Some (rd1, fs1) /\
    ResumeDownload rd1 "k" None = Some (rd2, job2, [GoDownloadJob "k"]) /\
    Status job2 = "paused" /\ ctx job2 = Some false.
Proof.
  destruct (PauseJob_then_ResumeDownload (fun _ => [])
              (with_activeJobs {[ "k" := new_job ∅ None ]} default_rd) ∅ "k"
              (with_activeJobs
                 {[ "k" := set_Status "paused" (cancel (new_job ∅ None)) ]} default_rd)
              {[ meta_k := [] ]} None)
    as (job & rd2 & job2 & Hget & _ & Hres & _ & Hjob2).
  - intros k j. cbn. rewrite lookup_singleton. case_decide; [|done]. by intros [= <-].
  - unfold PauseJobIn. cbn. rewrite lookup_singleton_eq. cbn.
    by rewrite insert_singleton_eq, insert_empty.
  - eexists _, _, rd2, job2. split.
    + unfold PauseJobIn. cbn. rewrite lookup_singleton_eq. cbn.
      by rewrite insert_singleton_eq, insert_empty.
    + split; [exact Hres|]. rewrite Hjob2. by split.
Defined.

(** X13.  After [DeleteJob] the pair starts from scratch: the temporary file and
    the metadata file of the deleted job are gone and no other file has
    changed, and [StartDownload] for the pair makes a new pending job and
    starts a goroutine for it, whatever state the deleted job was in. *)
Theorem DeleteJob_then_StartDownload md5hex rd fs url filePath rd1 fs1 old headers pc :
  DeleteJob rd fs (generateJobID md5hex url filePath) = Some (rd1, fs1, old) ->
  let jobID := generateJobID md5hex url filePath in
  let '(rd2, job, spawned) := StartDownload md5hex rd1 url filePath headers pc in
  fs1 !! TempPath old = None /\ fs1 !! MetaPath old = None /\
  (forall path, path <> TempPath old -> path <> MetaPath old -> fs1 !! path = fs !! path) /\
  spawned = [GoDownloadJob jobID] /\
  GetJob rd2 jobID = Some job /\
  Status job = "pending" /\ Downloaded job = 0 /\ RetryCount job = 0 /\
  LastError job = None /\ ctx job = Some false /\ progressChan job = pc.
Proof.
  unfold DeleteJob, GetJob.
  destruct (activeJobs rd !! _) as [job0|] eqn:Hjob; [|done].
  intros [= <- <- <-]. cbv zeta.
  assert (TempPath (cancel job0) = TempPath job0) as ->.
  { unfold cancel. by destruct (ctx job0). }
  assert (MetaPath (cancel job0) = MetaPath job0) as ->.
  { unfold cancel. by destruct (ctx job0). }
  unfold StartDownload. cbn [activeJobs with_activeJobs]. rewrite lookup_delete_eq.
  cbn [activeJobs with_activeJobs]. rewrite lookup_insert_eq.
  split_and!; try done.
  - destruct (decide (TempPath job0 = MetaPath job0)) as [->|Hne].
    + apply lookup_delete_eq.
    + rewrite lookup_delete_ne by done. apply lookup_delete_eq.
  - apply lookup_delete_eq.
  - intros path Ht Hm. by rewrite !lookup_delete_ne.
Qed.

Lemma DeleteJob_then_StartDownload_witness :
  let rd := with_activeJobs {[ "n" := done_job ]} default_rd in
  let fs : gmap string (list byte) := {[ "out/a.mp4" := four_bytes ]} in
  exists rd1 fs1 old,
    DeleteJob rd fs "n" = Some (rd1, fs1, old) /\
    (StartDownload (fun _ => "n") rd1 "http://host/a.mp4" "out/a.mp4" ∅ None).2
    = [GoDownloadJob "n"] /\
    fs1 !! "out/a.mp4" = Some four_bytes.
Proof.
  cbv zeta.
  pose proof (DeleteJob_then_StartDownload (fun _ => "n")
                (with_activeJobs {[ "n" := done_job ]} default_rd)
                {[ "out/a.mp4" := four_bytes ]} "http://host/a.mp4" "out/a.mp4"
                (with_activeJobs (delete "n" {[ "n" := done_job ]})
                   (with_activeJobs {[ "n" := done_job ]} default_rd))
                (delete meta_k (delete temp_k {[ "out/a.mp4" := four_bytes ]}))
                (cancel done_job) ∅ None) as H.
  cbv zeta in H.
  destruct (StartDownload _ _ _ _ _ _) as [[rd2 job] spawned] eqn:Hrun.
  destruct H as (_ & _ & Hfs & Hsp & _).
  - unfold DeleteJob. cbn. by rewrite lookup_singleton_eq.
  - eexists _, _, _. split.
    + unfold DeleteJob. cbn. by rewrite lookup_singleton_eq.
    + rewrite Hrun. split; [exact Hsp|].
      rewrite Hfs; [reflexivity | by vm_compute | by vm_compute].
Defined.

(** X14.  After a restart, whether a job found in the metadata directory can be
    resumed is decided by the status its file records: [ResumeDownload]
    finds the job under its id, with the file as its metadata path, and
    starts a goroutine for it unless the file says [downloading] or
    [completed]. *)
Theorem restart_then_ResumeDownload config files1 file job files2 pc :
  ID job ∉ decoded_ids files2 ->
  let rd := NewResumableDownloader config (files1 ++ (file, Some job) :: files2) in
  exists rd' job',
    ResumeDownload rd (ID job) pc
    = Some (rd', job',
            if decide (Status job = "downloading" \/ Status job = "completed")
            then [] else [GoDownloadJob (ID job)]) /\
    GetJob rd' (ID job) = Some job' /\
    MetaPath job' = file /\ Status job' = Status job.
Proof.
  intros Hlater. cbv zeta. unfold ResumeDownload, GetJob.
  cbn [activeJobs NewResumableDownloader].
  rewrite loadExistingJobs_lookup by done.
  unfold resumeDownload. cbn [Status loaded].
  destruct (decide (Status job = "downloading")) as [Hd|Hd].
  { rewrite decide_True by by left. eexists _, _. split; [reflexivity|].
    cbn [activeJobs NewResumableDownloader].
    by rewrite loadExistingJobs_lookup. }
  destruct (decide (Status job = "completed")) as [Hc|Hc].
  { rewrite decide_True by by right. eexists _, _. split; [reflexivity|].
    cbn [activeJobs NewResumableDownloader].
    by rewrite loadExistingJobs_lookup. }
  rewrite decide_False by (by intros [?|?]).
  eexists _, _. split; [reflexivity|].
  cbn [activeJobs with_activeJobs]. by rewrite lookup_insert_eq.
Qed.

Lemma restart_then_ResumeDownload_witness :
  let job := set_Status "downloading" (new_job ∅ None) in
  let rd := NewResumableDownloader zero_config [("m/k.json", Some job)] in
  exists job', ResumeDownload rd "k" None = Some (rd, job', []) /\ MetaPath job' = "m/k.json".
Proof.
  cbv zeta.
  destruct (restart_then_ResumeDownload zero_config [] "m/k.json"
              (set_Status "downloading" (new_job ∅ None)) [] None)
    as (rd' & job' & Hres & Hget & Hmeta & _).
  - cbn. apply not_elem_of_nil.
  - exists job'. split; [|exact Hmeta].
    cbn in Hres |- *. by injection Hres as <- <-.
Defined.

End ResumeFacts.

(** ** The batch coordinator *)

Module BatchFacts.
Import Batch.

(** *** The final status *)

(** C4, at a batch of two URLs of which the first fails resolution and the
    second is skipped because the manager was cancelled before its transfer
    began: one item of two failed, yet no branch of [updateJobStatus] applies
    and the finished job keeps the status running. *)
Theorem processBatchJob_failed_and_skipped :
  let v := {| v_ID := "2"; v_URL := "u2"; v_DownloadURL := "d2" |} in
  let job := StartBatchDownload BatchJobTypeURLList ["u1"; "u2"] false in
  let job' := processBatchJob (fun _ => true)
                (fun url => if bool_decide (url = "u1") then None else Some v)
                example_ExtractBatch (fun _ => CtxCancelled) v_ID example_sched job in
  Progress job' = {| Total := 2; Completed := 0; Failed := 1; Skipped := 1;
                     InProgress := 1 |} /\
  Status job' = JobStatusRunning.
Proof. by vm_compute. Qed.

(** The status function alone, on the same counters *)
Example updateJobStatus_failed_and_skipped :
  Status (updateJobStatus
            {| Type_ := BatchJobTypeURLList; URLs := ["u1"; "u2"]; SkipExisting := false;
               Status := JobStatusRunning;
               Progress := {| Total := 2; Completed := 0; Failed := 1; Skipped := 1;
                              InProgress := 0 |};
               Results := []; Error := None |}) = JobStatusRunning.
Proof. reflexivity. Qed.

(** The scenario of the specification: five URLs, two fail resolution,
    three transfers succeed. *)
Example processBatchJob_two_of_five_fail :
  let v (u : string) := {| v_ID := u; v_URL := u; v_DownloadURL := u |} in
  let job := StartBatchDownload BatchJobTypeURLList ["a"; "b"; "c"; "d"; "e"] false in
  let job' := processBatchJob (fun url => negb (bool_decide (url = "b")))
                (fun url => if bool_decide (url = "d") then None else Some (v url))
                example_ExtractBatch (fun _ => DownloadOk) v_ID example_sched job in
  Progress job' = {| Total := 5; Completed := 3; Failed := 2; Skipped := 0;
                     InProgress := 0 |} /\
  Status job' = JobStatusPartial.
Proof. by vm_compute. Qed.

(** When no item is skipped the three cases of the specification are the
    three first branches of [updateJobStatus]. *)
Lemma updateJobStatus_without_skips (job : BatchJob) (N F : Z) :
  0 < N < 2 ^ 62 -> 0 <= F <= N ->
  Total (Progress job) = N -> Failed (Progress job) = F ->
  Completed (Progress job) = N - F -> Skipped (Progress job) = 0 ->
  let s := Status (updateJobStatus job) in
  (s = JobStatusPartial <-> 0 < F < N) /\
  (s = JobStatusFailed <-> F = N) /\
  (s = JobStatusCompleted <-> F = 0).
Proof.
  intros HN HF HT HFl HC HS. unfold updateJobStatus. rewrite HT, HFl, HC, HS.
  assert (wrap64 (N - F + 0) = N - F) as ->.
  { unfold wrap64. rewrite Z.mod_small; lia. }
  repeat case_bool_decide; cbn; split_and!; split; intros; try done; try lia.
Qed.

(** *** The counting gate *)

Lemma count_if_insert {A} (P : A -> bool) (l : list A) i old new :
  l !! i = Some old ->
  (count_if P (<[i := new]> l) + (if P old then 1 else 0) =
   count_if P l + (if P new then 1 else 0))%nat.
Proof.
  revert i. induction l as [|t l IH]; intros [|i] Hi; try done.
  - injection Hi as ->. cbn. destruct (P old), (P new); lia.
  - cbn in Hi. specialize (IH i Hi).
    change (<[S i := new]> (t :: l)) with (t :: <[i := new]> l).
    cbn [count_if]. revert IH. destruct (P t), (P old), (P new); lia.
Qed.

Lemma count_if_app {A} (P : A -> bool) (l1 l2 : list A) :
  count_if P (l1 ++ l2) = (count_if P l1 + count_if P l2)%nat.
Proof. induction l1 as [|t l1 IH]; cbn; [done|]. destruct (P t); lia. Qed.

Lemma calling_le_holding p : (calling p <= holding p)%nat.
Proof.
  unfold calling, holding. induction (tasks p) as [|t l IH]; [done|].
  destruct t; cbn; lia.
Qed.

Lemma exec_invariant maxConcurrent a p p' :
  gate_invariant maxConcurrent p -> exec maxConcurrent a p = Some p' ->
  gate_invariant maxConcurrent p'.
Proof.
  unfold gate_invariant, holding. intros [Hsem Hle] Hexec.
  destruct a as [|i|i|i|i|i|i|i|i| | | |]; unfold exec, set_task in Hexec.
  { injection Hexec as <-. cbn [semaphore tasks]. rewrite count_if_app. cbn. lia. }
  all: repeat case_match; simplify_eq; cbn [semaphore tasks]; try done.
  all: match goal with
       | H : tasks _ !! ?i = Some _ |- context [<[?i := ?new]> _] =>
           pose proof (count_if_insert holds_slot _ _ _ new H) as Hcount
       end.
  all: cbn [holds_slot] in Hcount.
  all: try match goal with H : (_ <? _)%nat = true |- _ => apply Nat.ltb_lt in H end.
  all: lia.
Qed.

Lemma run_invariant maxConcurrent acts :
  forall p p', gate_invariant maxConcurrent p -> run maxConcurrent acts p = Some p' ->
               gate_invariant maxConcurrent p'.
Proof.
  induction acts as [|a acts IH]; intros p p' Hinv Hrun; cbn in Hrun.
  - by injection Hrun as <-.
  - destruct (exec maxConcurrent a p) as [p1|] eqn:Hexec; [|done].
    eapply IH; [|done]. by eapply exec_invariant.
Qed.

(** C5, at a gate of capacity one and a batch of two items: the first task
    gets its slot, calls [Download], which returns as soon as the transfer
    is started, and gives the slot back; the second task does the same while
    the first transfer is still running.  Two transfers run at once. *)
Theorem downloadVideos_transfers_unbounded :
  let maxConcurrent := 1%nat in
  let p := {| semaphore := 1; tasks := [Finished; Launched]; queue := 2;
              transfers := 2; background := 0 |} in
  run maxConcurrent
    [Spawn_; Spawn_;
     Acquire 0; Start 0; Enqueue 0; Launch 0; Return_ 0; Release 0;
     Acquire 1; Start 1; Enqueue 1; Launch 1] NewBatchManager = Some p /\
  (transfers p > maxConcurrent)%nat.
Proof. split; [reflexivity | cbn; lia]. Qed.

(** The transfers need no second task inside [Download] to pile up: when
    both tasks are through, both transfers may still run. *)
Example downloadVideos_transfers_outlive_tasks :
  run 1 [Spawn_; Spawn_;
         Acquire 0; Start 0; Enqueue 0; Launch 0; Return_ 0; Release 0;
         Acquire 1; Start 1; Enqueue 1; Launch 1; Return_ 1; Release 1] NewBatchManager
  = Some {| semaphore := 0; tasks := [Finished; Finished]; queue := 2;
            transfers := 2; background := 0 |}.
Proof. reflexivity. Qed.

(** X17.  What the gate does bound are the calls: however many item tasks
    there are and however they, the transfers and the workers interleave,
    the tokens in the semaphore are exactly the tasks between acquiring and
    releasing a slot (no path of a task loses or leaks a slot), never more
    than [maxConcurrent], and so at no point are more than [maxConcurrent]
    tasks inside the call of [bm.downloader.Download]. *)
Theorem downloadVideos_calls_bounded (maxConcurrent : nat) (acts : list Action) (p : Pool) :
  run maxConcurrent acts NewBatchManager = Some p ->
  semaphore p = holding p /\
  (holding p <= maxConcurrent)%nat /\
  (calling p <= maxConcurrent)%nat.
Proof.
  intros Hrun.
  assert (gate_invariant maxConcurrent NewBatchManager) as Hinit by (split; cbn; lia).
  destruct (run_invariant _ _ _ _ Hinit Hrun) as [Hsem Hle].
  pose proof (calling_le_holding p). lia.
Qed.

(** Three items at a gate of capacity two: two are inside the call, the
    third waits. *)
Lemma downloadVideos_calls_bounded_witness :
  (calling {| semaphore := 2; tasks := [AtQueue; Processing; Waiting]; queue := 1;
              transfers := 0; background := 0 |} <= 2)%nat.
Proof.
  apply (downloadVideos_calls_bounded 2
           [Spawn_; Spawn_; Spawn_; Acquire 0; Acquire 1; Start 0; Start 1; Enqueue 1]).
  reflexivity.
Defined.

(** With the gate full the third task cannot get in. *)
Example gate_full_blocks :
  run 2 [Spawn_; Spawn_; Spawn_; Acquire 0; Acquire 1; Acquire 2] NewBatchManager = None.
Proof. reflexivity. Qed.

(** A released slot lets it in. *)
Example gate_release_lets_in :
  run 2 [Spawn_; Spawn_; Spawn_; Acquire 0; Acquire 1; Start 0; Enqueue 0; Return_ 0;
         Release 0; Acquire 2; Start 2] NewBatchManager
  = Some {| semaphore := 2; tasks := [Finished; Holding; AtQueue]; queue := 1;
            transfers := 0; background := 0 |}.
Proof. reflexivity. Qed.

(** *** The counters of a batch *)

Lemma incr_id n : 0 <= n -> n + 1 < 2 ^ 63 -> incr n = n + 1.
Proof. intros. unfold incr. apply ResumeFacts.wrap64_id. lia. Qed.

Lemma decr_id n : 0 < n < 2 ^ 63 -> decr n = n - 1.
Proof. intros. unfold decr. apply ResumeFacts.wrap64_id. lia. Qed.

Lemma len64_cons {A} (x : A) (l : list A) : len64 (x :: l) = 1 + len64 l.
Proof. unfold len64. cbn [length]. lia. Qed.

Lemma count_outcomes transfer schedule :
  (count_if (is_ok transfer) schedule + count_if (is_failed transfer) schedule
   + count_if (is_cancelled transfer) schedule = length schedule)%nat.
Proof.
  induction schedule as [|v l IH]; [done|]. cbn.
  unfold is_ok, is_failed, is_cancelled in *. destruct (transfer v); cbn; lia.
Qed.

Lemma spawned_counts {V} (schedule : list V) :
  forall job,
    0 <= InProgress (Progress job) ->
    InProgress (Progress job) + len64 schedule < 2 ^ 63 ->
    foldl (fun j _ => InProgress_incr j) job schedule
    = with_Progress
        {| Total := Total (Progress job); Completed := Completed (Progress job);
           Failed := Failed (Progress job); Skipped := Skipped (Progress job);
           InProgress := InProgress (Progress job) + len64 schedule |} job.
Proof.
  induction schedule as [|v l IH]; intros [ty urls se st [T C F S I] res err] H0 Hn;
    cbn in H0, Hn.
  - cbn. unfold with_Progress. cbn. do 2 f_equal. unfold len64. cbn. lia.
  - rewrite len64_cons in Hn. pose proof (ResumeFacts.len64_nonneg l).
    cbn [foldl]. unfold InProgress_incr at 2. cbn. rewrite incr_id by lia.
    rewrite IH by (cbn; lia).
    unfold with_Progress. cbn. rewrite len64_cons. do 2 f_equal. lia.
Qed.

Lemma itemTasks_counts transfer generateFilePath schedule :
  forall job,
    0 <= Completed (Progress job) -> 0 <= Failed (Progress job) ->
    0 <= Skipped (Progress job) ->
    Completed (Progress job) + len64 schedule < 2 ^ 63 ->
    Failed (Progress job) + len64 schedule < 2 ^ 63 ->
    Skipped (Progress job) + len64 schedule < 2 ^ 63 ->
    len64 schedule <= InProgress (Progress job) < 2 ^ 63 ->
    let job' := foldl (fun j v => itemTask transfer generateFilePath v j) job schedule in
    let ok := Z.of_nat (count_if (is_ok transfer) schedule) in
    let failed := Z.of_nat (count_if (is_failed transfer) schedule) in
    let cancelled := Z.of_nat (count_if (is_cancelled transfer) schedule) in
    Progress job'
    = {| Total := Total (Progress job);
         Completed := Completed (Progress job) + ok;
         Failed := Failed (Progress job) + failed;
         Skipped := Skipped (Progress job) + cancelled;
         InProgress := InProgress (Progress job) - ok - failed |} /\
    len64 (Results job') = len64 (Results job) + ok + failed.
Proof.
  induction schedule as [|v l IH];
    intros [ty urls se st [T C F S I] res err] HC HF HS HCn HFn HSn HI;
    cbn [Progress Completed Failed Skipped InProgress Total Results] in * |-.
  - cbn. split; [f_equal; lia | lia].
  - rewrite len64_cons in *. pose proof (ResumeFacts.len64_nonneg l).
    cbn [foldl]. cbv zeta.
    cbn [count_if].
    remember (is_ok transfer v) as ok eqn:Hok.
    remember (is_failed transfer v) as failed eqn:Hfailed.
    remember (is_cancelled transfer v) as cancelled eqn:Hcancelled.
    unfold is_ok in Hok. unfold is_failed in Hfailed. unfold is_cancelled in Hcancelled.
    unfold itemTask at 2 4, fileExists. rewrite andb_false_r.
    destruct (transfer v) eqn:Hv; subst ok failed cancelled.
    + unfold Skipped_incr. cbn. rewrite incr_id by lia.
      match goal with |- context [foldl _ ?j l] =>
        destruct (IH j) as [Hp Hr]; cbn; try lia end.
      rewrite Hp, Hr. cbn. split; [f_equal; lia | lia].
    + unfold Failed_incr, add_Result, InProgress_decr. cbn.
      rewrite incr_id, decr_id by lia.
      match goal with |- context [foldl _ ?j l] =>
        destruct (IH j) as [Hp Hr]; cbn; try lia end.
      rewrite Hp, Hr. cbn. unfold len64. rewrite length_app. cbn.
      split; [f_equal; lia | lia].
    + unfold Completed_incr, add_Result, InProgress_decr. cbn.
      rewrite incr_id, decr_id by lia.
      match goal with |- context [foldl _ ?j l] =>
        destruct (IH j) as [Hp Hr]; cbn; try lia end.
      rewrite Hp, Hr. cbn. unfold len64. rewrite length_app. cbn.
      split; [f_equal; lia | lia].
Qed.

Lemma downloadVideos_counts_aux transfer generateFilePath schedule job :
  counters_fit (len64 schedule) (Progress job) ->
  let job' := downloadVideos transfer generateFilePath schedule job in
  let ok := Z.of_nat (count_if (is_ok transfer) schedule) in
  let failed := Z.of_nat (count_if (is_failed transfer) schedule) in
  let cancelled := Z.of_nat (count_if (is_cancelled transfer) schedule) in
  Progress job'
  = {| Total := Total (Progress job);
       Completed := Completed (Progress job) + ok;
       Failed := Failed (Progress job) + failed;
       Skipped := Skipped (Progress job) + cancelled;
       InProgress := InProgress (Progress job) + cancelled |} /\
  len64 (Results job') = len64 (Results job) + ok + failed /\
  ok + failed + cancelled = len64 schedule.
Proof.
  intros (HC & HF & HS & HI & HCn & HFn & HSn & HIn). cbv zeta.
  pose proof (count_outcomes transfer schedule) as Hsum.
  pose proof (ResumeFacts.len64_nonneg schedule) as Hlen.
  unfold downloadVideos. rewrite spawned_counts by done.
  destruct (itemTasks_counts transfer generateFilePath schedule
              (with_Progress
                 {| Total := Total (Progress job); Completed := Completed (Progress job);
                    Failed := Failed (Progress job); Skipped := Skipped (Progress job);
                    InProgress := InProgress (Progress job) + len64 schedule |} job))
    as [Hp Hr]; cbn; try lia.
  rewrite Hp, Hr. cbn. unfold len64 in *. split; [f_equal; lia | lia].
Qed.

Lemma resolveURLs_counts hasExtractor ExtractVideoInfo urls :
  forall job,
    0 <= Failed (Progress job) -> Failed (Progress job) + len64 urls < 2 ^ 63 ->
    let '(job', videos) := resolveURLs hasExtractor ExtractVideoInfo urls job in
    Progress job'
    = {| Total := Total (Progress job); Completed := Completed (Progress job);
         Failed := Failed (Progress job) + (len64 urls - len64 videos);
         Skipped := Skipped (Progress job); InProgress := InProgress (Progress job) |} /\
    0 <= len64 videos <= len64 urls.
Proof.
  induction urls as [|url rest IH];
    intros [ty urls se st [T C F S I] res err] HF HFn; cbn in HF, HFn.
  - cbn. split; [f_equal; unfold len64; cbn; lia | unfold len64; cbn; lia].
  - rewrite len64_cons in HFn. pose proof (ResumeFacts.len64_nonneg rest).
    cbn [resolveURLs].
    assert (forall r,
      let job1 := Failed_incr (add_Result r
                    {| Type_ := ty; URLs := urls; SkipExisting := se; Status := st;
                       Progress := {| Total := T; Completed := C; Failed := F;
                                      Skipped := S; InProgress := I |};
                       Results := res; Error := err |}) in
      let '(job', videos) := resolveURLs hasExtractor ExtractVideoInfo rest job1 in
      Progress job'
      = {| Total := T; Completed := C;
           Failed := F + (len64 (url :: rest) - len64 videos);
           Skipped := S; InProgress := I |} /\
      0 <= len64 videos <= len64 (url :: rest)) as Hfail.
    { intros r. cbv zeta. unfold Failed_incr, add_Result. cbn.
      rewrite incr_id by lia.
      match goal with |- context [resolveURLs _ _ rest ?j] => specialize (IH j) end.
      cbn in IH. destruct (resolveURLs _ _ rest _) as [job' videos].
      destruct IH as [Hp Hv]; [lia | lia |]. rewrite Hp, len64_cons.
      split; [f_equal; lia | lia]. }
    destruct (hasExtractor url); cbn [negb]; [|apply Hfail].
    destruct (ExtractVideoInfo url) as [videoInfo|]; [|apply Hfail].
    match goal with |- context [resolveURLs _ _ rest ?j] => specialize (IH j) end.
    cbn in IH. destruct (resolveURLs _ _ rest _) as [job' videos].
    destruct IH as [Hp Hv]; [lia | lia |]. cbn. rewrite Hp, !len64_cons.
    split; [f_equal; lia | lia].
Qed.

(** *** The shared record under interleaving *)

Lemma total_insert f l i t t' :
  l !! i = Some t -> total f (<[i := t']> l) = total f l - f t + f t'.
Proof.
  revert i. induction l as [|x l IH]; intros [|i] H; try done.
  - injection H as ->. cbn. lia.
  - change (total f (x :: <[i := t']> l) = total f (x :: l) - f t + f t').
    cbn [total]. rewrite (IH i H). lia.
Qed.

Lemma total_app f l1 l2 : total f (l1 ++ l2) = total f l1 + total f l2.
Proof. induction l1 as [|x l1 IH]; cbn; lia. Qed.

Lemma total_nonneg f l : Forall (fun t => 0 <= f t) l -> 0 <= total f l.
Proof. induction 1; cbn; lia. Qed.

Lemma total_ge f l i t :
  Forall (fun t => 0 <= f t) l -> l !! i = Some t -> f t <= total f l.
Proof.
  intros Hall. revert i. induction Hall as [|x l Hx Hl IH]; intros [|i] H; try done.
  - injection H as ->. cbn. pose proof (total_nonneg f l Hl). lia.
  - cbn in *. specialize (IH i H). lia.
Qed.

Lemma total_two f l i j ti tj :
  Forall (fun t => 0 <= f t) l -> i <> j ->
  l !! i = Some ti -> l !! j = Some tj -> f ti + f tj <= total f l.
Proof.
  intros Hall. revert i j.
  induction Hall as [|x l Hx Hl IH]; intros [|i] [|j] Hij Hi Hj; try done.
  - injection Hi as ->. cbn in *. pose proof (total_ge f l j tj Hl Hj). lia.
  - injection Hj as ->. cbn in *. pose proof (total_ge f l i ti Hl Hi). lia.
  - cbn in *. assert (i <> j) by lia. specialize (IH i j H Hi Hj). lia.
Qed.

Lemma total_zero f l : Forall (fun t => f t = 0) l -> total f l = 0.
Proof. induction 1; cbn; lia. Qed.

Section Interleaved.

Variable transfer : VideoInfo -> TransferOutcome.
Variable generateFilePath : VideoInfo -> string.
Variable skipExisting : bool.

#[local] Abbreviation itemProgram := (itemProgram transfer generateFilePath skipExisting).
#[local] Abbreviation pending := (pending transfer generateFilePath skipExisting).
#[local] Abbreviation pending_all := (pending_all transfer generateFilePath skipExisting).
#[local] Abbreviation stepThread := (stepThread transfer generateFilePath skipExisting).
#[local] Abbreviation interleave := (interleave transfer generateFilePath skipExisting).

Lemma pending_cons w ins rest :
  pending w (ins :: rest)
  = match ins with Go v => weigh w (itemProgram v) | _ => w ins end + pending w rest.
Proof. done. Qed.

Lemma weigh_nonneg w code : (forall ins, 0 <= w ins) -> 0 <= weigh w code.
Proof.
  intros Hw. unfold weigh.
  induction code as [|ins rest IH]; cbn; [lia | specialize (Hw ins); lia].
Qed.

Lemma pending_nonneg w code : (forall ins, 0 <= w ins) -> 0 <= pending w code.
Proof.
  intros Hw. apply weigh_nonneg. intros [v| | | | | | |]; try apply Hw.
  by apply weigh_nonneg.
Qed.

Lemma itemProgram_body v : exists body, itemProgram v = Acquire_ :: body /\ inside body.
Proof.
  unfold Batch.itemProgram, fileExists. rewrite andb_false_r.
  destruct (transfer v); eexists; (split; [reflexivity|]); cbn;
    repeat (constructor; try done).
Qed.

Lemma weigh_cons w ins rest : weigh w (ins :: rest) = w ins + weigh w rest.
Proof. done. Qed.

Lemma inside_weigh w code :
  inside code -> pending w code = weigh w code.
Proof. induction 1 as [| | |]; rewrite ?pending_cons, ?weigh_cons; try lia; done. Qed.

Lemma inside_held code : inside code -> pending w_held code = 1.
Proof.
  induction 1 as [| | |]; rewrite ?pending_cons; try (cbn [w_held]; lia); done.
Qed.

Lemma itemProgram_held v : weigh w_held (itemProgram v) = 0.
Proof.
  destruct (itemProgram_body v) as (body & -> & Hin).
  pose proof (inside_held _ Hin) as H. rewrite inside_weigh in H by done.
  rewrite weigh_cons. cbn [w_held]. lia.
Qed.

Lemma spawner_held code : Forall spawner_instr code -> pending w_held code = 0.
Proof.
  induction 1 as [|ins rest Hins _ IH]; [done|]. rewrite pending_cons, IH.
  destruct ins as [v| | | |c|c d| |]; try done; [|by destruct c..].
  rewrite itemProgram_held. lia.
Qed.

Lemma holds_ok_held job t : holds_ok job t -> pending w_held (code t) = 1.
Proof.
  intros [Hin | [(c & d & rest & -> & Hin & _) | (r & rest & -> & Hin & _)]].
  - by apply inside_held.
  - rewrite pending_cons, (inside_held _ Hin). cbn. lia.
  - rewrite pending_cons, (inside_held _ Hin). cbn. lia.
Qed.

Lemma thread_ok_held job t :
  thread_ok job t ->
  0 <= pending w_held (code t) /\
  (pending w_held (code t) = 1 <-> holds_ok job t).
Proof.
  intros [Hsp | [(body & Hc & Hin) | Hh]].
  - rewrite (spawner_held _ Hsp). split; [lia|]. split; [lia|].
    intros Hh. apply holds_ok_held in Hh. rewrite (spawner_held _ Hsp) in Hh. lia.
  - rewrite Hc, pending_cons, (inside_held _ Hin). cbn. split; [lia|].
    split; [lia|]. intros Hh. apply holds_ok_held in Hh.
    rewrite Hc, pending_cons, (inside_held _ Hin) in Hh. cbn in Hh. lia.
  - rewrite (holds_ok_held _ _ Hh). split; [lia|]. done.
Qed.

Lemma pending_itemProgram w v : pending w (itemProgram v) = weigh w (itemProgram v).
Proof.
  destruct (itemProgram_body v) as (body & -> & Hin).
  rewrite pending_cons, weigh_cons, (inside_weigh w _ Hin). done.
Qed.

Lemma pending_all_step w s i t ins rest t' job' sem' :
  m_threads s !! i = Some t -> code t = ins :: rest -> code t' = rest ->
  pending_all w {| m_sem := sem'; m_job := job';
                   m_threads := <[i := t']> (m_threads s) |}
  = pending_all w s
    - match ins with Go v => weigh w (itemProgram v) | _ => w ins end.
Proof.
  intros Hi Hc Hc'. unfold Batch.pending_all. cbn [m_threads].
  rewrite (total_insert _ _ _ _ _ Hi), Hc, Hc', pending_cons. lia.
Qed.

Lemma pending_all_Go w s i t v rest t' job' sem' :
  m_threads s !! i = Some t -> code t = Go v :: rest -> code t' = rest ->
  pending_all w {| m_sem := sem'; m_job := job';
                   m_threads := <[i := t']> (m_threads s)
                                ++ [{| code := itemProgram v; reg := 0;
                                       regResults := [] |}] |}
  = pending_all w s.
Proof.
  intros Hi Hc Hc'. unfold Batch.pending_all. cbn [m_threads].
  rewrite total_app, (total_insert _ _ _ _ _ Hi), Hc, Hc', pending_cons.
  cbn [total code]. rewrite pending_itemProgram. lia.
Qed.

Lemma threads_ok_insert job' l i t' :
  (forall j tj, j <> i -> l !! j = Some tj -> thread_ok job' tj) ->
  thread_ok job' t' ->
  Forall (thread_ok job') (<[i := t']> l).
Proof.
  intros Hothers Hnew. apply Forall_lookup. intros j tj Hj.
  apply list_lookup_insert_Some in Hj as [(-> & -> & _) | (Hne & Hj)]; [done|].
  by apply (Hothers j).
Qed.

Lemma thread_ok_spawner_store n job t :
  thread_ok job t -> thread_ok (set_counter CInProgress n job) t.
Proof.
  intros [Hsp | [Hw | [Hin | [(c & d & rest & Hc & Hin & Hreg) | (r & rest & Hc & Hin & Hreg)]]]].
  - by left.
  - by right; left.
  - by right; right; left.
  - right; right; right; left. exists c, d, rest. split_and!; [done..|].
    intros Hg. destruct (Hreg Hg) as [-> ->]. split; [done|]. by destruct c.
  - right; right; right; right. by exists r, rest.
Qed.

Lemma exclusion s i j ti tj :
  Forall (thread_ok (m_job s)) (m_threads s) ->
  Z.of_nat (m_sem s) = pending_all w_held s ->
  (m_sem s <= 1)%nat ->
  i <> j -> m_threads s !! i = Some ti -> m_threads s !! j = Some tj ->
  holds_ok (m_job s) ti -> holds_ok (m_job s) tj -> False.
Proof.
  intros Hth Hsem Hcap Hij Hi Hj Hhi Hhj.
  assert (Forall (fun t => 0 <= pending w_held (code t)) (m_threads s)) as Hnn.
  { eapply Forall_impl; [exact Hth|]. intros t Ht. cbn beta. apply thread_ok_held in Ht. tauto. }
  pose proof (total_two _ _ _ _ _ _ Hnn Hij Hi Hj) as Hsum.
  cbn beta in Hsum.
  rewrite (holds_ok_held _ _ Hhi), (holds_ok_held _ _ Hhj) in Hsum.
  unfold Batch.pending_all in Hsem. lia.
Qed.

Lemma others_keep s i ti job' :
  Forall (thread_ok (m_job s)) (m_threads s) ->
  Z.of_nat (m_sem s) = pending_all w_held s ->
  (m_sem s <= 1)%nat ->
  m_threads s !! i = Some ti -> holds_ok (m_job s) ti ->
  forall j tj, j <> i -> m_threads s !! j = Some tj -> thread_ok job' tj.
Proof.
  intros Hth Hsem Hcap Hi Hhi j tj Hne Hj.
  destruct (proj1 (Forall_lookup _ _) Hth j tj Hj) as [Hsp | [Hw | Hh]].
  - by left.
  - by right; left.
  - exfalso. eapply (exclusion s i j); eauto.
Qed.

Lemma get_set_counter c0 c n job :
  get_counter c0 (set_counter c n job)
  = if Counter_eqb c0 c then n else get_counter c0 job.
Proof. by destruct c0, c. Qed.

Lemma set_counter_rest c n job :
  Results (set_counter c n job) = Results job /\
  Total (Progress (set_counter c n job)) = Total (Progress job).
Proof. by destruct c. Qed.

Lemma w_counter_nonneg c ins : 0 <= w_counter c ins.
Proof. destruct ins; cbn; try lia. by destruct (Counter_eqb _ _). Qed.

Lemma pending_counter_le c s i t :
  m_threads s !! i = Some t ->
  pending (w_counter c) (code t) <= pending_all (w_counter c) s.
Proof.
  intros Hi. unfold Batch.pending_all.
  apply (total_ge (fun t => pending (w_counter c) (code t)) _ i t); [|done].
  apply Forall_forall. intros t' _. apply pending_nonneg, w_counter_nonneg.
Qed.

Section Invariant.

Variable job0 : BatchJob.
Variable K : Counter -> Z.
Variable KR : Z.
Hypothesis K_fits :
  forall c, gated c = true -> - 2 ^ 63 <= get_counter c job0 /\ K c < 2 ^ 63.

#[local] Abbreviation Inv := (counters_invariant transfer generateFilePath skipExisting job0 K KR).

Ltac kinds Hok Hc :=
  let Hsp := fresh "Hsp" in
  let Hin := fresh "Hin" in
  let Hb := fresh "Hb" in
  let Hreg := fresh "Hreg" in
  destruct Hok as [Hsp | [(? & Hb & Hin) | [Hin | [(? & ? & ? & Hb & Hin & Hreg)
                                                   | (? & ? & Hb & Hin & Hreg)]]]];
  rewrite Hc in *;
  [ apply Forall_cons in Hsp as [? Hsp]
  | try discriminate Hb
  | try (by inversion Hin)
  | try discriminate Hb
  | try discriminate Hb ].

Lemma step_Inv i s s' : Inv s -> stepThread 1 i s = Some s' -> Inv s'.
Proof.
  intros [Hth Hsem Hcap Hcnt Hlow Hres Htot] Hstep.
  unfold Batch.stepThread in Hstep.
  destruct (m_threads s !! i) as [t|] eqn:Hi; [|done].
  destruct (code t) as [|ins rest] eqn:Hc; [done|].
  pose proof (proj1 (Forall_lookup _ _) Hth i t Hi) as Hok.
  pose proof (fun j tj (_ : j <> i) Hj => proj1 (Forall_lookup _ _) Hth j tj Hj)
    as Hsame.
  destruct ins as [v| | | |c|c d| |r].
  - (* Go *)
    injection Hstep as <-.
    split; cbn [m_sem m_job m_threads]; try done.
    + apply Forall_app. split.
      * apply threads_ok_insert; [done|].
        kinds Hok Hc; try done. by left.
      * apply Forall_singleton. right; left. apply itemProgram_body.
    + by erewrite pending_all_Go.
    + intros c Hg. erewrite pending_all_Go by done. by apply Hcnt.
    + by erewrite pending_all_Go.
  - (* Acquire_ *)
    destruct (m_sem s <? 1)%nat eqn:Hlt; [|done]. injection Hstep as <-.
    apply Nat.ltb_lt in Hlt.
    assert (inside rest) as Hrest by (kinds Hok Hc; by simplify_eq).
    split; cbn [m_sem m_job m_threads]; try done.
    + apply threads_ok_insert; [done|]. by right; right; left.
    + erewrite pending_all_step by done. cbn [w_held]. lia.
    + intros c Hg. erewrite pending_all_step by done. cbn [w_counter].
      rewrite Z.sub_0_r. by apply Hcnt.
    + erewrite pending_all_step by done. cbn [w_results]. by rewrite Z.sub_0_r.
  - (* Release_ *)
    injection Hstep as <-.
    assert (rest = []) as ->.
    { by kinds Hok Hc. }
    assert (1 <= pending_all w_held s) as Hge.
    { unfold Batch.pending_all.
      etrans; [|apply (total_ge (fun t => pending w_held (code t)) _ i t); [|done]].
      - cbn beta. rewrite Hc. done.
      - eapply Forall_impl; [exact Hth|]. intros t' Ht'. cbn beta.
        apply thread_ok_held in Ht'. tauto. }
    split; cbn [m_sem m_job m_threads]; try done.
    + apply threads_ok_insert; [done|]. left. constructor.
    + erewrite pending_all_step by done. cbn [w_held]. lia.
    + lia.
    + intros c Hg. erewrite pending_all_step by done. cbn [w_counter].
      rewrite Z.sub_0_r. by apply Hcnt.
    + erewrite pending_all_step by done. cbn [w_results]. by rewrite Z.sub_0_r.
  - (* Call *)
    injection Hstep as <-.
    assert (inside rest) as Hrest.
    { by kinds Hok Hc. }
    split; cbn [m_sem m_job m_threads]; try done.
    + apply threads_ok_insert; [done|]. by right; right; left.
    + erewrite pending_all_step by done. cbn [w_held]. lia.
    + intros c Hg. erewrite pending_all_step by done. cbn [w_counter].
      rewrite Z.sub_0_r. by apply Hcnt.
    + erewrite pending_all_step by done. cbn [w_results]. by rewrite Z.sub_0_r.
  - (* LoadCounter *)
    injection Hstep as <-.
    assert (Forall spawner_instr rest \/
            exists d rest', rest = StoreCounter c d :: rest' /\ inside rest' /\
                            (gated c = true -> d = 1)) as Hrest.
    { kinds Hok Hc; try done; [by left|].
      match goal with H : inside (_ :: _) |- _ => inversion H; subst end.
      right. eauto. }
    split; cbn [m_sem m_job m_threads]; try done.
    + apply threads_ok_insert; [done|].
      destruct Hrest as [Hsp | (d & rest' & -> & Hin & Hd)]; [by left|].
      right; right; right; left. exists c, d, rest'. cbn. split_and!; [done..|].
      intros Hg. split; [by apply Hd | done].
    + erewrite pending_all_step by done. cbn [w_held]. lia.
    + intros c0 Hg. erewrite pending_all_step by done. cbn [w_counter].
      rewrite Z.sub_0_r. by apply Hcnt.
    + erewrite pending_all_step by done. cbn [w_results]. by rewrite Z.sub_0_r.
  - (* StoreCounter *)
    injection Hstep as <-.
    assert ((c = CInProgress /\ Forall spawner_instr rest) \/
            (holds_ok (m_job s) t /\ inside rest /\
             (gated c = true -> d = 1 /\ reg t = get_counter c (m_job s)))) as Hrest.
    { pose proof Hok as Hok'.
      kinds Hok Hc; try done.
      - left. by destruct c.
      - right. simplify_eq. split_and!; [|done..].
        right; left. rewrite Hc. eauto 10. }
    destruct (set_counter_rest c (wrap64 (reg t + d)) (m_job s)) as [HR HT].
    assert (forall c0, gated c0 = true ->
              get_counter c0 (set_counter c (wrap64 (reg t + d)) (m_job s))
              = get_counter c0 (m_job s) + w_counter c0 (StoreCounter c d)) as Hval.
    { intros c0 Hg. rewrite get_set_counter. cbn [w_counter].
      destruct (Counter_eqb c0 c) eqn:Heq; [|lia].
      assert (c0 = c) as -> by (by destruct c0, c).
      destruct Hrest as [[-> _] | (_ & _ & Hreg)]; [done|].
      destruct (Hreg Hg) as [-> ->].
      pose proof (pending_counter_le c s i t Hi) as Hle.
      rewrite Hc, pending_cons in Hle. cbn [w_counter] in Hle. rewrite Heq in Hle.
      pose proof (pending_nonneg (w_counter c) rest (w_counter_nonneg c)).
      pose proof (Hcnt c Hg). pose proof (Hlow c Hg). pose proof (K_fits c Hg).
      apply ResumeFacts.wrap64_id. lia. }
    split; cbn [m_sem m_job m_threads]; try done.
    + destruct Hrest as [[-> Hsp] | (Hh & Hin & _)].
      * apply threads_ok_insert; [|by left].
        intros j tj Hne Hj. apply thread_ok_spawner_store. by apply (Hsame j).
      * apply threads_ok_insert; [|by right; right; left].
        by apply (others_keep s i t).
    + erewrite pending_all_step by done. cbn [w_held]. lia.
    + intros c0 Hg. erewrite pending_all_step by done. rewrite (Hval c0 Hg).
      pose proof (Hcnt c0 Hg). lia.
    + intros c0 Hg. rewrite (Hval c0 Hg).
      pose proof (w_counter_nonneg c0 (StoreCounter c d)). pose proof (Hlow c0 Hg). lia.
    + erewrite pending_all_step by done. cbn [w_results]. by rewrite HR, Z.sub_0_r.
    + by rewrite HT.
  - (* LoadResults *)
    injection Hstep as <-.
    assert (exists r rest', rest = StoreResults r :: rest' /\ inside rest') as Hrest.
    { kinds Hok Hc; try done.
      match goal with H : inside (_ :: _) |- _ => inversion H; subst end. eauto. }
    destruct Hrest as (r & rest' & -> & Hin).
    split; cbn [m_sem m_job m_threads]; try done.
    + apply threads_ok_insert; [done|].
      right; right; right; right. by exists r, rest'.
    + erewrite pending_all_step by done. cbn [w_held]. lia.
    + intros c0 Hg. erewrite pending_all_step by done. cbn [w_counter].
      rewrite Z.sub_0_r. by apply Hcnt.
    + erewrite pending_all_step by done. cbn [w_results]. by rewrite Z.sub_0_r.
  - (* StoreResults *)
    injection Hstep as <-.
    assert (holds_ok (m_job s) t /\ inside rest /\ regResults t = Results (m_job s))
      as (Hh & Hin & Hreg).
    { pose proof Hok as Hok'.
      kinds Hok Hc; try done. simplify_eq. split_and!; [|done..].
      right; right. rewrite Hc. eauto. }
    split; cbn [m_sem m_job m_threads]; try done.
    + apply threads_ok_insert; [|by right; right; left].
      by apply (others_keep s i t).
    + erewrite pending_all_step by done. cbn [w_held]. lia.
    + intros c0 Hg. erewrite pending_all_step by done. cbn [w_counter].
      rewrite Z.sub_0_r. by apply Hcnt.
    + erewrite pending_all_step by done. cbn [w_results set_Results Results].
      rewrite Hreg, ResumeFacts.len64_app. unfold len64 at 2. cbn [length]. lia.
Qed.

Lemma interleave_Inv order :
  forall s s', Inv s -> interleave 1 order s = Some s' -> Inv s'.
Proof.
  induction order as [|i order IH]; intros s s' Hs Hrun; cbn in Hrun.
  - by injection Hrun as <-.
  - destruct (stepThread 1 i s) as [s1|] eqn:Hstep; [|done].
    eapply IH; [|done]. by eapply step_Inv.
Qed.

End Invariant.

Lemma pending_spawnerProgram w videos :
  pending w (spawnerProgram videos)
  = foldr (fun v n => weigh w (itemProgram v) + n) 0 videos
    + len64 videos * w (LoadCounter CInProgress)
    + foldr (fun v n => w (StoreCounter CInProgress 1) + n) 0 videos.
Proof.
  induction videos as [|v videos IH]; [done|].
  change (spawnerProgram (v :: videos))
    with (Go v :: LoadCounter CInProgress :: StoreCounter CInProgress 1
          :: spawnerProgram videos).
  rewrite !pending_cons, IH. cbn [foldr]. unfold len64. cbn [length]. lia.
Qed.

Lemma pending_counter_spawnerProgram c videos :
  gated c = true ->
  pending (w_counter c) (spawnerProgram videos)
  = Z.of_nat (count_if (fun v => match c, transfer v with
                                 | CCompleted, DownloadOk
                                 | CFailed, DownloadFails
                                 | CSkipped, CtxCancelled => true
                                 | _, _ => false
                                 end) videos).
Proof.
  intros Hg. rewrite pending_spawnerProgram. cbn [w_counter].
  replace (Counter_eqb c CInProgress) with false by (by destruct c).
  rewrite Z.mul_0_r.
  induction videos as [|v videos IH]; [done|]. cbn [foldr count_if] in *.
  assert (weigh (w_counter c) (itemProgram v)
          = if match c, transfer v with
               | CCompleted, DownloadOk
               | CFailed, DownloadFails
               | CSkipped, CtxCancelled => true
               | _, _ => false
               end then 1 else 0) as ->.
  { unfold Batch.itemProgram, fileExists. rewrite andb_false_r.
    by destruct c, (transfer v). }
  destruct (match c, transfer v with
            | CCompleted, DownloadOk
            | CFailed, DownloadFails
            | CSkipped, CtxCancelled => true
            | _, _ => false
            end); lia.
Qed.

Lemma pending_results_spawnerProgram videos :
  pending w_results (spawnerProgram videos)
  = Z.of_nat (count_if (is_ok transfer) videos)
    + Z.of_nat (count_if (is_failed transfer) videos).
Proof.
  rewrite pending_spawnerProgram. cbn [w_results]. rewrite Z.mul_0_r.
  induction videos as [|v videos IH]; [done|]. cbn [foldr count_if] in *.
  assert (weigh w_results (itemProgram v)
          = (if is_ok transfer v then 1 else 0)
            + (if is_failed transfer v then 1 else 0)) as ->.
  { unfold Batch.itemProgram, fileExists, is_ok, is_failed. rewrite andb_false_r.
    by destruct (transfer v). }
  destruct (is_ok transfer v), (is_failed transfer v); lia.
Qed.

Lemma count_if_le {A} (f : A -> bool) l : Z.of_nat (count_if f l) <= len64 l.
Proof.
  unfold len64. induction l as [|x l IH]; cbn [count_if length]; [lia|].
  destruct (f x); lia.
Qed.

Lemma enter_Inv job videos :
  counters_invariant transfer generateFilePath skipExisting job
    (fun c => get_counter c job + pending (w_counter c) (spawnerProgram videos))
    (len64 (Results job) + pending w_results (spawnerProgram videos))
    (enter job videos).
Proof.
  assert (Forall spawner_instr (spawnerProgram videos)) as Hsp.
  { unfold spawnerProgram. induction videos as [|v videos IH]; [constructor|].
    cbn [flat_map app]. by repeat (constructor; [done|]). }
  split; unfold enter, Batch.pending_all; cbn [m_sem m_job m_threads total code];
    try done.
  - apply Forall_singleton. by left.
  - by rewrite spawner_held.
  - lia.
  - intros c _. lia.
  - lia.
Qed.

Lemma all_done_pending w s : all_done s -> pending_all w s = 0.
Proof.
  intros Hdone. apply total_zero. eapply Forall_impl; [exact Hdone|].
  intros t Ht. cbn beta in *. by rewrite Ht.
Qed.

Lemma interleaved_counts job videos order s :
  counters_fit (len64 videos) (Progress job) ->
  interleave 1 order (enter job videos) = Some s ->
  all_done s ->
  let ok := Z.of_nat (count_if (is_ok transfer) videos) in
  let failed := Z.of_nat (count_if (is_failed transfer) videos) in
  let cancelled := Z.of_nat (count_if (is_cancelled transfer) videos) in
  let p := Progress (m_job s) in
  Total p = Total (Progress job) /\
  Completed p = Completed (Progress job) + ok /\
  Failed p = Failed (Progress job) + failed /\
  Skipped p = Skipped (Progress job) + cancelled /\
  len64 (Results (m_job s)) = len64 (Results job) + ok + failed /\
  m_sem s = 0%nat.
Proof.
  intros (HC & HF & HS & HI & HCn & HFn & HSn & HIn) Hrun Hdone. cbv zeta.
  pose proof (enter_Inv job videos) as Hinv.
  eapply interleave_Inv in Hinv; [| |exact Hrun].
  - destruct Hinv as [_ Hsem _ Hcnt _ Hres Htot].
    rewrite all_done_pending in Hsem, Hres by done.
    pose proof (Hcnt CCompleted eq_refl) as H1.
    pose proof (Hcnt CFailed eq_refl) as H2.
    pose proof (Hcnt CSkipped eq_refl) as H3.
    rewrite all_done_pending, pending_counter_spawnerProgram in H1, H2, H3 by done.
    rewrite pending_results_spawnerProgram in Hres.
    cbn [get_counter] in H1, H2, H3. unfold is_ok, is_failed, is_cancelled in *.
    split_and!; [done | lia | lia | lia | lia | lia].
  - intros c Hg. rewrite pending_counter_spawnerProgram by done.
    match goal with |- context [count_if ?f videos] =>
      pose proof (count_if_le f videos) end.
    destruct c; cbn [get_counter]; try done; lia.
Qed.


End Interleaved.

(** X15.  At a gate of capacity one [downloadVideos] counts every item once,
    however its goroutines interleave: when all of them have come to their
    end, the completed, failed and skipped counters have grown by the number
    of items whose transfer succeeded, failed and was cancelled, the results
    hold one entry more for each of the first two kinds, the total is
    untouched and every slot is given back.  (The counters are not negative
    and have room for the items.) *)
Theorem downloadVideos_counts_interleaved transfer generateFilePath job videos order s :
  counters_fit (len64 videos) (Progress job) ->
  interleave transfer generateFilePath (SkipExisting job) 1 order (enter job videos)
  = Some s ->
  all_done s ->
  let ok := Z.of_nat (count_if (is_ok transfer) videos) in
  let failed := Z.of_nat (count_if (is_failed transfer) videos) in
  let cancelled := Z.of_nat (count_if (is_cancelled transfer) videos) in
  let p := Progress (m_job s) in
  Total p = Total (Progress job) /\
  Completed p = Completed (Progress job) + ok /\
  Failed p = Failed (Progress job) + failed /\
  Skipped p = Skipped (Progress job) + cancelled /\
  len64 (Results (m_job s)) = len64 (Results job) + ok + failed /\
  m_sem s = 0%nat.
Proof. apply interleaved_counts. Qed.

(** Two items, the first cancelled at the gate and the second transferred,
    with the spawning loop and the first task interleaved. *)
Lemma downloadVideos_counts_interleaved_witness :
  let v (u : string) := {| v_ID := u; v_URL := u; v_DownloadURL := u |} in
  let transfer (x : VideoInfo) :=
    if bool_decide (v_ID x = "a") then CtxCancelled else DownloadOk in
  let job := StartBatchDownload BatchJobTypeURLList ["a"; "b"] false in
  exists s,
    interleave transfer v_ID false 1
      [0; 1; 0; 0; 0; 1; 1; 0; 0; 1; 2; 2; 2; 2; 2; 2; 2; 2; 2]%nat
      (enter job [v "a"; v "b"]) = Some s /\
    Completed (Progress (m_job s)) = 1 /\ Skipped (Progress (m_job s)) = 1 /\
    len64 (Results (m_job s)) = 1.
Proof.
  cbv zeta. eexists. split; [vm_compute; reflexivity|].
  destruct (downloadVideos_counts_interleaved
              (fun x => if bool_decide (v_ID x = "a") then CtxCancelled else DownloadOk)
              v_ID
              (StartBatchDownload BatchJobTypeURLList ["a"; "b"] false)
              [{| v_ID := "a"; v_URL := "a"; v_DownloadURL := "a" |};
               {| v_ID := "b"; v_URL := "b"; v_DownloadURL := "b" |}]
              [0; 1; 0; 0; 0; 1; 1; 0; 0; 1; 2; 2; 2; 2; 2; 2; 2; 2; 2]%nat
              _ ltac:(by vm_compute) ltac:(vm_compute; reflexivity)
              ltac:(repeat constructor))
    as (_ & HC & _ & HS & HR & _).
  split_and!; [exact HC | exact HS | exact HR].
Defined.

(** At a gate of capacity two a count is lost: both tasks read [Completed]
    before either writes it, and two completed items are counted as one. *)
Example downloadVideos_loses_a_count_at_capacity_two :
  let v (u : string) := {| v_ID := u; v_URL := u; v_DownloadURL := u |} in
  let job := StartBatchDownload BatchJobTypeURLList ["a"; "b"] false in
  exists s,
    interleave (fun _ => DownloadOk) v_ID false 2
      [0; 0; 0; 0; 0; 0; 1; 2; 1; 2; 1; 2; 1; 2;
       1; 1; 1; 1; 1; 2; 2; 2; 2; 2]%nat
      (enter job [v "a"; v "b"]) = Some s /\
    all_done s /\
    Completed (Progress (m_job s)) = 1 /\
    map res_Status (Results (m_job s)) = ["completed"; "completed"].
Proof.
  cbv zeta. eexists. split; [vm_compute; reflexivity|].
  split; [repeat constructor | split; reflexivity].
Qed.

(** [InProgress] is written by the spawning loop too, which holds no slot:
    at a gate of capacity one the loop reads it, the task runs to its end,
    and the loop writes back what it read plus one.  Nothing is in progress
    and [InProgress] is 1. *)
Example downloadVideos_InProgress_races :
  let v (u : string) := {| v_ID := u; v_URL := u; v_DownloadURL := u |} in
  let job := StartBatchDownload BatchJobTypeURLList ["a"] false in
  exists s,
    interleave (fun _ => DownloadOk) v_ID false 1
      [0; 0; 1; 1; 1; 1; 1; 1; 1; 1; 1; 0]%nat
      (enter job [v "a"]) = Some s /\
    all_done s /\
    Completed (Progress (m_job s)) = 1 /\
    InProgress (Progress (m_job s)) = 1.
Proof.
  cbv zeta. eexists. split; [vm_compute; reflexivity|].
  split; [repeat constructor | split; reflexivity].
Qed.

(** **** Runs to the end *)

Section Finishes.

Variable transfer : VideoInfo -> TransferOutcome.
Variable generateFilePath : VideoInfo -> string.
Variable skipExisting : bool.
Variable maxConcurrent : nat.
Hypothesis capacity : (1 <= maxConcurrent)%nat.

#[local] Abbreviation itemProgram := (itemProgram transfer generateFilePath skipExisting).
#[local] Abbreviation stepThread := (stepThread transfer generateFilePath skipExisting).
#[local] Abbreviation interleave := (interleave transfer generateFilePath skipExisting).
#[local] Abbreviation started := (started transfer generateFilePath skipExisting).

Lemma interleave_app o1 o2 s :
  interleave maxConcurrent (o1 ++ o2) s
  = interleave maxConcurrent o1 s ≫= interleave maxConcurrent o2.
Proof.
  revert s. induction o1 as [|i o1 IH]; intros s; [done|]. cbn.
  destruct (stepThread maxConcurrent i s); [apply IH | done].
Qed.

(** A task that holds the only slot taken runs to its end and gives the
    slot back. *)
Lemma inside_runs body :
  inside body ->
  forall s k t,
    m_threads s !! k = Some t -> code t = body -> m_sem s = 1%nat ->
    exists s' t',
      interleave maxConcurrent (replicate (length body) k) s = Some s' /\
      m_sem s' = 0%nat /\ code t' = [] /\
      m_threads s' = <[k := t']> (m_threads s).
Proof.
  induction 1 as [|rest Hin IH|c d rest Hd Hin IH|r rest Hin IH];
    intros s k t Hk Hc Hsem.
  - eexists _, {| code := []; reg := reg t; regResults := regResults t |}.
    cbn. unfold Batch.stepThread. rewrite Hk, Hc.
    split; [reflexivity|]. cbn. by rewrite Hsem.
  - cbn [length replicate Batch.interleave]. unfold Batch.stepThread at 1.
    rewrite Hk, Hc.
    match goal with |- context [Batch.interleave _ _ _ _ _ ?s1] =>
      destruct (IH s1 k {| code := rest; reg := reg t; regResults := regResults t |})
        as (s' & t' & Hrun & Hs & Ht & Hth) end.
    { cbn. apply list_lookup_insert_eq. by eapply lookup_lt_Some. }
    { done. }
    { done. }
    exists s', t'. split_and!; [done..|].
    rewrite Hth. cbn. by rewrite list_insert_insert_eq.
  - cbn [length replicate Batch.interleave]. unfold Batch.stepThread at 1.
    rewrite Hk, Hc. unfold Batch.stepThread at 1. cbn [m_threads m_job m_sem].
    rewrite list_lookup_insert_eq by (by eapply lookup_lt_Some). cbn [code reg regResults].
    match goal with |- context [Batch.interleave _ _ _ _ _ ?s1] =>
      destruct (IH s1 k {| code := rest; reg := get_counter c (m_job s);
                           regResults := regResults t |})
        as (s' & t' & Hrun & Hs & Ht & Hth) end.
    { cbn. apply list_lookup_insert_eq. rewrite length_insert. by eapply lookup_lt_Some. }
    { done. }
    { done. }
    exists s', t'. split_and!; [done..|].
    rewrite Hth. cbn. by rewrite !list_insert_insert_eq.
  - cbn [length replicate Batch.interleave]. unfold Batch.stepThread at 1.
    rewrite Hk, Hc. unfold Batch.stepThread at 1. cbn [m_threads m_job m_sem].
    rewrite list_lookup_insert_eq by (by eapply lookup_lt_Some). cbn [code reg regResults].
    match goal with |- context [Batch.interleave _ _ _ _ _ ?s1] =>
      destruct (IH s1 k {| code := rest; reg := reg t;
                           regResults := Results (m_job s) |})
        as (s' & t' & Hrun & Hs & Ht & Hth) end.
    { cbn. apply list_lookup_insert_eq. rewrite length_insert. by eapply lookup_lt_Some. }
    { done. }
    { done. }
    exists s', t'. split_and!; [done..|].
    rewrite Hth. cbn. by rewrite !list_insert_insert_eq.
Qed.

Lemma task_runs s k t v :
  m_threads s !! k = Some t -> code t = itemProgram v -> m_sem s = 0%nat ->
  exists order s' t',
    interleave maxConcurrent order s = Some s' /\
    m_sem s' = 0%nat /\ code t' = [] /\
    m_threads s' = <[k := t']> (m_threads s).
Proof.
  intros Hk Hc Hsem. destruct (itemProgram_body transfer generateFilePath skipExisting v) as (body & Hbody & Hin).
  rewrite Hbody in Hc.
  pose proof (inside_runs body Hin
                {| m_sem := 1; m_job := m_job s;
                   m_threads := <[k := {| code := body; reg := reg t;
                                          regResults := regResults t |}]> (m_threads s) |}
                k {| code := body; reg := reg t; regResults := regResults t |})
    as (s' & t' & Hrun & Hs & Ht & Hth).
  { cbn. apply list_lookup_insert_eq. by eapply lookup_lt_Some. }
  { done. }
  { done. }
  exists (k :: replicate (length body) k), s', t'.
  split_and!; [|done..|].
  - cbn [Batch.interleave]. unfold Batch.stepThread at 1. rewrite Hk, Hc, Hsem.
    destruct maxConcurrent as [|n]; [lia|]. exact Hrun.
  - rewrite Hth. cbn. by rewrite list_insert_insert_eq.
Qed.

Lemma spawner_runs videos :
  forall s t ts,
    m_threads s = t :: ts -> code t = spawnerProgram videos ->
    exists order s' t',
      interleave maxConcurrent order s = Some s' /\
      m_sem s' = m_sem s /\ code t' = [] /\
      m_threads s' = t' :: ts ++ map started videos.
Proof.
  induction videos as [|v videos IH]; intros s t ts Hth Hc.
  - exists [], s, t. rewrite Hth, app_nil_r. done.
  - destruct s as [sem job ths], t as [c r rr]. cbn [m_threads code] in Hth, Hc.
    subst ths c.
    destruct (IH {| m_sem := sem;
                    m_job := set_counter CInProgress
                               (wrap64 (get_counter CInProgress job + 1)) job;
                    m_threads := {| code := spawnerProgram videos;
                                    reg := get_counter CInProgress job;
                                    regResults := rr |}
                                 :: ts ++ [started v] |}
                {| code := spawnerProgram videos;
                   reg := get_counter CInProgress job;
                   regResults := rr |} (ts ++ [started v]))
      as (order & s' & t' & Hrun & Hs & Ht & Hth'); [done..|].
    exists (0 :: 0 :: 0 :: order)%nat, s', t'. split_and!; [exact Hrun|done..|].
    rewrite Hth'. cbn [map]. by rewrite <- app_assoc.
Qed.

Lemma tasks_run vs :
  forall s pre,
    m_threads s = pre ++ map started vs -> m_sem s = 0%nat ->
    Forall (fun t => code t = []) pre ->
    exists order s', interleave maxConcurrent order s = Some s' /\ all_done s'.
Proof.
  induction vs as [|v vs IH]; intros s pre Hth Hsem Hpre.
  - exists [], s. split; [done|]. unfold all_done. by rewrite Hth, app_nil_r.
  - cbn [map] in Hth.
    destruct (task_runs s (length pre) (started v) v) as (o1 & s1 & t1 & H1 & Hs1 & Ht1 & Hth1).
    { rewrite Hth. by apply list_lookup_middle. }
    { done. }
    { done. }
    destruct (IH s1 (pre ++ [t1])) as (o2 & s2 & H2 & Hdone); [|done| |].
    { rewrite Hth1, Hth. rewrite <- app_assoc. cbn [app].
      replace (length pre) with (length pre + 0)%nat by lia.
      by rewrite insert_app_r. }
    { apply Forall_app. split; [done|]. by apply Forall_singleton. }
    exists (o1 ++ o2), s2. split; [|done].
    rewrite interleave_app, H1. exact H2.
Qed.

(** The runs that the counting theorems speak of exist for every batch: at
    a gate with room for one task, and with every call of [Download]
    returning, the spawning loop and then the tasks one after the other
    come to their end. *)
Lemma downloadVideos_finishes job videos :
  exists order s,
    interleave maxConcurrent order (enter job videos) = Some s /\ all_done s.
Proof.
  destruct (spawner_runs videos (enter job videos)
              {| code := spawnerProgram videos; reg := 0; regResults := [] |} [])
    as (o1 & s1 & t1 & H1 & Hs1 & Ht1 & Hth1); [done..|].
  destruct (tasks_run videos s1 [t1]) as (o2 & s2 & H2 & Hdone).
  { done. }
  { by rewrite Hs1. }
  { by apply Forall_singleton. }
  exists (o1 ++ o2), s2. split; [|done].
  rewrite interleave_app, H1. exact H2.
Qed.

End Finishes.

(** X16.  A URL list is accounted for item by item at a gate of capacity one:
    once the resolving loop of [processURLList] has run and the goroutines
    of [downloadVideos] have come to their end, in whatever interleaving,
    the completed, failed and skipped counters add up to the total, which
    is the number of URLs.  (With no item resolved [processURLList] returns
    before [downloadVideos]; the run is then the empty one.) *)
Theorem processURLList_accounts_interleaved hasExtractor ExtractVideoInfo transfer
    generateFilePath urls skipExisting job1 videos order s :
  len64 urls < 2 ^ 63 ->
  resolveURLs hasExtractor ExtractVideoInfo urls
    (StartBatchDownload BatchJobTypeURLList urls skipExisting) = (job1, videos) ->
  interleave transfer generateFilePath skipExisting 1 order (enter job1 videos)
  = Some s ->
  all_done s ->
  let p := Progress (m_job s) in
  Total p = len64 urls /\
  Completed p + Failed p + Skipped p = Total p.
Proof.
  intros Hlen Hresolve Hrun Hdone. cbv zeta.
  pose proof (resolveURLs_counts hasExtractor ExtractVideoInfo urls
                (StartBatchDownload BatchJobTypeURLList urls skipExisting)) as Hres.
  rewrite Hresolve in Hres. cbn in Hres. destruct Hres as [Hp1 Hv]; [lia | lia |].
  pose proof (count_outcomes transfer videos) as Hsum.
  destruct (interleaved_counts transfer generateFilePath skipExisting job1 videos
              order s) as (HT & HC & HF & HS & _); [|done|done|].
  { unfold counters_fit. rewrite Hp1. cbn. lia. }
  rewrite HT, HC, HF, HS, Hp1. cbn. unfold len64 in *. lia.
Qed.

(** Two URLs, the first without an extractor, the second transferred. *)
Lemma processURLList_accounts_interleaved_witness :
  let v (u : string) := {| v_ID := u; v_URL := u; v_DownloadURL := u |} in
  let job := StartBatchDownload BatchJobTypeURLList ["a"; "b"] false in
  let '(job1, videos) :=
    resolveURLs (fun u => bool_decide (u = "b")) (fun u => Some (v u)) ["a"; "b"] job in
  exists s,
    interleave (fun _ => DownloadOk) v_ID false 1
      [0; 0; 1; 1; 1; 1; 0; 1; 1; 1; 1; 1]%nat (enter job1 videos) = Some s /\
    Total (Progress (m_job s)) = 2 /\
    Completed (Progress (m_job s)) + Failed (Progress (m_job s))
    + Skipped (Progress (m_job s)) = 2.
Proof.
  cbv zeta.
  destruct (resolveURLs _ _ _ _) as [job1 videos] eqn:Hresolve.
  vm_compute in Hresolve. injection Hresolve as <- <-.
  eexists. split; [vm_compute; reflexivity|].
  eapply (processURLList_accounts_interleaved (fun u => bool_decide (u = "b"))
           (fun u => Some {| v_ID := u; v_URL := u; v_DownloadURL := u |})
           (fun _ => DownloadOk) v_ID ["a"; "b"] false _ _
           [0; 0; 1; 1; 1; 1; 0; 1; 1; 1; 1; 1]%nat).
  - by vm_compute.
  - vm_compute. reflexivity.
  - vm_compute. reflexivity.
  - repeat constructor.
Defined.

(** The item tasks run one after the other, as [downloadVideos] of the
    model above has them, end with the counters of every interleaving at a
    gate of capacity one; [InProgress] is not among them. *)
Lemma downloadVideos_serial_agrees transfer generateFilePath job videos order s :
  counters_fit (len64 videos) (Progress job) ->
  interleave transfer generateFilePath (SkipExisting job) 1 order (enter job videos)
  = Some s ->
  all_done s ->
  let p := Progress (m_job s) in
  let p' := Progress (downloadVideos transfer generateFilePath videos job) in
  Total p = Total p' /\ Completed p = Completed p' /\ Failed p = Failed p' /\
  Skipped p = Skipped p' /\
  len64 (Results (m_job s))
  = len64 (Results (downloadVideos transfer generateFilePath videos job)).
Proof.
  intros Hfit Hrun Hdone. cbv zeta.
  destruct (interleaved_counts _ _ _ _ _ _ _ Hfit Hrun Hdone)
    as (HT & HC & HF & HS & HR & _).
  destruct (downloadVideos_counts_aux transfer generateFilePath videos job Hfit)
    as (Hp & Hr & _).
  rewrite Hp, Hr. cbn. by rewrite HT, HC, HF, HS, HR.
Qed.

(** *** A gate without capacity *)

Lemma exec_capacity_zero a p p' :
  semaphore p = 0%nat -> Forall (fun t => t = Waiting) (tasks p) ->
  exec 0 a p = Some p' ->
  semaphore p' = 0%nat /\ Forall (fun t => t = Waiting) (tasks p').
Proof.
  intros Hsem Hall Hexec.
  destruct a as [|i|i|i|i|i|i|i|i| | | |]; unfold exec in Hexec.
  { injection Hexec as <-. cbn. split; [done|]. apply Forall_app. split; [done|].
    by repeat constructor. }
  all: try (destruct (tasks p !! i) as [t|] eqn:Hi; [|done];
            pose proof (proj1 (Forall_lookup _ _) Hall i t Hi) as ->;
            by destruct (semaphore p)).
  all: by (case_match; simplify_eq).
Qed.

(** X18.  With a gate of capacity zero no item task ever gets a slot: whatever
    the tasks do, all of them are still waiting at the gate, so a
    [downloadVideos] with at least one item never returns. *)
Theorem gate_of_capacity_zero acts p :
  run 0 acts NewBatchManager = Some p ->
  semaphore p = 0%nat /\ Forall (fun t => t = Waiting) (tasks p).
Proof.
  assert (forall p0, semaphore p0 = 0%nat -> Forall (fun t => t = Waiting) (tasks p0) ->
            run 0 acts p0 = Some p ->
            semaphore p = 0%nat /\ Forall (fun t => t = Waiting) (tasks p)) as H.
  { induction acts as [|a acts IH]; intros p0 Hsem Hall Hrun; cbn in Hrun.
    - by injection Hrun as <-.
    - destruct (exec 0 a p0) as [p1|] eqn:Hexec; [|done].
      destruct (exec_capacity_zero a p0 p1 Hsem Hall Hexec) as [Hsem1 Hall1].
      by apply (IH p1). }
  apply H; [done | by constructor].
Qed.

Lemma gate_of_capacity_zero_witness :
  Forall (fun t => t = Waiting) [Waiting; Waiting].
Proof.
  apply (gate_of_capacity_zero [Spawn_; Spawn_]
           {| semaphore := 0; tasks := [Waiting; Waiting]; queue := 0; transfers := 0;
              background := 0 |}).
  reflexivity.
Defined.

(** *** File names *)

Lemma ReplaceAll_chars s old new :
  String.list_ascii_of_string (ReplaceAll s old new)
  = map (fun c => if Ascii.eqb c old then new else c) (String.list_ascii_of_string s).
Proof. induction s as [|c s IH]; cbn; [done|]. by rewrite IH. Qed.

Lemma cleanChar_steps c :
  foldl (fun c old => if Ascii.eqb c old then "_"%char else c) c invalidChars
  = cleanChar c.
Proof. destruct c as [[] [] [] [] [] [] [] []]; reflexivity. Qed.

Lemma cleanChar_valid c : is_invalid (cleanChar c) = false.
Proof. destruct c as [[] [] [] [] [] [] [] []]; reflexivity. Qed.

Lemma cleanChar_idemp c : cleanChar (cleanChar c) = cleanChar c.
Proof. destruct c as [[] [] [] [] [] [] [] []]; reflexivity. Qed.

Lemma foldl_ReplaceAll_chars olds :
  forall s,
    String.list_ascii_of_string
      (foldl (fun cleanName invalidChar => ReplaceAll cleanName invalidChar "_"%char) s olds)
    = map (fun c => foldl (fun c old => if Ascii.eqb c old then "_"%char else c) c olds)
          (String.list_ascii_of_string s).
Proof.
  induction olds as [|old olds IH]; intros s; cbn [foldl].
  - by rewrite List.map_id.
  - by rewrite IH, ReplaceAll_chars, List.map_map.
Qed.

Lemma cleanFilename_chars filename :
  String.list_ascii_of_string (cleanFilename filename)
  = map cleanChar (String.list_ascii_of_string filename).
Proof.
  unfold cleanFilename. rewrite foldl_ReplaceAll_chars.
  apply List.map_ext. apply cleanChar_steps.
Qed.

Lemma chars_inj s t :
  String.list_ascii_of_string s = String.list_ascii_of_string t -> s = t.
Proof.
  intros H. rewrite <- (String.string_of_list_ascii_of_string s),
              <- (String.string_of_list_ascii_of_string t). by rewrite H.
Qed.

Lemma chars_length s : length (String.list_ascii_of_string s) = String.length s.
Proof. induction s as [|c s IH]; cbn; [done | by rewrite IH]. Qed.

Lemma chars_app s t :
  String.list_ascii_of_string (s +:+ t)
  = String.list_ascii_of_string s ++ String.list_ascii_of_string t.
Proof.
  induction s as [|c s IH]; [done|].
  change (String c s +:+ t) with (String c (s +:+ t)). cbn. by rewrite IH.
Qed.

(** X19.  [cleanFilename] replaces each of the nine characters by an underscore
    and keeps every other character in its place: the result has the length
    of the name and none of the nine characters, and cleaning a clean name
    changes nothing. *)
Theorem cleanFilename_removes_invalid filename :
  String.list_ascii_of_string (cleanFilename filename)
  = map cleanChar (String.list_ascii_of_string filename) /\
  Forall (fun c => is_invalid c = false)
         (String.list_ascii_of_string (cleanFilename filename)) /\
  String.length (cleanFilename filename) = String.length filename /\
  cleanFilename (cleanFilename filename) = cleanFilename filename.
Proof.
  split_and!.
  - apply cleanFilename_chars.
  - rewrite cleanFilename_chars. apply Forall_forall. intros c Hc.
    apply list_elem_of_fmap in Hc as (c0 & -> & _). apply cleanChar_valid.
  - by rewrite <- !chars_length, cleanFilename_chars, length_map.
  - apply chars_inj. rewrite !cleanFilename_chars, List.map_map.
    apply List.map_ext. apply cleanChar_idemp.
Qed.

(** X20.  The path [generateFilePath] makes is a file directly in the output
    directory: after the directory and one slash comes a name without slash,
    backslash or any other of the nine characters, whatever the title, the
    author and the other fields of the video hold. *)
Theorem generateFilePath_in_OutputPath Platform AuthorName Title ID Format OutputPath :
  exists name,
    generateFilePath Platform AuthorName Title ID Format OutputPath
    = OutputPath +:+ "/" +:+ name /\
    Forall (fun c => is_invalid c = false) (String.list_ascii_of_string name) /\
    String.length name
    = (String.length Platform + String.length AuthorName + String.length Title
       + String.length ID + String.length Format + 4)%nat.
Proof.
  eexists. split; [reflexivity|]. split.
  - rewrite cleanFilename_chars. apply Forall_forall. intros c Hc.
    apply list_elem_of_fmap in Hc as (c0 & -> & _). apply cleanChar_valid.
  - rewrite <- !chars_length, cleanFilename_chars, length_map.
    rewrite !chars_app, !length_app. cbn. lia.
Qed.

End BatchFacts.

(** ** The download manager *)

Module ManagerFacts.
Import Manager.

Lemma run_app workers acts1 acts2 s :
  run workers (acts1 ++ acts2) s =
  match run workers acts1 s with
  | Some s' => run workers acts2 s'
  | None => None
  end.
Proof.
  revert s. induction acts1 as [|a acts1 IH]; intros s; cbn; [done|].
  destruct (exec workers a s); [apply IH | done].
Qed.

Lemma run_spawns workers n q ts b :
  run workers (replicate n Spawn_) {| queue := q; tasks := ts; background := b |} =
  Some {| queue := q; tasks := ts ++ replicate n Spawned; background := b |}.
Proof.
  revert ts. induction n as [|n IH]; intros ts; cbn.
  - by rewrite app_nil_r.
  - rewrite IH. by rewrite <- app_assoc.
Qed.

Lemma run_enqueues workers m :
  forall k b, (k + m <= queueCap)%nat ->
  run workers (map Enqueue (seq k m))
    {| queue := k; tasks := replicate k Processing ++ replicate m Spawned;
       background := b |} =
  Some {| queue := k + m; tasks := replicate (k + m) Processing; background := b |}.
Proof.
  induction m as [|m IH]; intros k b Hle; cbn [seq map run].
  - by rewrite Nat.add_0_r, app_nil_r.
  - unfold exec. cbn [tasks queue background].
    rewrite lookup_app_r by (rewrite length_replicate; lia).
    rewrite length_replicate, Nat.sub_diag. cbn [replicate lookup list_lookup].
    destruct (Nat.ltb_spec k queueCap) as [_|]; [|lia].
    rewrite insert_app_r_alt by (rewrite length_replicate; lia).
    rewrite length_replicate, Nat.sub_diag. cbn [replicate insert list_insert].
    replace (replicate k Processing ++ Processing :: replicate m Spawned)
      with (replicate (S k) Processing ++ replicate m Spawned).
    + rewrite IH by lia. by replace (S k + m)%nat with (k + S m)%nat by lia.
    + rewrite replicate_S_end. by rewrite <- app_assoc.
Qed.

Lemma count_if_replicate n : count_if is_processing (replicate n Processing) = n.
Proof. induction n as [|n IH]; cbn; [done | by rewrite IH]. Qed.

(** X21.  Every goroutine of a batch call gets past the queue at once, whatever
    the number of workers: up to the queue capacity nothing holds a task
    back. *)
Lemma DownloadBatch_all_at_once workers n :
  (n <= queueCap)%nat ->
  exists s, run workers (allAtOnce n) idle = Some s /\ processing s = n.
Proof.
  intros Hle. unfold allAtOnce, idle. rewrite run_app, run_spawns. cbn [app].
  pose proof (run_enqueues workers n 0 0 ltac:(lia)) as Hrun. cbn in Hrun.
  rewrite Hrun. eexists. split; [done|]. apply count_if_replicate.
Qed.

(** C8, at a manager configured for one worker and a batch of two URLs:
    [DownloadBatch] starts one goroutine per URL, neither waits for a slot,
    and both are at work at the same time. *)
Theorem DownloadBatch_unbounded :
  let workers := 1%nat in
  run workers (allAtOnce 2) idle
  = Some {| queue := 2; tasks := [Processing; Processing]; background := 0 |} /\
  (processing {| queue := 2; tasks := [Processing; Processing]; background := 0 |}
   > workers)%nat.
Proof. split; [reflexivity | cbn; lia]. Qed.

(** The workers take the same requests from the queue and process them a
    second time, unawaited. *)
Example DownloadBatch_processed_twice :
  run 1 [Spawn_; Spawn_; Enqueue 0; WorkerTake; Enqueue 1; WorkerTake] idle
  = Some {| queue := 0; tasks := [Processing; Processing]; background := 2 |}.
Proof. reflexivity. Qed.

(** Three URLs at a manager with one worker *)
Lemma DownloadBatch_all_at_once_witness :
  exists s, run 1 (allAtOnce 3) idle = Some s /\ processing s = 3%nat.
Proof.
  apply (DownloadBatch_all_at_once 1 3). unfold queueCap. lia.
Defined.

(** *** A manager without workers *)

Lemma exec_no_worker a s s' :
  (processing s <= queue s <= queueCap)%nat -> exec 0 a s = Some s' ->
  (processing s' <= queue s' <= queueCap)%nat.
Proof.
  unfold processing. intros Hinv Hexec.
  destruct a as [|i|i|i| |]; unfold exec in Hexec.
  - injection Hexec as <-. cbn [queue tasks]. rewrite BatchFacts.count_if_app. cbn. lia.
  - destruct (tasks s !! i) as [[| |]|] eqn:Hi; try done.
    injection Hexec as <-. cbn [queue tasks].
    pose proof (BatchFacts.count_if_insert is_processing _ _ _ Finished Hi) as Hc.
    cbn in Hc. lia.
  - destruct (tasks s !! i) as [[| |]|] eqn:Hi; try done.
    destruct (Nat.ltb_spec (queue s) queueCap) as [Hlt|]; [|done].
    injection Hexec as <-. cbn [queue tasks].
    pose proof (BatchFacts.count_if_insert is_processing _ _ _ Processing Hi) as Hc.
    cbn in Hc. lia.
  - destruct (tasks s !! i) as [[| |]|] eqn:Hi; try done.
    injection Hexec as <-. cbn [queue tasks].
    pose proof (BatchFacts.count_if_insert is_processing _ _ _ Finished Hi) as Hc.
    cbn in Hc. lia.
  - done.
  - destruct (0 <? background s)%nat; [|done]. injection Hexec as <-. cbn [queue tasks]. lia.
Qed.

(** X22.  When no worker was started ([MaxWorkers] is zero, or [Start] was not
    called) nothing drains the queue: however many goroutines call
    [Download], at most a hundred of them ever get past the queue, and the
    others stay at the send for ever. *)
Theorem no_worker_caps_processing acts s :
  run 0 acts idle = Some s -> (processing s <= queueCap)%nat.
Proof.
  assert (forall s0, (processing s0 <= queue s0 <= queueCap)%nat ->
            run 0 acts s0 = Some s -> (processing s <= queue s <= queueCap)%nat) as H.
  { induction acts as [|a acts IH]; intros s0 Hinv Hrun; cbn in Hrun.
    - by injection Hrun as <-.
    - destruct (exec 0 a s0) as [s1|] eqn:Hexec; [|done].
      apply (IH s1); [by eapply exec_no_worker | done]. }
  intros Hrun. apply H in Hrun; [lia|]. unfold processing, queueCap. cbn. lia.
Qed.

Lemma no_worker_caps_processing_witness :
  (processing {| queue := 2; tasks := [Processing; Processing]; background := 0 |}
   <= queueCap)%nat.
Proof.
  apply (no_worker_caps_processing (allAtOnce 2)). reflexivity.
Defined.

End ManagerFacts.

(** ** The segmented stream downloader *)

Module M3U8Facts.
Import M3U8.

(** *** Segment file names *)

Lemma of_uint_padding k d : Nat.of_uint (Nat.iter k Decimal.D0 d) = Nat.of_uint d.
Proof. induction k as [|k IH]; [done|]. cbn [Nat.iter]. by rewrite <- IH. Qed.

Lemma fmt_04d_parse index :
  Nat.of_uint <$> NilEmpty.uint_of_string (fmt_04d index) = Some index.
Proof.
  unfold fmt_04d, padding. rewrite NilEmpty.usu. cbn.
  by rewrite of_uint_padding, DecimalNat.Unsigned.of_to.
Qed.

Lemma fmt_04d_inj i j : fmt_04d i = fmt_04d j -> i = j.
Proof.
  intros H. pose proof (fmt_04d_parse i) as Hi. rewrite H, fmt_04d_parse in Hi.
  by injection Hi.
Qed.

Lemma string_app_cons c s t : String c s +:+ t = String c (s +:+ t).
Proof. reflexivity. Qed.

Lemma string_length_app s t : String.length (s +:+ t) = (String.length s + String.length t)%nat.
Proof.
  induction s as [|c s IH]; [done|]. rewrite string_app_cons. cbn. by rewrite IH.
Qed.

Lemma string_app_inj_r s1 s2 t : s1 +:+ t = s2 +:+ t -> s1 = s2.
Proof.
  revert s2. induction s1 as [|c s1 IH]; intros [|c2 s2] H;
    rewrite ?string_app_cons in H.
  - done.
  - apply (f_equal String.length) in H. cbn in H.
    rewrite !string_length_app in H. cbn in H. lia.
  - apply (f_equal String.length) in H. cbn in H.
    rewrite !string_length_app in H. cbn in H. lia.
  - injection H as -> H. by rewrite (IH s2 H).
Qed.

Lemma segmentFileName_inj tempDir i j :
  segmentFileName tempDir i = segmentFileName tempDir j -> i = j.
Proof.
  unfold segmentFileName, filepath_Join. intros H.
  do 3 apply String.app_inj in H.
  by apply string_app_inj_r, fmt_04d_inj in H.
Qed.

Lemma string_prefix_app s t : String.prefix s (s +:+ t) = true.
Proof.
  induction s as [|c s IH]; [by destruct t|].
  rewrite string_app_cons. cbn. by destruct (Ascii.ascii_dec c c).
Qed.

Lemma string_app_assoc s t u : (s +:+ t) +:+ u = s +:+ (t +:+ u).
Proof. induction s as [|c s IH]; [done|]. rewrite !string_app_cons. by rewrite IH. Qed.

Lemma segmentFileName_under tempDir i : under tempDir (segmentFileName tempDir i) = true.
Proof.
  unfold under, segmentFileName, filepath_Join.
  rewrite <- string_app_assoc, string_prefix_app. apply orb_true_r.
Qed.

(** *** The segment goroutines *)

Section Segments.
Context (env : Env) (tempDir : string) (segments : list string) (progress : bool).

(** One goroutine that leaves no error behind found none, stored its
    segment under its own file name and index, and touched nothing else. *)
Lemma segmentTask_step i sh :
  let sh' := segmentTask env tempDir segments progress i sh in
  downloadErrors sh' = [] ->
  downloadErrors sh = [] /\
  length (segmentFiles sh') = length (segmentFiles sh) /\
  (i < length segments -> i < length (segmentFiles sh) ->
   exists body, fetched env segments i body /\
     sh_fs sh' !! segmentFileName tempDir i = Some body /\
     segmentFiles sh' !! i = Some (segmentFileName tempDir i))%nat /\
  (forall j, j <> i -> segmentFiles sh' !! j = segmentFiles sh !! j) /\
  (forall path, path <> segmentFileName tempDir i -> sh_fs sh' !! path = sh_fs sh !! path).
Proof.
  unfold segmentTask, downloadSegment, fetched. cbv zeta.
  destruct (segments !! i) as [url|] eqn:Hurl.
  - destruct (env_segment env i url) as [|status body complete] eqn:Hfetch; cbn.
    { intros H. by apply app_eq_nil in H as [_ ?]. }
    case_bool_decide as Hstatus; cbn.
    + destruct complete; cbn.
      * intros Herr. split; [done|]. split; [by rewrite length_insert|]. split.
        { intros _ Hlen. exists body. split; [by exists url; subst status|].
          split; [by rewrite lookup_insert_eq | by rewrite list_lookup_insert_eq]. }
        split.
        { intros j Hj. by rewrite list_lookup_insert_ne. }
        { intros path Hpath. by rewrite lookup_insert_ne. }
      * intros H. by apply app_eq_nil in H as [_ ?].
    + intros H. by apply app_eq_nil in H as [_ ?].
  - intros Herr. split; [done|]. split; [done|]. split.
    { intros Hlt. apply lookup_lt_is_Some_2 in Hlt as [? ?]. congruence. }
    done.
Qed.

(** The same for all goroutines, in whatever order they finish. *)
Lemma runSegments_no_error order :
  forall sh,
  let sh' := runSegments env tempDir segments progress order sh in
  downloadErrors sh' = [] ->
  downloadErrors sh = [] /\
  length (segmentFiles sh') = length (segmentFiles sh) /\
  (forall i, i ∈ order -> i < length segments -> i < length (segmentFiles sh) ->
   exists body, fetched env segments i body /\
     sh_fs sh' !! segmentFileName tempDir i = Some body /\
     segmentFiles sh' !! i = Some (segmentFileName tempDir i))%nat /\
  (forall j, j ∉ order ->
     segmentFiles sh' !! j = segmentFiles sh !! j /\
     sh_fs sh' !! segmentFileName tempDir j = sh_fs sh !! segmentFileName tempDir j) /\
  (forall path, (forall i, path <> segmentFileName tempDir i) ->
     sh_fs sh' !! path = sh_fs sh !! path).
Proof.
  unfold runSegments.
  induction order as [|i0 rest IH]; intros sh; cbn [foldl]; cbv zeta.
  - intros Herr. split_and!; try done. intros i Hi. by apply elem_of_nil in Hi.
  - intros Herr.
    destruct (IH _ Herr) as (Herr1 & Hlen1 & Hin1 & Hout1 & Hother1).
    destruct (segmentTask_step i0 sh Herr1) as (Herr0 & Hlen0 & Hin0 & Hout0 & Hother0).
    split; [done|]. split; [congruence|]. split_and!.
    + intros i Hi Hseg Hlen.
      destruct (decide (i ∈ rest)) as [Hrest|Hrest].
      * apply Hin1; [done | done | by rewrite Hlen0].
      * apply elem_of_cons in Hi as [->|Hi]; [|done].
        destruct (Hin0 Hseg Hlen) as (body & Hf & Hfs & Hfiles).
        destruct (Hout1 i0 Hrest) as [Hfiles1 Hfs1].
        exists body. split; [done|]. split; congruence.
    + intros j Hj. apply not_elem_of_cons in Hj as [Hji Hj].
      destruct (Hout1 j Hj) as [Hfiles1 Hfs1]. split.
      * rewrite Hfiles1. by apply Hout0.
      * rewrite Hfs1. apply Hother0. intros Heq. by apply segmentFileName_inj in Heq.
    + intros path Hpath. rewrite (Hother1 path Hpath). by apply Hother0.
Qed.

End Segments.

(** *** Merging *)

(** A copying loop that ends without error has appended the segment files
    to the output in the order of the slice. *)
Lemma copySegments_concat env outputPath files :
  forall bodies fs acc fs',
  Forall2 (fun f b => f <> outputPath /\ fs !! f = Some b) files bodies ->
  fs !! outputPath = Some acc ->
  copySegments env files outputPath fs = (fs', None) ->
  fs' !! outputPath = Some (acc ++ concat bodies).
Proof.
  induction files as [|f files IH]; intros bodies fs acc fs' Hall Hacc Hrun.
  - apply Forall2_nil_inv_l in Hall as ->. cbn in Hrun. injection Hrun as <-.
    cbn. by rewrite app_nil_r.
  - apply Forall2_cons_inv_l in Hall as (b & bs & [Hne Hf] & Hall & ->).
    cbn [copySegments] in Hrun. rewrite Hf, Hacc in Hrun. cbn [default] in Hrun.
    destruct (env_copyError env f); [done|].
    rewrite (IH bs (<[outputPath := acc ++ b]> fs) (acc ++ b) fs'); [| |by rewrite lookup_insert_eq|done].
    + cbn. by rewrite app_assoc.
    + eapply Forall2_impl; [done|]. intros f' b' [Hne' Hf'].
      split; [done|]. by rewrite lookup_insert_ne.
Qed.

(** *** The whole download *)

(** C9: when [DownloadM3U8] returns without error, every segment was
    fetched completely and the output file holds the segments' bytes
    concatenated in playlist order, whatever the order in which the segment
    goroutines finished. *)
Theorem DownloadM3U8_playlist_order (env : Env) (mdTempDir : string) (maxWorkers : Z)
    (m3u8URL outputPath : string) (progress : bool) (order : list nat)
    (fs fs' : gmap string (list byte)) (sent : list (nat * nat)) :
  let segments := playlistSegments env m3u8URL in
  Permutation order (seq 0 (length segments)) ->
  under (callTempDir env mdTempDir) outputPath = false ->
  DownloadM3U8 env mdTempDir maxWorkers m3u8URL outputPath progress order fs
  = (fs', Returns None, sent) ->
  (forall i url, segments !! i = Some url ->
     exists body, env_segment env i url = FetchResponds StatusOK body true) /\
  fs' !! outputPath = Some (concat (imap (segmentBody env) segments)).
Proof.
  intros segments Hperm Hout. unfold DownloadM3U8.
  subst segments. unfold playlistSegments in *.
  destruct (env_playlist env) as [|status lines]; [done|].
  case_bool_decide as Hstatus; cbn [negb]; [|done].
  set (segments := parseLines (baseURI m3u8URL) lines) in *.
  destruct segments as [|s0 rest] eqn:Hsegs; [done|]. rewrite <- Hsegs in *.
  fold (callTempDir env mdTempDir) in *. set (tempDir := callTempDir env mdTempDir) in *.
  destruct (env_mkdirOk env); cbn [negb]; [|done].
  case_bool_decide; [done|]. case_bool_decide; [done|].
  set (sh0 := {| sh_fs := fs; segmentFiles := replicate (length segments) "";
                 downloadErrors := []; sh_progress := [] |}).
  set (sh := runSegments env tempDir segments progress order sh0).
  destruct (downloadErrors sh) as [|e errs] eqn:Herr; [|done].
  destruct (runSegments_no_error env tempDir segments progress order sh0 Herr)
    as (_ & Hlen & Hin & _ & _).
  fold sh in Hlen, Hin. cbn [segmentFiles sh0] in Hlen, Hin. rewrite length_replicate in *.
  assert (forall i, (i < length segments)%nat ->
            exists body, fetched env segments i body /\
              sh_fs sh !! segmentFileName tempDir i = Some body /\
              segmentFiles sh !! i = Some (segmentFileName tempDir i)) as Hall.
  { intros i Hi. apply Hin; [|done|done]. rewrite Hperm. apply elem_of_seq. lia. }
  assert (forall i url, segments !! i = Some url ->
            env_segment env i url = FetchResponds StatusOK (segmentBody env i url) true
            /\ sh_fs sh !! segmentFileName tempDir i = Some (segmentBody env i url)
            /\ segmentFiles sh !! i = Some (segmentFileName tempDir i)) as Hbody.
  { intros i url Hurl.
    destruct (Hall i) as (body & (url' & Hurl' & Hfetch) & Hfs & Hfiles).
    { by eapply lookup_lt_Some. }
    rewrite Hurl in Hurl'. injection Hurl' as <-.
    unfold segmentBody. by rewrite Hfetch. }
  unfold mergeSegments.
  destruct (env_createOk env); cbn [negb]; [|by intros [= _ ? _]].
  destruct (copySegments env (segmentFiles sh) outputPath (<[outputPath := []]> (sh_fs sh)))
    as [fs1 err] eqn:Hrun.
  intros [= <- -> _].
  assert (fs1 !! outputPath = Some ([] ++ concat (imap (segmentBody env) segments)))
    as Hres.
  { eapply (copySegments_concat env outputPath (segmentFiles sh)); [| |exact Hrun];
      [|by rewrite lookup_insert_eq].
    apply Forall2_same_length_lookup. split; [by rewrite length_imap|].
    intros i f b Hf Hb. apply list_lookup_imap_Some in Hb as (url & Hurl & ->).
    destruct (Hbody i url Hurl) as (_ & Hfs & Hfiles).
    rewrite Hfiles in Hf. injection Hf as <-.
    assert (segmentFileName tempDir i <> outputPath) as Hne.
    { intros <-. by rewrite segmentFileName_under in Hout. }
    split; [done|]. by rewrite lookup_insert_ne. }
  split.
  - intros i url Hurl. exists (segmentBody env i url). by apply Hbody.
  - unfold os_RemoveAll. apply map_lookup_filter_Some. split; [done|].
    cbn. by rewrite Hout.
Qed.

(** The three segments of the example arrive in the order 2, 0, 1 and are
    merged in the order 0, 1, 2. *)
Lemma DownloadM3U8_playlist_order_witness :
  (DownloadM3U8 example_env "./temp" 2 "http://h/a/b.m3u8" "out.ts" true [2; 0; 1]%nat ∅).1.1
    !! "out.ts" = Some [x00; x01; x02; x03]%byte.
Proof.
  destruct (DownloadM3U8_playlist_order example_env "./temp" 2 "http://h/a/b.m3u8"
              "out.ts" true [2; 0; 1]%nat ∅
              (DownloadM3U8 example_env "./temp" 2 "http://h/a/b.m3u8" "out.ts" true
                 [2; 0; 1]%nat ∅).1.1
              [(3, 3); (1, 3); (2, 3)]%nat) as [_ H].
  - vm_compute. apply (perm_trans (l' := [0; 2; 1]%nat)); [apply perm_swap|].
    apply perm_skip, perm_swap.
  - reflexivity.
  - by vm_compute.
  - exact H.
Defined.

(** A failed segment: an error is returned and no output appears. *)
Example DownloadM3U8_segment_failure :
  let env := {| env_playlist := env_playlist example_env;
                env_segment := fun index url =>
                  if (index =? 1)%nat then FetchResponds 404 [] true
                  else env_segment example_env index url;
                env_now := 17; env_mkdirOk := true; env_createOk := true;
                env_copyError := fun _ => None |} in
  DownloadM3U8 env "./temp" 2 "http://h/a/b.m3u8" "out.ts" false [2; 0; 1]%nat ∅
  = (∅, Returns (Some (ErrSegments [1%nat])), []).
Proof. by vm_compute. Qed.

(** A merge that fails while copying the last segment, after one byte of
    it: an error is returned and the output holds what got through. *)
Example DownloadM3U8_copy_failure :
  let env := {| env_playlist := env_playlist example_env;
                env_segment := env_segment example_env;
                env_now := 17; env_mkdirOk := true; env_createOk := true;
                env_copyError := fun segmentFile =>
                  if bool_decide (segmentFile = segmentFileName "temp/m3u8_17" 2)
                  then Some 1%nat else None |} in
  let '(fs', r, _) :=
    DownloadM3U8 env "temp" 2 "http://h/a/b.m3u8" "out.ts" false [2; 0; 1]%nat ∅ in
  r = Returns (Some ErrCopySegment) /\
  fs' !! "out.ts" = Some [x00; x01; x02]%byte.
Proof. by vm_compute. Qed.

(** The parsing of the example playlist *)
Example playlistSegments_example :
  playlistSegments example_env "http://h/a/b.m3u8"
  = ["http://h/a/s0.ts"; "http://x/s1.ts"; "http://h/a/s2.ts"].
Proof. reflexivity. Qed.

(** *** The files a download touches *)

Lemma segmentTask_frame env tempDir segments progress i sh path :
  path <> segmentFileName tempDir i ->
  sh_fs (segmentTask env tempDir segments progress i sh) !! path = sh_fs sh !! path.
Proof.
  intros Hpath. unfold segmentTask, downloadSegment.
  destruct (segments !! i) as [url|]; [|done].
  destruct (env_segment env i url) as [|status body complete]; cbn; [done|].
  case_bool_decide; cbn; [|done].
  destruct complete; cbn; by rewrite lookup_insert_ne.
Qed.

Lemma runSegments_frame env tempDir segments progress order :
  forall sh path, under tempDir path = false ->
    sh_fs (runSegments env tempDir segments progress order sh) !! path = sh_fs sh !! path.
Proof.
  unfold runSegments.
  induction order as [|i rest IH]; intros sh path Hpath; cbn [foldl]; [done|].
  rewrite IH by done. apply segmentTask_frame.
  intros ->. by rewrite segmentFileName_under in Hpath.
Qed.

Lemma copySegments_frame env outputPath files :
  forall fs path, path <> outputPath ->
    (copySegments env files outputPath fs).1 !! path = fs !! path.
Proof.
  induction files as [|f files IH]; intros fs path Hpath; cbn [copySegments]; [done|].
  destruct (fs !! f); [|done].
  destruct (env_copyError env f); [cbn; by rewrite lookup_insert_ne|].
  rewrite IH by done. by rewrite lookup_insert_ne.
Qed.

Lemma copySegments_error env outputPath files :
  forall fs, (copySegments env files outputPath fs).2 = None \/
             (copySegments env files outputPath fs).2 = Some ErrOpenSegment \/
             (copySegments env files outputPath fs).2 = Some ErrCopySegment.
Proof.
  induction files as [|f files IH]; intros fs; cbn [copySegments]; [by left|].
  destruct (fs !! f); [|by right; left].
  destruct (env_copyError env f); [by right; right | apply IH].
Qed.

Lemma os_RemoveAll_under dir fs path :
  under dir path = true -> os_RemoveAll dir fs !! path = None.
Proof.
  intros H. unfold os_RemoveAll. apply map_lookup_filter_None. right.
  intros x _. cbn. by rewrite H.
Qed.

Lemma os_RemoveAll_other dir fs path :
  under dir path = false -> os_RemoveAll dir fs !! path = fs !! path.
Proof.
  intros H. unfold os_RemoveAll. destruct (fs !! path) as [x|] eqn:Hp.
  - apply map_lookup_filter_Some. split; [done|]. cbn. by rewrite H.
  - apply map_lookup_filter_None. by left.
Qed.

(** X23.  However a call of [DownloadM3U8] ends, it changes no file outside its
    temporary directory other than the output file; unless it hangs, it
    leaves nothing in the temporary directory; and the output file is only
    written when the call returns without error or fails in the copying loop
    of the merge, while opening or while copying a segment: a failed
    playlist fetch, a failed segment or a failed creation of the output
    leave the output file as it was. *)
Theorem DownloadM3U8_footprint env mdTempDir maxWorkers m3u8URL outputPath progress order
    fs fs' r sent :
  DownloadM3U8 env mdTempDir maxWorkers m3u8URL outputPath progress order fs
  = (fs', r, sent) ->
  let tempDir := callTempDir env mdTempDir in
  (forall path, under tempDir path = false -> path <> outputPath ->
                fs' !! path = fs !! path) /\
  (r <> Hangs ->
   (forall path, under tempDir path = true -> fs !! path = None) ->
   forall path, under tempDir path = true -> fs' !! path = None) /\
  (under tempDir outputPath = false ->
   r <> Returns None -> r <> Returns (Some ErrOpenSegment) ->
   r <> Returns (Some ErrCopySegment) ->
   fs' !! outputPath = fs !! outputPath).
Proof.
  cbv zeta. unfold DownloadM3U8.
  destruct (env_playlist env) as [|status lines];
    [intros [= <- <- <-]; by split_and!|].
  case_bool_decide; cbn [negb]; [|intros [= <- <- <-]; by split_and!].
  destruct (parseLines _ _) as [|s0 rest]; [intros [= <- <- <-]; by split_and!|].
  fold (callTempDir env mdTempDir). set (tempDir := callTempDir env mdTempDir).
  set (segments := s0 :: rest).
  destruct (env_mkdirOk env); cbn [negb]; [|intros [= <- <- <-]; by split_and!].
  case_bool_decide.
  { intros [= <- <- <-]. split_and!.
    - intros path Hu _. by apply os_RemoveAll_other.
    - intros _ _ path Hu. by apply os_RemoveAll_under.
    - intros Hu _ _ _. by apply os_RemoveAll_other. }
  case_bool_decide; [intros [= <- <- <-]; by split_and!|].
  set (sh0 := {| sh_fs := fs; segmentFiles := replicate (length segments) "";
                 downloadErrors := []; sh_progress := [] |}).
  set (sh := runSegments env tempDir segments progress order sh0).
  assert (forall path, under tempDir path = false -> sh_fs sh !! path = fs !! path)
    as Hframe.
  { intros path Hu. unfold sh. by rewrite runSegments_frame. }
  destruct (downloadErrors sh) as [|e errs].
  - unfold mergeSegments. destruct (env_createOk env); cbn [negb].
    + pose proof (copySegments_frame env outputPath (segmentFiles sh)
                    (<[outputPath := []]> (sh_fs sh))) as Hcopy.
      pose proof (copySegments_error env outputPath (segmentFiles sh)
                    (<[outputPath := []]> (sh_fs sh))) as Herr.
      destruct (copySegments _ _ _) as [fs1 err]. cbn [fst snd] in Hcopy, Herr.
      intros [= <- <- <-]. split_and!.
      * intros path Hu Hne. rewrite os_RemoveAll_other, Hcopy, lookup_insert_ne by done.
        by apply Hframe.
      * intros _ _ path Hu. by apply os_RemoveAll_under.
      * intros _ Hn1 Hn2 Hn3. by destruct Herr as [->|[->| ->]].
    + intros [= <- <- <-]. split_and!.
      * intros path Hu _. rewrite os_RemoveAll_other by done. by apply Hframe.
      * intros _ _ path Hu. by apply os_RemoveAll_under.
      * intros Hu _ _ _. rewrite os_RemoveAll_other by done. by apply Hframe.
  - intros [= <- <- <-]. split_and!.
    + intros path Hu _. rewrite os_RemoveAll_other by done. by apply Hframe.
    + intros _ _ path Hu. by apply os_RemoveAll_under.
    + intros Hu _ _ _. rewrite os_RemoveAll_other by done. by apply Hframe.
Qed.

(** A file that is there before the download of the example is there
    afterwards. *)
Lemma DownloadM3U8_footprint_witness :
  (DownloadM3U8 example_env "./temp" 2 "http://h/a/b.m3u8" "out.ts" true [2; 0; 1]%nat
     {[ "keep" := [x09]%byte ]}).1.1 !! "keep" = Some [x09]%byte.
Proof.
  destruct (DownloadM3U8_footprint example_env "./temp" 2 "http://h/a/b.m3u8"
              "out.ts" true [2; 0; 1]%nat {[ "keep" := [x09]%byte ]}
              (DownloadM3U8 example_env "./temp" 2 "http://h/a/b.m3u8" "out.ts" true
                 [2; 0; 1]%nat {[ "keep" := [x09]%byte ]}).1.1
              (Returns None)
              [(3, 3); (1, 3); (2, 3)]%nat) as (Hframe & _ & _).
  - by vm_compute.
  - rewrite Hframe; [reflexivity | by vm_compute | done].
Defined.

(** *** The base of relative segment addresses *)

Lemma uptoLastSlash_splits s :
  match uptoLastSlash s with
  | Some p => exists q rest, p = q +:+ "/" /\ s = p +:+ rest /\
                             "/"%char ∉ String.list_ascii_of_string rest
  | None => "/"%char ∉ String.list_ascii_of_string s
  end.
Proof.
  induction s as [|c s IH]; cbn [uptoLastSlash].
  - cbn. apply not_elem_of_nil.
  - destruct (uptoLastSlash s) as [p|].
    + destruct IH as (q & rest & -> & Hs & Hrest).
      exists (String c q), rest. split; [done|]. split; [|done].
      rewrite !string_app_cons. by rewrite <- Hs.
    + destruct (Ascii.eqb_spec c "/"%char) as [->|Hne].
      * exists "", s. by split_and!.
      * cbn. apply not_elem_of_cons. by split.
Qed.

(** X24.  [baseURI] is the address of the playlist up to and including its last
    slash: what is cut off holds no slash, and the base is empty (for an
    address without slash) or ends in a slash, so a relative segment line
    is resolved in the directory of the playlist. *)
Theorem baseURI_splits m3u8URL :
  exists rest,
    m3u8URL = baseURI m3u8URL +:+ rest /\
    ("/"%char ∉ String.list_ascii_of_string rest) /\
    (baseURI m3u8URL = "" \/ exists q, baseURI m3u8URL = q +:+ "/").
Proof.
  unfold baseURI. pose proof (uptoLastSlash_splits m3u8URL) as H.
  destruct (uptoLastSlash m3u8URL) as [p|]; cbn [default].
  - destruct H as (q & rest & Hp & Hs & Hrest). exists rest.
    split; [done|]. split; [done|]. right. by exists q.
  - exists m3u8URL. split; [done|]. split; [done|]. by left.
Qed.

End M3U8Facts.

(** ** The helpers of the HTTP client *)

Module UtilsFacts.
Import Utils.

(** *** Retrying *)

Lemma attempts_cons i k : attempts i (S k) = EvGet i :: EvSleep :: attempts (S i) k.
Proof.
  unfold attempts. cbn [seq flat_map]. cbn [app].
  by replace (i + S k)%nat with (S i + k)%nat by lia.
Qed.

Lemma retryFrom_first_acceptable answer maxRetries k code :
  (k < Z.to_nat maxRetries)%nat ->
  answer k = GetResponse code -> code < 500 ->
  forall n i err log,
    (i + n = Z.to_nat maxRetries)%nat -> (i <= k)%nat ->
    (forall j, (i <= j < k)%nat -> acceptable (answer j) = false) ->
    retryFrom answer maxRetries n i err log = (Response code, log ++ attempts i (k - i)).
Proof.
  intros Hk Hanswer Hcode.
  induction n as [|n IH]; intros i err log Hn Hi Hbefore; [lia|].
  cbn [retryFrom]. destruct (decide (i = k)) as [->|Hne].
  - rewrite Hanswer. destruct (Z.ltb_spec code 500) as [_|]; [|lia].
    rewrite Nat.sub_diag. unfold attempts. cbn. by rewrite Nat.add_0_r.
  - assert (acceptable (answer i) = false) as Hno by (apply Hbefore; lia).
    destruct (Z.ltb_spec (Z.of_nat i) (maxRetries - 1)) as [_|]; [|lia].
    replace (k - i)%nat with (S (k - S i)) by lia. rewrite attempts_cons.
    destruct (answer i) as [|c]; cbn in Hno.
    + rewrite IH; [|lia|lia|intros j Hj; apply Hbefore; lia].
      by rewrite <- !app_assoc.
    + rewrite Hno. rewrite IH; [|lia|lia|intros j Hj; apply Hbefore; lia].
      by rewrite <- !app_assoc.
Qed.

(** X25.  [GetWithRetry] returns the first answer it can take: when call [k] is
    the first to give a response with a status below 500, and [k] is below
    [maxRetries], the function returns that response after [k + 1] calls,
    having slept after each of the [k] calls before. *)
Theorem GetWithRetry_first_acceptable answer maxRetries k code :
  (k < Z.to_nat maxRetries)%nat ->
  answer k = GetResponse code -> code < 500 ->
  (forall j, (j < k)%nat -> acceptable (answer j) = false) ->
  GetWithRetry answer maxRetries = (Response code, attempts 0 k).
Proof.
  intros Hk Hanswer Hcode Hbefore. unfold GetWithRetry.
  rewrite (retryFrom_first_acceptable answer maxRetries k code Hk Hanswer Hcode);
    [by rewrite Nat.sub_0_r | lia | lia | intros j Hj; apply Hbefore; lia].
Qed.

Lemma GetWithRetry_first_acceptable_witness :
  GetWithRetry (fun j => match j with
                         | O => GetError
                         | 1%nat => GetResponse 503
                         | _ => GetResponse 404
                         end) 5
  = (Response 404, [EvGet 0; EvSleep; EvGet 1; EvSleep; EvGet 2]).
Proof.
  apply (GetWithRetry_first_acceptable _ 5 2 404).
  - lia.
  - reflexivity.
  - lia.
  - intros [|[|j]] Hj; [reflexivity | reflexivity | lia].
Defined.

Lemma retryFrom_exhausted answer maxRetries :
  (forall j, (j < Z.to_nat maxRetries)%nat -> acceptable (answer j) = false) ->
  forall n i err log,
    (i + S n = Z.to_nat maxRetries)%nat ->
    retryFrom answer maxRetries (S n) i err log
    = (RequestFailed (is_error (answer (i + n)%nat)), log ++ attempts i n).
Proof.
  intros Hnone.
  induction n as [|n IH]; intros i err log Hn.
  - cbn [retryFrom]. rewrite Nat.add_0_r.
    assert (acceptable (answer i) = false) as Hno by (apply Hnone; lia).
    destruct (Z.ltb_spec (Z.of_nat i) (maxRetries - 1)) as [|_]; [lia|].
    unfold attempts. cbn [seq flat_map app]. rewrite Nat.add_0_r.
    destruct (answer i) as [|c]; cbn in Hno |- *; [done|]. by rewrite Hno.
  - assert (acceptable (answer i) = false) as Hno by (apply Hnone; lia).
    rewrite attempts_cons.
    replace (i + S n)%nat with (S i + n)%nat by lia.
    specialize (IH (S i)).
    remember (S n) as m eqn:Hm. cbn [retryFrom]. subst m.
    destruct (Z.ltb_spec (Z.of_nat i) (maxRetries - 1)) as [_|]; [|lia].
    destruct (answer i) as [|c]; cbn in Hno.
    + rewrite IH by lia. by rewrite <- !app_assoc.
    + rewrite Hno. rewrite IH by lia. by rewrite <- !app_assoc.
Qed.

(** X26.  [GetWithRetry] gives up after [maxRetries] calls: when none of them
    gives a response with a status below 500, it has made exactly
    [maxRetries] calls, slept between them and not after the last, and
    returns the error; the error it wraps is the one of the last call, which
    is nil when the last call gave a response. *)
Theorem GetWithRetry_exhausted answer maxRetries :
  0 < maxRetries ->
  (forall j, (j < Z.to_nat maxRetries)%nat -> acceptable (answer j) = false) ->
  GetWithRetry answer maxRetries
  = (RequestFailed (is_error (answer (Z.to_nat maxRetries - 1)%nat)),
     attempts 0 (Z.to_nat maxRetries - 1)).
Proof.
  intros Hpos Hnone. unfold GetWithRetry.
  replace (Z.to_nat maxRetries) with (S (Z.to_nat maxRetries - 1)) at 1 by lia.
  rewrite (retryFrom_exhausted answer maxRetries Hnone) by lia. done.
Qed.

Lemma GetWithRetry_exhausted_witness :
  GetWithRetry (fun j => match j with O => GetError | _ => GetResponse 503 end) 3
  = (RequestFailed false, [EvGet 0; EvSleep; EvGet 1; EvSleep; EvGet 2]).
Proof.
  apply (GetWithRetry_exhausted
           (fun j => match j with O => GetError | _ => GetResponse 503 end) 3).
  - lia.
  - intros [|j] _; reflexivity.
Defined.

(** *** Formatting a byte count *)

Lemma pow1024_bound e : 0 <= e -> 1024 ^ (e + 1) < 2 ^ 63 -> e <= 5.
Proof.
  intros He H. destruct (Z_lt_le_dec 5 e) as [Hgt|]; [|done]. exfalso.
  assert (1024 ^ 7 <= 1024 ^ (e + 1)) by (apply Z.pow_le_mono_r; lia).
  assert (2 ^ 63 < 1024 ^ 7) by (by vm_compute). lia.
Qed.

Lemma scale_spec bytes :
  bytes < 2 ^ 63 ->
  forall fuel n div exp,
    1 <= n -> 0 < div -> n = bytes / div -> 0 <= exp -> div = 1024 ^ (exp + 1) ->
    n < 1024 ^ Z.of_nat fuel ->
    exists div' exp',
      scale fuel n div exp = Some (div', exp') /\
      0 <= exp' /\ div' = 1024 ^ (exp' + 1) /\ div' <= bytes < 1024 * div'.
Proof.
  intros Hbytes.
  induction fuel as [|fuel IH]; intros n div exp Hn Hdiv Hq Hexp Hpow Hfuel.
  { cbn in Hfuel. lia. }
  cbn [scale].
  assert (div * n <= bytes < div * (n + 1)) as Hbounds.
  { subst n. pose proof (Z.mul_div_le bytes div Hdiv).
    pose proof (Z.mul_succ_div_gt bytes div Hdiv). lia. }
  destruct (Z.leb_spec 1024 n) as [Hbig|Hsmall].
  - assert (div * 1024 <= bytes) as Hfit by nia.
    rewrite (ResumeFacts.wrap64_id (div * 1024)) by lia.
    assert (exp <= 5) as He by (apply pow1024_bound; [done | rewrite <- Hpow; nia]).
    rewrite (ResumeFacts.wrap64_id (exp + 1)) by lia.
    rewrite Z.quot_div_nonneg by lia.
    apply IH.
    + apply Z.div_le_lower_bound; lia.
    + lia.
    + subst n. rewrite Z.div_div by lia. done.
    + lia.
    + rewrite Hpow. replace (exp + 1 + 1) with (Z.succ (exp + 1)) by lia.
      rewrite Z.pow_succ_r by lia. lia.
    + apply Z.div_lt_upper_bound; [lia|].
      rewrite Nat2Z.inj_succ, Z.pow_succ_r in Hfuel by lia. lia.
  - exists div, exp. split; [done|]. split; [done|]. split; [done|]. nia.
Qed.

(** X27.  Whatever 64-bit number [FormatBytes] is given from 1024 on, its loop
    ends with an exponent that is an index of the six letters, so the index
    expression never panics; the divisor is the power of 1024 of that
    exponent plus one, so it never overflows, and the number lies between
    the divisor and 1024 times the divisor.  (This is about the integers
    of the loop; how [%.1f] rounds the quotient is not part of it.) *)
Theorem FormatBytes_scaled bytes :
  1024 <= bytes < 2 ^ 63 ->
  exists div exp,
    FormatBytes bytes = Some (Scaled bytes div exp) /\
    0 <= exp <= 5 /\ div = 1024 ^ (exp + 1) /\ div <= bytes < 1024 * div.
Proof.
  intros [Hlo Hhi]. unfold FormatBytes.
  destruct (Z.ltb_spec bytes 1024) as [|_]; [lia|].
  rewrite Z.quot_div_nonneg by lia.
  destruct (scale_spec bytes Hhi 64 (bytes / 1024) 1024 0)
    as (div & exp & -> & Hexp & Hdiv & Hbounds).
  - apply Z.div_le_lower_bound; lia.
  - lia.
  - done.
  - lia.
  - done.
  - apply Z.div_lt_upper_bound; [lia|].
    assert (2 ^ 63 < 1024 * 1024 ^ Z.of_nat 64) by (by vm_compute). lia.
  - assert (exp <= 5) as He by (apply pow1024_bound; [done | rewrite <- Hdiv; lia]).
    exists div, exp.
    destruct (Z.leb_spec 0 exp) as [_|]; [|lia].
    destruct (Z.ltb_spec exp 6) as [_|]; [|lia].
    cbn [andb]. split; [done|]. split; [lia|]. by split.
Qed.

Lemma FormatBytes_scaled_witness :
  FormatBytes 1536 = Some (Scaled 1536 1024 0).
Proof.
  destruct (FormatBytes_scaled 1536) as (div & exp & H & _); [lia|].
  reflexivity.
Defined.

(** *** A download by [downloadFile] *)





End UtilsFacts.
